(** * Mark and Sweep garbage collector: shallow embedding and verification

    The development follows [mark_and_sweep.py].  Python objects live in a
    shared store (the [heap]); a [ManagedObject] handle is the position of the
    object in that store, in creation order.  The collector's two sets hold
    handles, so that aliasing between [all_objects], [roots] and the reference
    lists is kept: a state change made through one handle is seen through
    every other. *)

From stdpp Require Import base decidable option list list_numbers gmap sets relations strings.
From stdpp Require Import pretty sorting.
From Stdlib Require Import Lia.

#[local] Set Warnings "-clear-no-such-hyp".

(** ** Data model *)

(** [class ObjectState(Enum)] *)
Inductive ObjectState := UNMARKED | MARKED | COLLECTED.

#[global] Instance ObjectState_eq_dec : EqDecision ObjectState.
Proof. solve_decision. Defined.

(** A handle on a [ManagedObject]: its address in the store. *)
Abbreviation loc := nat (only parsing).

(** The order in which a [for] loop visits a Python set is not specified: it
    is some enumeration of the members, each once. *)
Class IterationOrder := {
  iter : gset loc → list loc;
  iter_perm : ∀ X : gset loc, iter X ≡ₚ elements X
}.

Section Model.

(** The payload [data: Any] is never read by the collector. *)
Context {Any : Type} {order : IterationOrder}.

(** [class ManagedObject]: the instance attributes set by [__init__]. *)
Record ManagedObject := mkObject {
  id : nat;
  name : string;
  data : Any;
  references : list loc;
  state : ObjectState
}.

Definition set_state (st : ObjectState) (o : ManagedObject) : ManagedObject :=
  mkObject (id o) (name o) (data o) (references o) st.

Definition set_references (rs : list loc) (o : ManagedObject) : ManagedObject :=
  mkObject (id o) (name o) (data o) rs (state o).

(** The part of the Python process the collector works on: the class
    attribute [ManagedObject._id_counter] and the store of every
    [ManagedObject] created so far, oldest first. *)
Record World := mkWorld {
  _id_counter : nat;
  heap : list ManagedObject
}.

(** The [stats] dictionary built by [collect]. *)
Record Stats := mkStats {
  initial_objects : nat;
  marked_objects : nat;
  collected_objects : nat;
  final_objects : nat;
  stats_roots : nat
}.

(** [class MarkAndSweepGC]: the instance attributes set by [__init__]. *)
Record MarkAndSweepGC := mkGC {
  all_objects : gset loc;
  roots : gset loc;
  collected_count : nat;
  collection_history : list Stats
}.

(** The dictionary returned by [get_stats]. *)
Record AggregateStats := mkAggregate {
  total_objects : nat;
  root_objects : nat;
  total_collected : nat;
  collection_cycles : nat
}.

(** ** ManagedObject *)

(** [ManagedObject.__init__]: bump the class counter, take its new value as
    id, start with no reference and [UNMARKED]. *)
Definition ManagedObject_init (w : World) (nm : string) (d : Any) : World * loc :=
  let c := S (_id_counter w) in
  (mkWorld c (heap w ++ [mkObject c nm d [] UNMARKED]), length (heap w)).

(** [list.remove(x)]: drop the first occurrence. *)
Fixpoint list_remove (x : loc) (l : list loc) : list loc :=
  match l with
  | [] => []
  | y :: l' => if decide (x = y) then l' else y :: list_remove x l'
  end.

(** [ManagedObject.add_reference] *)
Definition add_reference (self : ManagedObject) (obj : loc) : ManagedObject :=
  if decide (obj ∉ references self)
  then set_references (references self ++ [obj]) self
  else self.

(** [ManagedObject.remove_reference] *)
Definition remove_reference (self : ManagedObject) (obj : loc) : ManagedObject :=
  if decide (obj ∈ references self)
  then set_references (list_remove obj (references self)) self
  else self.

(** The two methods as seen on the store: [self] is updated in place. *)
Definition heap_add_reference (h : list ManagedObject) (self obj : loc) : list ManagedObject :=
  alter (λ o, add_reference o obj) self h.

Definition heap_remove_reference (h : list ManagedObject) (self obj : loc) : list ManagedObject :=
  alter (λ o, remove_reference o obj) self h.

(** ** MarkAndSweepGC *)

(** [MarkAndSweepGC.__init__] *)
Definition GC_init : MarkAndSweepGC := mkGC ∅ ∅ 0 [].

(** [MarkAndSweepGC.allocate] *)
Definition allocate (w : World) (g : MarkAndSweepGC) (nm : string) (d : Any)
  : World * MarkAndSweepGC * loc :=
  let '(w', obj) := ManagedObject_init w nm d in
  (w',
   mkGC (all_objects g ∪ {[obj]}) (roots g) (collected_count g) (collection_history g),
   obj).

(** [MarkAndSweepGC.add_root] *)
Definition add_root (g : MarkAndSweepGC) (obj : loc) : MarkAndSweepGC :=
  mkGC (all_objects g) (roots g ∪ {[obj]}) (collected_count g) (collection_history g).

(** [MarkAndSweepGC.remove_root] *)
Definition remove_root (g : MarkAndSweepGC) (obj : loc) : MarkAndSweepGC :=
  if decide (obj ∈ roots g)
  then mkGC (all_objects g) (roots g ∖ {[obj]}) (collected_count g) (collection_history g)
  else g.

(** A [for x in xs: body] loop whose body may fail to return. *)
Fixpoint for_each {S A : Type} (body : S → A → option S) (s : S) (xs : list A) : option S :=
  match xs with
  | [] => Some s
  | x :: xs' =>
      match body s x with
      | Some s' => for_each body s' xs'
      | None => None
      end
  end.

(** [obj.state = st].  A handle always denotes an object ([handles_valid]
    below); on one that does not, the model leaves the store as it is. *)
Definition write_state (st : ObjectState) (h : list ManagedObject) (obj : loc) : list ManagedObject :=
  alter (set_state st) obj h.

(** [obj.state], for a handle that denotes an object. *)
Definition read_state (h : list ManagedObject) (obj : loc) : option ObjectState :=
  state <$> h !! obj.

(** [MarkAndSweepGC.mark].  [fuel] bounds the depth of the recursion, as the
    interpreter's call stack does; [None] is a stack that is too small.  The
    test is [== MARKED] alone: an [UNMARKED] and a [COLLECTED] object are
    both marked and traversed. *)
Fixpoint mark (fuel : nat) (h : list ManagedObject) (obj : loc) : option (list ManagedObject) :=
  match fuel with
  | O => None
  | S fuel' =>
      match h !! obj with
      | None => Some h
      | Some o =>
          if decide (state o = MARKED) then Some h
          else for_each (mark fuel') (write_state MARKED h obj) (references o)
      end
  end.

(** [MarkAndSweepGC.mark_phase]: the new store and [marked_count]. *)
Definition mark_phase (fuel : nat) (h : list ManagedObject) (g : MarkAndSweepGC)
  : option (list ManagedObject * nat) :=
  let h1 := foldl (write_state UNMARKED) h (iter (all_objects g)) in
  match for_each (mark fuel) h1 (iter (roots g)) with
  | None => None
  | Some h2 =>
      let marked_count :=
        foldl (λ n obj, if decide (read_state h2 obj = Some MARKED) then n + 1 else n)
              0 (iter (all_objects g)) in
      Some (h2, marked_count)
  end.

(** The first loop of [sweep_phase]: the store and the [collected] list. *)
Definition sweep_step (acc : list ManagedObject * list loc) (obj : loc)
  : list ManagedObject * list loc :=
  if decide (read_state acc.1 obj = Some UNMARKED)
  then (write_state COLLECTED acc.1 obj, acc.2 ++ [obj])
  else acc.

(** [MarkAndSweepGC.sweep_phase]: the new store, the collector and
    [len(collected)].  Every element of [collected] is a member when
    [set.remove] is called on it, so the call cannot raise. *)
Definition sweep_phase (h : list ManagedObject) (g : MarkAndSweepGC)
  : list ManagedObject * MarkAndSweepGC * nat :=
  let '(h', collected) := foldl sweep_step (h, []) (iter (all_objects g)) in
  let all' := foldl (λ s obj, s ∖ {[obj]}) (all_objects g) collected in
  (h',
   mkGC all' (roots g) (collected_count g + length collected) (collection_history g),
   length collected).

(** [MarkAndSweepGC.collect] *)
Definition collect (fuel : nat) (w : World) (g : MarkAndSweepGC)
  : option (World * MarkAndSweepGC * Stats) :=
  let initial_count := size (all_objects g) in
  match mark_phase fuel (heap w) g with
  | None => None
  | Some (h1, marked_count) =>
      let '(h2, g1, collected) := sweep_phase h1 g in
      let final_count := size (all_objects g1) in
      let stats := mkStats initial_count marked_count collected final_count (size (roots g1)) in
      Some (mkWorld (_id_counter w) h2,
            mkGC (all_objects g1) (roots g1) (collected_count g1)
                 (collection_history g1 ++ [stats]),
            stats)
  end.

(** [MarkAndSweepGC.get_stats] *)
Definition get_stats (g : MarkAndSweepGC) : AggregateStats :=
  mkAggregate (size (all_objects g)) (size (roots g)) (collected_count g)
              (length (collection_history g)).

(** ** The public operations, as a caller issues them *)

(** One call on the collector or on an object handle. *)
Inductive Op :=
| Allocate (nm : string) (d : Any)
| AddReference (self obj : loc)
| RemoveReference (self obj : loc)
| AddRoot (obj : loc)
| RemoveRoot (obj : loc)
| Collect
| GetStats.

(** A caller can only pass handles of objects that exist. *)
Definition denotes (w : World) (obj : loc) : Prop := obj < length (heap w).

#[global] Instance denotes_dec (w : World) (obj : loc) : Decision (denotes w obj).
Proof. unfold denotes. apply _. Defined.

(** The effect of one call on the store and the collector.  [None]: a handle
    that denotes nothing, or a [collect] that ran out of stack. *)
Definition exec (fuel : nat) (s : World * MarkAndSweepGC) (op : Op)
  : option (World * MarkAndSweepGC) :=
  let '(w, g) := s in
  match op with
  | Allocate nm d => let '(w', g', _) := allocate w g nm d in Some (w', g')
  | AddReference self obj =>
      if decide (denotes w self ∧ denotes w obj)
      then Some (mkWorld (_id_counter w) (heap_add_reference (heap w) self obj), g)
      else None
  | RemoveReference self obj =>
      if decide (denotes w self ∧ denotes w obj)
      then Some (mkWorld (_id_counter w) (heap_remove_reference (heap w) self obj), g)
      else None
  | AddRoot obj => if decide (denotes w obj) then Some (w, add_root g obj) else None
  | RemoveRoot obj => if decide (denotes w obj) then Some (w, remove_root g obj) else None
  | Collect =>
      match collect fuel w g with
      | Some (w', g', _) => Some (w', g')
      | None => None
      end
  | GetStats => let _ := get_stats g in Some (w, g)
  end.

(** A sequence of calls. *)
Fixpoint run (fuel : nat) (s : World * MarkAndSweepGC) (ops : list Op)
  : option (World * MarkAndSweepGC) :=
  match ops with
  | [] => Some s
  | op :: ops' =>
      match exec fuel s op with
      | Some s' => run fuel s' ops'
      | None => None
      end
  end.

(** A fresh process with a fresh collector. *)
Definition init : World * MarkAndSweepGC := (mkWorld 0 [], GC_init).


(** The calls that build a graph and a root set. *)
Definition builds (op : Op) : bool :=
  match op with
  | Collect | GetStats => false
  | _ => true
  end.

Definition is_collect (op : Op) : bool :=
  match op with
  | Collect => true
  | _ => false
  end.

(** A call that hands the collector only objects it still holds: the new
    root, or the target of a reference held by a live object, is a member of
    [all_objects]. *)
Definition live_op (s : World * MarkAndSweepGC) (op : Op) : Prop :=
  match op with
  | AddRoot obj => obj ∈ all_objects s.2
  | AddReference self obj => self ∈ all_objects s.2 → obj ∈ all_objects s.2
  | _ => True
  end.

(** A call that roots only an object the collector still holds. *)
Definition live_root_op (s : World * MarkAndSweepGC) (op : Op) : Prop :=
  match op with
  | AddRoot obj => obj ∈ all_objects s.2
  | _ => True
  end.

(** A sequence of calls from [s] to [s'], each of which satisfies [guard] in
    the state where it is issued. *)
Fixpoint guarded_run (guard : World * MarkAndSweepGC → Op → Prop) (fuel : nat)
  (s : World * MarkAndSweepGC) (ops : list Op) (s' : World * MarkAndSweepGC) : Prop :=
  match ops with
  | [] => s' = s
  | op :: ops' =>
      guard s op ∧ ∃ s1, exec fuel s op = Some s1 ∧ guarded_run guard fuel s1 ops' s'
  end.

(** The [collect] calls of a sequence. *)
Definition completed_cycles (ops : list Op) : nat :=
  length (filter (λ op, is_collect op = true) ops).

(** The total of the [collected_objects] entries of a history. *)
Definition history_collected (hist : list Stats) : nat :=
  sum_list_with collected_objects hist.

(** ** Identities *)

(** The ids of all objects created so far, in creation order. *)
Definition ids (w : World) : list nat := id <$> heap w.

(** One step of the process as far as objects are concerned: an object is
    created directly, or some collector runs one of its operations. *)
Definition world_step (w w' : World) : Prop :=
  (∃ nm d, w' = (ManagedObject_init w nm d).1) ∨
  (∃ fuel g op g', exec fuel (w, g) op = Some (w', g')).

(** The process when the module has just been loaded. *)
Definition fresh_world : World := mkWorld 0 [].

(** ** Reachability in the reference graph *)

Definition edge (h : list ManagedObject) (a b : loc) : Prop :=
  ∃ o, h !! a = Some o ∧ b ∈ references o.

Definition path (h : list ManagedObject) : loc → loc → Prop := rtc (edge h).

Definition reachable_from_roots (h : list ManagedObject) (g : MarkAndSweepGC) (obj : loc) : Prop :=
  ∃ r, r ∈ roots g ∧ path h r obj.

(** Two stores with the same reference lists have the same edges. *)
Definition same_refs (h h' : list ManagedObject) : Prop :=
  ∀ l : loc, references <$> h !! l = references <$> h' !! l.

(** ** Well-formed states *)

(** Every handle the collector or an object holds denotes an object. *)
Definition handles_valid (s : World * MarkAndSweepGC) : Prop :=
  (∀ l, l ∈ all_objects s.2 → l < length (heap s.1)) ∧
  (∀ l, l ∈ roots s.2 → l < length (heap s.1)) ∧
  (∀ l o r, heap s.1 !! l = Some o → r ∈ references o → r < length (heap s.1)).

(** Roots are live, and live objects refer to live objects only. *)
Definition closed (s : World * MarkAndSweepGC) : Prop :=
  roots s.2 ⊆ all_objects s.2 ∧
  (∀ l o r, l ∈ all_objects s.2 → heap s.1 !! l = Some o → r ∈ references o →
            r ∈ all_objects s.2).

(** Nothing has been swept yet: every object of the store is live. *)
Definition all_live (s : World * MarkAndSweepGC) : Prop :=
  ∀ l : loc, l < length (heap s.1) → l ∈ all_objects s.2.

(** ** What one traversal does to the store *)

Definition marked (h : list ManagedObject) (obj : loc) : Prop :=
  read_state h obj = Some MARKED.

#[global] Instance marked_dec (h : list ManagedObject) (obj : loc) : Decision (marked h obj).
Proof. unfold marked. apply _. Defined.

(** The only change is that some objects that were not [MARKED] now are. *)
Definition only_marks (h h' : list ManagedObject) : Prop :=
  Forall2 (λ o o', o' = o ∨ (state o ≠ MARKED ∧ o' = set_state MARKED o)) h h'.

(** The store after [mark] was called on each of [starts] in turn. *)
Record mark_post (starts : list loc) (h h' : list ManagedObject) : Prop := {
  mp_only : only_marks h h';
  mp_starts : ∀ s, s ∈ starts → s < length h → marked h' s;
  mp_sound : ∀ x, ¬ marked h x → marked h' x → ∃ s, s ∈ starts ∧ path h s x;
  mp_closed : ∀ x o r, ¬ marked h x → h' !! x = Some o → state o = MARKED →
                       r ∈ references o → r < length h → marked h' r
}.

(** The members of [all_objects] that the sweep finds [UNMARKED] in store [h],
    in the order of the loop. *)
Definition garbage (h : list ManagedObject) (g : MarkAndSweepGC) : list loc :=
  filter (λ obj, read_state h obj = Some UNMARKED) (iter (all_objects g)).

(** The store in which [mark_phase] starts its traversals. *)
Definition reset (h : list ManagedObject) (g : MarkAndSweepGC) : list ManagedObject :=
  foldl (write_state UNMARKED) h (iter (all_objects g)).

(** The number of objects a traversal can still mark. *)
Definition unmarked_count (h : list ManagedObject) : nat :=
  length (filter (λ o, state o ≠ MARKED) h).

(** [mark] again, with the list of objects it marks, in the order of its
    "Marked:" lines. *)
Fixpoint mark_log (fuel : nat) (s : list ManagedObject * list loc) (obj : loc)
  : option (list ManagedObject * list loc) :=
  match fuel with
  | O => None
  | S fuel' =>
      match s.1 !! obj with
      | None => Some s
      | Some o =>
          if decide (state o = MARKED) then Some s
          else for_each (mark_log fuel') (write_state MARKED s.1 obj, s.2 ++ [obj])
                        (references o)
      end
  end.

(** What a logged traversal appends: objects that were not [MARKED] before and
    are [MARKED] after, each once, and no more of them than the unmarked
    objects it used up. *)
Definition log_post (h : list ManagedObject) (out : list loc)
  (h' : list ManagedObject) (out' : list loc) : Prop :=
  only_marks h h' ∧
  ∃ new, out' = out ++ new ∧ NoDup new ∧
         (∀ x, x ∈ new → ¬ marked h x ∧ marked h' x) ∧
         length new + unmarked_count h' ≤ unmarked_count h.

(** Ids are bounded by the counter and grow along the store. *)
Definition ids_inv (w : World) : Prop :=
  (∀ a, a ∈ ids w → a ≤ _id_counter w) ∧
  (∀ i j a b, ids w !! i = Some a → ids w !! j = Some b → i < j → a < b).

(** ** Paths that stay among live objects *)

(** A reference whose target is a member of [all_objects]. *)
Definition live_edge (h : list ManagedObject) (g : MarkAndSweepGC) (a b : loc) : Prop :=
  edge h a b ∧ b ∈ all_objects g.

(** Reached from a live root along live objects only. *)
Definition reachable_through_live (h : list ManagedObject) (g : MarkAndSweepGC)
  (obj : loc) : Prop :=
  ∃ r, r ∈ roots g ∧ r ∈ all_objects g ∧ rtc (live_edge h g) r obj.

(** ** What one traversal reaches *)

(** An object of the store that is not [MARKED]. *)
Definition white (h : list ManagedObject) (obj : loc) : Prop :=
  ∃ o, h !! obj = Some o ∧ state o ≠ MARKED.

(** A reference to an object that is not [MARKED]. *)
Definition white_edge (h : list ManagedObject) (a b : loc) : Prop :=
  edge h a b ∧ white h b.

(** Reached from [obj] through objects that are not [MARKED], [obj]
    included. *)
Definition white_reachable (h : list ManagedObject) (obj x : loc) : Prop :=
  white h obj ∧ rtc (white_edge h) obj x.

(** ** Printing the object graph *)

(** [x.id], the key the two listings sort by. *)
Definition id_of (h : list ManagedObject) (obj : loc) : nat :=
  from_option id 0 (h !! obj).

(** [sorted(xs, key=lambda x: x.id)].  [sorted] is stable, and so is this
    insertion sort: of two objects with the same key, the one that comes first
    in [xs] comes first in the result. *)
Fixpoint insert_by_id (h : list ManagedObject) (x : loc) (l : list loc) : list loc :=
  match l with
  | [] => [x]
  | y :: l' =>
      if decide (id_of h x ≤ id_of h y) then x :: y :: l'
      else y :: insert_by_id h x l'
  end.

Definition sorted_by_id (h : list ManagedObject) (l : list loc) : list loc :=
  foldr (insert_by_id h) [] l.

(** [sorted(self.all_objects, key=lambda x: x.id)] *)
Definition listing (h : list ManagedObject) (g : MarkAndSweepGC) : list loc :=
  sorted_by_id h (iter (all_objects g)).

(** [ObjectState.value] *)
Definition value (st : ObjectState) : string :=
  match st with
  | UNMARKED => "unmarked"
  | MARKED => "marked"
  | COLLECTED => "collected"
  end.

(** [s * n] *)
Definition repeat_string (s : string) (n : nat) : string :=
  String.concat "" (replicate n s).

(** The line feed that opens some of the printed strings. *)
Definition newline : string := String (Ascii.ascii_of_nat 10) "".

(** The line [print_object_graph] prints for one object. *)
Definition graph_line (h : list ManagedObject) (g : MarkAndSweepGC) (obj : loc) : string :=
  match h !! obj with
  | None => ""
  | Some o =>
      let root_marker := if decide (obj ∈ roots g) then "🌳" else "  " in
      let refs :=
        String.concat ", " ((λ ref, "#" +:+ pretty (id_of h ref)) <$> references o) in
      let refs_str := if decide (refs = "") then "" else " -> [" +:+ refs +:+ "]" in
      "  " +:+ root_marker +:+ " #" +:+ pretty (id o) +:+ ": " +:+ name o
        +:+ " [" +:+ value (state o) +:+ "]" +:+ refs_str
  end.

(** [MarkAndSweepGC.print_object_graph]: the strings it prints, one per
    [print]. *)
Definition print_object_graph (h : list ManagedObject) (g : MarkAndSweepGC) : list string :=
  [newline +:+ "📊 OBJECT GRAPH:"; repeat_string "-" 60] ++
  if decide (all_objects g = ∅) then ["  (empty)"]
  else (graph_line h g <$> listing h g) ++ [repeat_string "-" 60].

(** ["✓" if x.state == ObjectState.MARKED else "✗"] *)
Definition mark_symbol (h : list ManagedObject) (obj : loc) : string :=
  if decide (read_state h obj = Some MARKED) then "✓" else "✗".

(** The lines [print_ascii_visualization] prints for one object: the object,
    then its references. *)
Definition ascii_lines (h : list ManagedObject) (g : MarkAndSweepGC) (obj : loc)
  : list string :=
  match h !! obj with
  | None => []
  | Some o =>
      let root := if decide (obj ∈ roots g) then "🌳" else "  " in
      (root +:+ " [" +:+ mark_symbol h obj +:+ "] Object " +:+ pretty (id o)
         +:+ ": " +:+ name o)
      :: ((λ ref, "       → [" +:+ mark_symbol h ref +:+ "] Object "
                  +:+ pretty (id_of h ref) +:+ ": " +:+ from_option name "" (h !! ref))
          <$> references o)
  end.

(** [print_ascii_visualization] of [visualizer.py]: the strings it prints. *)
Definition print_ascii_visualization (h : list ManagedObject) (g : MarkAndSweepGC)
  (phase : string) : list string :=
  [newline +:+ repeat_string "=" 70; "ASCII VISUALIZATION - " +:+ phase;
   repeat_string "=" 70] ++
  if decide (all_objects g = ∅) then ["(no objects)"]
  else
    [newline +:+ "Legend:"; "  🌳 = Root object"; "  ✓  = Marked (reachable)";
     "  ✗  = Unmarked (garbage)"; "  →  = Reference"; ""] ++
    concat (ascii_lines h g <$> listing h g) ++ [repeat_string "=" 70].

(** ** The visualizer's cycle *)

(** [GCVisualizer.visualize_gc_cycle] as far as the collector is concerned.
    [save_graph] reads the collector and writes an image; it changes neither
    the store nor the collector.  [GRAPHVIZ_AVAILABLE] is set when the module
    is imported. *)
Definition visualize_gc_cycle (GRAPHVIZ_AVAILABLE : bool) (fuel : nat)
  (w : World) (g : MarkAndSweepGC) : option (World * MarkAndSweepGC) :=
  if negb GRAPHVIZ_AVAILABLE then Some (w, g)
  else
    match mark_phase fuel (heap w) g with
    | None => None
    | Some (h1, _) =>
        let '(h2, g1, _) := sweep_phase h1 g in
        Some (mkWorld (_id_counter w) h2, g1)
    end.

End Model.

Arguments ManagedObject : clear implicits.
Arguments World : clear implicits.
Arguments Op : clear implicits.

(** * The interactive shell ([interactive.py]) *)

Section Shell.

Context {order : IterationOrder}.

(** [class GCShell]: the collector and the table [objects] from names to
    objects.  The payload of an object is the optional second word of
    [alloc]. *)
Record GCShell := mkShell {
  gc : MarkAndSweepGC;
  objects : gmap string loc
}.

(** The line a command prints when it ends: its usage, one of the two
    complaints, or its confirmation. *)
Inductive Reply :=
| Usage
| AlreadyExists (nm : string)
| NotFound (nm : string)
| Confirmed.

(** [GCShell.__init__] *)
Definition GCShell_init : GCShell := mkShell GC_init ∅.

(** [do_alloc]; [args] is [shlex.split(arg)]. *)
Definition do_alloc (w : World (option string)) (sh : GCShell) (args : list string)
  : World (option string) * GCShell * Reply :=
  match args with
  | [] => (w, sh, Usage)
  | nm :: rest =>
      let d := head rest in
      if decide (is_Some (objects sh !! nm)) then (w, sh, AlreadyExists nm)
      else
        let '(w', g', obj) := allocate w (gc sh) nm d in
        (w', mkShell g' (<[nm := obj]> (objects sh)), Confirmed)
  end.

(** [do_ref]; [args] is [shlex.split(arg)]. *)
Definition do_ref (w : World (option string)) (sh : GCShell) (args : list string)
  : World (option string) * GCShell * Reply :=
  match args with
  | [from_name; to_name] =>
      match objects sh !! from_name with
      | None => (w, sh, NotFound from_name)
      | Some from_obj =>
          match objects sh !! to_name with
          | None => (w, sh, NotFound to_name)
          | Some to_obj =>
              (mkWorld (_id_counter w) (heap_add_reference (heap w) from_obj to_obj),
               sh, Confirmed)
          end
      end
  | _ => (w, sh, Usage)
  end.

(** [do_unref]; [args] is [shlex.split(arg)]. *)
Definition do_unref (w : World (option string)) (sh : GCShell) (args : list string)
  : World (option string) * GCShell * Reply :=
  match args with
  | [from_name; to_name] =>
      match objects sh !! from_name with
      | None => (w, sh, NotFound from_name)
      | Some from_obj =>
          match objects sh !! to_name with
          | None => (w, sh, NotFound to_name)
          | Some to_obj =>
              (mkWorld (_id_counter w) (heap_remove_reference (heap w) from_obj to_obj),
               sh, Confirmed)
          end
      end
  | _ => (w, sh, Usage)
  end.

(** [do_root]: the whole argument is the name. *)
Definition do_root (w : World (option string)) (sh : GCShell) (arg : string)
  : World (option string) * GCShell * Reply :=
  if decide (arg = "") then (w, sh, Usage)
  else
    match objects sh !! arg with
    | None => (w, sh, NotFound arg)
    | Some obj => (w, mkShell (add_root (gc sh) obj) (objects sh), Confirmed)
    end.

(** [do_unroot] *)
Definition do_unroot (w : World (option string)) (sh : GCShell) (arg : string)
  : World (option string) * GCShell * Reply :=
  if decide (arg = "") then (w, sh, Usage)
  else
    match objects sh !! arg with
    | None => (w, sh, NotFound arg)
    | Some obj => (w, mkShell (remove_root (gc sh) obj) (objects sh), Confirmed)
    end.

(** The names [do_collect] gathers in [collected_names]: those whose object
    is no longer in [all_objects]. *)
Definition collected_names (g : MarkAndSweepGC) (table : gmap string loc) : list string :=
  (filter (λ entry, entry.2 ∉ all_objects g) (map_to_list table)).*1.

(** [do_collect]: a cycle, then the names of the swept objects are deleted
    from the table.  The two visualisations it prints read the collector
    only. *)
Definition do_collect (fuel : nat) (w : World (option string)) (sh : GCShell)
  : option (World (option string) * GCShell * Stats) :=
  match collect fuel w (gc sh) with
  | None => None
  | Some (w', g', stats) =>
      let table := foldl (λ m nm, delete nm m) (objects sh)
                         (collected_names g' (objects sh)) in
      Some (w', mkShell g' table, stats)
  end.

(** [do_clear] *)
Definition do_clear (sh : GCShell) : GCShell := mkShell GC_init ∅.

(** [do_stats] prints the fields of [get_stats]. *)
Definition do_stats (sh : GCShell) : AggregateStats := get_stats (gc sh).

(** The commands that act on their own; [show] and [list] only print. *)
Inductive Cmd :=
| CmdAlloc (args : list string)
| CmdRef (args : list string)
| CmdUnref (args : list string)
| CmdRoot (arg : string)
| CmdUnroot (arg : string)
| CmdCollect
| CmdShow
| CmdList
| CmdStats
| CmdClear.

Definition do_cmd (fuel : nat) (s : World (option string) * GCShell) (c : Cmd)
  : option (World (option string) * GCShell) :=
  let '(w, sh) := s in
  match c with
  | CmdAlloc args => Some (do_alloc w sh args).1
  | CmdRef args => Some (do_ref w sh args).1
  | CmdUnref args => Some (do_unref w sh args).1
  | CmdRoot arg => Some (do_root w sh arg).1
  | CmdUnroot arg => Some (do_unroot w sh arg).1
  | CmdCollect =>
      match do_collect fuel w sh with
      | Some (w', sh', _) => Some (w', sh')
      | None => None
      end
  | CmdShow | CmdList => Some (w, sh)
  | CmdStats => let _ := do_stats sh in Some (w, sh)
  | CmdClear => Some (w, do_clear sh)
  end.

(** Commands one after the other, as [do_tutorial] and the examples issue
    them. *)
Fixpoint do_cmds (fuel : nat) (s : World (option string) * GCShell) (cs : list Cmd)
  : option (World (option string) * GCShell) :=
  match cs with
  | [] => Some s
  | c :: cs' =>
      match do_cmd fuel s c with
      | Some s' => do_cmds fuel s' cs'
      | None => None
      end
  end.

(** [_example_simple], [_example_circular], [_example_tree], [_example_web]:
    the calls each of them makes, in order. *)
Definition _example_simple : list Cmd :=
  [CmdAlloc ["parent"]; CmdAlloc ["child"]; CmdAlloc ["orphan"];
   CmdRef ["parent"; "child"]; CmdRoot "parent"; CmdShow].

Definition _example_circular : list Cmd :=
  [CmdAlloc ["A"]; CmdAlloc ["B"]; CmdAlloc ["C"];
   CmdRef ["A"; "B"]; CmdRef ["B"; "C"]; CmdRef ["C"; "A"]; CmdShow].

Definition _example_tree : list Cmd :=
  [CmdAlloc ["root"]; CmdAlloc ["branch1"]; CmdAlloc ["branch2"];
   CmdAlloc ["leaf1a"]; CmdAlloc ["leaf1b"]; CmdAlloc ["leaf2a"];
   CmdRef ["root"; "branch1"]; CmdRef ["root"; "branch2"];
   CmdRef ["branch1"; "leaf1a"]; CmdRef ["branch1"; "leaf1b"];
   CmdRef ["branch2"; "leaf2a"]; CmdRoot "root"; CmdShow].

Definition _example_web : list Cmd :=
  [CmdAlloc ["app"]; CmdAlloc ["db_pool"]; CmdAlloc ["request1"]; CmdAlloc ["session1"];
   CmdRef ["app"; "db_pool"]; CmdRef ["request1"; "session1"];
   CmdRef ["request1"; "db_pool"]; CmdRoot "app"; CmdRoot "request1"; CmdShow].

(** The dictionary [examples] of [do_example]. *)
Definition examples (arg : string) : option (list Cmd) :=
  if decide (arg = "simple") then Some _example_simple
  else if decide (arg = "circular") then Some _example_circular
  else if decide (arg = "tree") then Some _example_tree
  else if decide (arg = "web") then Some _example_web
  else None.

(** [do_example]: an unknown name prints the list and does nothing; a known
    one clears the shell and loads the example. *)
Definition do_example (fuel : nat) (s : World (option string) * GCShell) (arg : string)
  : option (World (option string) * GCShell) :=
  match examples arg with
  | None => Some s
  | Some cs => do_cmds fuel (s.1, do_clear s.2) cs
  end.

(** [do_tutorial]: the calls it makes between its prompts. *)
Definition do_tutorial (fuel : nat) (s : World (option string) * GCShell)
  : option (World (option string) * GCShell) :=
  do_cmds fuel s
    [CmdAlloc ["root"]; CmdAlloc ["child1"]; CmdAlloc ["child2"]; CmdAlloc ["orphan"];
     CmdRef ["root"; "child1"]; CmdRef ["root"; "child2"]; CmdRoot "root";
     CmdShow; CmdCollect].

(** A line typed at the prompt, once [cmd.Cmd] has found its method. *)
Inductive Line :=
| Command (c : Cmd)
| Example (arg : string)
| Tutorial.

Definition onecmd (fuel : nat) (s : World (option string) * GCShell) (l : Line)
  : option (World (option string) * GCShell) :=
  match l with
  | Command c => do_cmd fuel s c
  | Example arg => do_example fuel s arg
  | Tutorial => do_tutorial fuel s
  end.

(** A session: the lines typed, from first to last. *)
Fixpoint session (fuel : nat) (s : World (option string) * GCShell) (ls : list Line)
  : option (World (option string) * GCShell) :=
  match ls with
  | [] => Some s
  | l :: ls' =>
      match onecmd fuel s l with
      | Some s' => session fuel s' ls'
      | None => None
      end
  end.

(** The shell when it starts in a fresh process. *)
Definition shell_start : World (option string) * GCShell := (mkWorld 0 [], GCShell_init).

(** What the shell maintains: handles are valid, roots and references of live
    objects are live, and the table is a one-to-one naming of the live
    objects by their own names. *)
Record shell_ok (s : World (option string) * GCShell) : Prop := {
  ok_valid : handles_valid (s.1, gc s.2);
  ok_closed : closed (s.1, gc s.2);
  ok_live : ∀ nm l, objects s.2 !! nm = Some l → l ∈ all_objects (gc s.2);
  ok_named : ∀ l, l ∈ all_objects (gc s.2) → ∃ nm, objects s.2 !! nm = Some l;
  ok_inj : ∀ n1 n2 l, objects s.2 !! n1 = Some l → objects s.2 !! n2 = Some l → n1 = n2;
  ok_name : ∀ nm l o, objects s.2 !! nm = Some l → heap s.1 !! l = Some o → name o = nm
}.

(** Some member of [all_objects] was allocated under the name [nm]. *)
Definition carries_name (s : World (option string) * GCShell) (nm : string) : Prop :=
  ∃ l o, l ∈ all_objects (gc s.2) ∧ heap s.1 !! l = Some o ∧ name o = nm.

End Shell.

(** ** Concrete runs

    The payload is [tt]; handles are numbered from 0 in allocation order; sets
    are visited in the order of [elements]. *)

#[local] Instance elements_order : IterationOrder :=
  {| iter := elements; iter_perm := λ X, reflexivity (elements X) |}.

Definition run_state (ops : list (Op unit)) : World unit * MarkAndSweepGC :=
  default init (run 16 init ops).

(** Scenario A: A → B → C, D on its own, A is the only root. *)
Definition scenario_A_ops : list (Op unit) :=
  [Allocate "A" tt; Allocate "B" tt; Allocate "C" tt; Allocate "D" tt;
   AddReference 0 1; AddReference 1 2; AddRoot 0].

Definition scenario_A : World unit * MarkAndSweepGC := run_state scenario_A_ops.

(** Scenario B: the cycle A → B → C → A, no root. *)
Definition scenario_B_ops : list (Op unit) :=
  [Allocate "A" tt; Allocate "B" tt; Allocate "C" tt;
   AddReference 0 1; AddReference 1 2; AddReference 2 0].

Definition scenario_B : World unit * MarkAndSweepGC := run_state scenario_B_ops.

(** [test_web_request_simulation], up to the end of request 1. *)
Definition web_request_ops : list (Op unit) :=
  [Allocate "app" tt; AddRoot 0; Allocate "db_pool" tt; AddReference 0 1;
   Allocate "request1" tt; AddRoot 2; Allocate "session1" tt;
   AddReference 2 3; AddReference 2 1;
   Allocate "request2" tt; AddRoot 4; Allocate "session2" tt;
   AddReference 4 5; AddReference 4 1;
   RemoveRoot 2].

Definition web_request : World unit * MarkAndSweepGC := run_state web_request_ops.

(** What a cycle run on a state reports: [collected_objects] and the members
    of [all_objects] afterwards. *)
Definition cycle_outcome (s : World unit * MarkAndSweepGC) : option (nat * gset loc) :=
  match collect 16 s.1 s.2 with
  | Some (_, g, st) => Some (collected_objects st, all_objects g)
  | None => None
  end.

(** Scenario C: the cycle A → B → C → A with A as root. *)
Definition scenario_C_ops : list (Op unit) :=
  [Allocate "A" tt; Allocate "B" tt; Allocate "C" tt;
   AddReference 0 1; AddReference 1 2; AddReference 2 0; AddRoot 0].

Definition scenario_C : World unit * MarkAndSweepGC := run_state scenario_C_ops.

(** Scenario A, collected once; then A is unrooted and a second cycle runs. *)
Definition after_A_ops : list (Op unit) := scenario_A_ops ++ [Collect].

Definition after_A : World unit * MarkAndSweepGC := run_state after_A_ops.

Definition unroot_ops : list (Op unit) := [RemoveRoot 0; Collect].

Definition after_unroot : World unit * MarkAndSweepGC :=
  run_state (after_A_ops ++ unroot_ops).

(** A is swept; later B is allocated, rooted and kept by a cycle. *)
Definition swept_A_ops : list (Op unit) := [Allocate "A" tt; Collect].




(** An object that refers to object 1 once. *)
Definition one_reference : ManagedObject unit := mkObject 1 "A" tt [1] UNMARKED.

(** A is swept, then made a root. *)
Definition swept_root_ops : list (Op unit) :=
  [Allocate "A" tt; Collect; AddRoot 0].

Definition swept_root : World unit * MarkAndSweepGC := run_state swept_root_ops.

(** A is swept, made a root, and then refers to a new object L. *)
Definition stale_root_ops : list (Op unit) :=
  swept_root_ops ++ [Allocate "L" tt; AddReference 0 1].

Definition stale_root : World unit * MarkAndSweepGC := run_state stale_root_ops.

(** Scenario C, collected once; then A is unrooted. *)
Definition scenario_C_unrooted_ops : list (Op unit) :=
  scenario_C_ops ++ [Collect; RemoveRoot 0].

Definition scenario_C_unrooted : World unit * MarkAndSweepGC :=
  run_state scenario_C_unrooted_ops.

(** A is swept; later R is allocated, rooted, and given a reference to A. *)
Definition stale_reference_ops : list (Op unit) :=
  swept_A_ops ++ [Allocate "R" tt; AddRoot 1; AddReference 1 0].

Definition stale_reference : World unit * MarkAndSweepGC :=
  run_state stale_reference_ops.

(** The members of a set from last to first. *)
Definition reverse_order : IterationOrder :=
  Build_IterationOrder (λ X, reverse (elements X)) (λ X, reverse_Permutation (elements X)).

(** A session: the web example, then request 1 ends and a cycle runs. *)
Definition web_session : list Line :=
  [Example "web"; Command (CmdUnroot "request1"); Command CmdCollect].

Definition web_shell : World (option string) * GCShell :=
  default shell_start (session 16 shell_start web_session).

(** What is typed next: a new object, a clear, the tutorial. *)
Definition later_session : list Line :=
  [Command (CmdAlloc ["x"; "payload"]); Command CmdClear; Tutorial].

Definition later_shell : World (option string) * GCShell :=
  default shell_start (session 16 shell_start (web_session ++ later_session)).

(** Decide a closed proposition by evaluation. *)
Ltac by_evaluation := apply (bool_decide_unpack _); vm_compute; exact I.

(** One call of a guarded run on a concrete state. *)
Ltac guarded_step :=
  split; [first [exact I | by_evaluation]
         | eexists; split; [vm_compute; reflexivity|]].

(** * Properties *)

Section Proofs.

Context {Any : Type} {order : IterationOrder}.

Implicit Types (h : list (ManagedObject Any)) (o : ManagedObject Any).
Implicit Types (w : World Any) (g : MarkAndSweepGC) (ws : World Any * MarkAndSweepGC).
Implicit Types (l x r obj : nat) (ls : list nat).

(** ** The iteration order *)

Lemma elem_of_iter (X : gset nat) x : x ∈ iter X ↔ x ∈ X.
Proof. by rewrite (iter_perm X), elem_of_elements. Qed.

Lemma NoDup_iter (X : gset nat) : NoDup (iter X).
Proof. rewrite (iter_perm X). apply NoDup_elements. Qed.

Lemma length_iter (X : gset nat) : length (iter X) = size X.
Proof. by rewrite (iter_perm X). Qed.

(** ** Reading and writing the state attribute *)

Lemma set_state_state st o : state (set_state st o) = st.
Proof. done. Qed.

Lemma length_write_state st h l : length (write_state st h l) = length h.
Proof. apply length_alter. Qed.

Lemma lookup_write_state st h l x :
  write_state st h l !! x = (if decide (l = x) then set_state st <$> h !! x else h !! x).
Proof.
  unfold write_state. rewrite list_lookup_alter. by case_decide; subst.
Qed.

Lemma read_write_state st h l x :
  read_state (write_state st h l) x
  = if decide (l = x) then (λ _, st) <$> h !! x else read_state h x.
Proof.
  unfold read_state. rewrite lookup_write_state.
  case_decide; [|done]. by destruct (h !! x).
Qed.

Lemma length_foldl_write_state st ls h :
  length (foldl (write_state st) h ls) = length h.
Proof.
  revert h. induction ls as [|l ls IH]; intros h; simpl; [done|].
  by rewrite IH, length_write_state.
Qed.

Lemma lookup_foldl_write_state st ls h x :
  foldl (write_state st) h ls !! x
  = (if decide (x ∈ ls) then set_state st <$> h !! x else h !! x).
Proof.
  revert h. induction ls as [|l ls IH]; intros h.
  - case_decide as Hin; [by apply elem_of_nil in Hin|done].
  - change (foldl (write_state st) h (l :: ls))
      with (foldl (write_state st) (write_state st h l) ls).
    rewrite IH, lookup_write_state.
    destruct (decide (l = x)) as [->|Hne].
    + rewrite (decide_True (P := x ∈ x :: ls)) by (apply elem_of_cons; auto).
      case_decide; [|done]. by destruct (h !! x).
    + destruct (decide (x ∈ ls)).
      * by rewrite decide_True by (apply elem_of_cons; auto).
      * rewrite decide_False; [done|]. by intros [?|?]%elem_of_cons.
Qed.

(** ** [only_marks] *)

Lemma only_marks_refl h : only_marks h h.
Proof. apply Forall_Forall2_diag, Forall_forall. auto. Qed.

Lemma only_marks_trans h1 h2 h3 :
  only_marks h1 h2 → only_marks h2 h3 → only_marks h1 h3.
Proof.
  unfold only_marks. intros H12. revert h3.
  induction H12 as [|o1 o2 t1 t2 Ho _ IH]; intros h3 H23; inversion H23; subst.
  - constructor.
  - constructor; [|by apply IH].
    match goal with H : _ ∨ _ |- _ => destruct H as [->|[Hst ->]] end; [done|].
    destruct Ho as [->|[Hst' ->]]; [by right|]. by rewrite set_state_state in Hst.
Qed.

Lemma only_marks_length h h' : only_marks h h' → length h' = length h.
Proof. intros H. symmetry. by eapply Forall2_length. Qed.

Lemma only_marks_lookup h h' l o :
  only_marks h h' → h !! l = Some o →
  h' !! l = Some o ∨ (state o ≠ MARKED ∧ h' !! l = Some (set_state MARKED o)).
Proof.
  intros H Hl. destruct (Forall2_lookup_l _ _ _ _ _ H Hl) as (o' & Hl' & [->|[? ->]]); auto.
Qed.

Lemma only_marks_lookup_r h h' l o' :
  only_marks h h' → h' !! l = Some o' →
  ∃ o, h !! l = Some o ∧ references o' = references o ∧ id o' = id o ∧
       (state o' = state o ∨ (state o ≠ MARKED ∧ state o' = MARKED)).
Proof.
  intros H Hl. destruct (Forall2_lookup_r _ _ _ _ _ H Hl) as (o & Hl' & [->|[? ->]]);
    exists o; repeat split; auto.
Qed.

Lemma only_marks_marked h h' x : only_marks h h' → marked h x → marked h' x.
Proof.
  unfold marked, read_state. intros H Hm.
  destruct (h !! x) as [o|] eqn:Hx; [|done]. simpl in Hm.
  destruct (only_marks_lookup _ _ _ _ H Hx) as [->|[Hne _]]; [done|].
  congruence.
Qed.

Lemma only_marks_write h l o :
  h !! l = Some o → state o ≠ MARKED → only_marks h (write_state MARKED h l).
Proof.
  intros Hl Hst. apply Forall2_same_length_lookup. split.
  - by rewrite length_write_state.
  - intros i a b Ha Hb. rewrite lookup_write_state, Ha in Hb.
    case_decide; simplify_eq/=; auto.
Qed.

Lemma only_marks_unmarked_count h h' :
  only_marks h h' → unmarked_count h' ≤ unmarked_count h.
Proof.
  unfold unmarked_count. induction 1 as [|o o' t t' Ho _ IH]; [done|].
  rewrite !filter_cons. destruct Ho as [->|[Hst ->]].
  - case_decide; simpl; lia.
  - rewrite (decide_True (P := state o ≠ MARKED)) by done.
    rewrite decide_False by (rewrite set_state_state; auto). simpl. lia.
Qed.

Lemma write_marked_unmarked_count h l o :
  h !! l = Some o → state o ≠ MARKED →
  unmarked_count (write_state MARKED h l) < unmarked_count h.
Proof.
  unfold unmarked_count, write_state. revert l.
  induction h as [|a h IH]; intros [|l] Hl Hst; simplify_eq/=.
  - rewrite !filter_cons. rewrite (decide_True (P := state o ≠ MARKED)) by done.
    rewrite decide_False by (rewrite set_state_state; auto). simpl. lia.
  - specialize (IH l Hl Hst). rewrite !filter_cons. case_decide; simpl; lia.
Qed.

Lemma unmarked_count_le_length h : unmarked_count h ≤ length h.
Proof. apply length_filter. Qed.

(** ** Edges only depend on the reference lists *)

Lemma same_refs_trans h1 h2 h3 : same_refs h1 h2 → same_refs h2 h3 → same_refs h1 h3.
Proof. intros H1 H2 l. by rewrite H1. Qed.

Lemma same_refs_sym h1 h2 : same_refs h1 h2 → same_refs h2 h1.
Proof. intros H l. by rewrite H. Qed.

Lemma same_refs_edge h h' a b : same_refs h h' → edge h a b → edge h' a b.
Proof.
  intros H (o & Ha & Hb). specialize (H a). rewrite Ha in H.
  destruct (h' !! a) as [o'|] eqn:Ha'; simplify_eq/=.
  exists o'. split; [done|]. congruence.
Qed.

Lemma same_refs_path h h' a b : same_refs h h' → path h a b → path h' a b.
Proof.
  intros H. apply rtc_subrel. intros ??. by apply same_refs_edge.
Qed.

Lemma same_refs_foldl_write_state st ls h : same_refs h (foldl (write_state st) h ls).
Proof.
  intros x. rewrite lookup_foldl_write_state. case_decide; [|done]. by destruct (h !! x).
Qed.

Lemma only_marks_same_refs h h' : only_marks h h' → same_refs h h'.
Proof.
  intros H l. destruct (h !! l) as [o|] eqn:Hl.
  - destruct (only_marks_lookup _ _ _ _ H Hl) as [->|[_ ->]]; done.
  - apply lookup_ge_None in Hl. rewrite <- (only_marks_length _ _ H) in Hl.
    apply lookup_ge_None in Hl. by rewrite Hl.
Qed.

(** ** One traversal: what [mark] leaves behind *)


Lemma mark_post_skip starts h :
  (∀ s, s ∈ starts → s < length h → marked h s) → mark_post starts h h.
Proof.
  intros Hs. split; [apply only_marks_refl|done|by intros x ??|].
  intros x o r Hx Hl Hst _ _. destruct Hx.
  unfold marked, read_state. rewrite Hl. simpl. by f_equal.
Qed.

Lemma mark_post_app ls1 ls2 h h1 h2 :
  mark_post ls1 h h1 → mark_post ls2 h1 h2 → mark_post (ls1 ++ ls2) h h2.
Proof.
  intros [O1 S1 R1 C1] [O2 S2 R2 C2].
  pose proof (only_marks_length _ _ O1) as Hlen.
  split.
  - by eapply only_marks_trans.
  - intros s [Hs|Hs]%elem_of_app Hlt.
    + eapply only_marks_marked; [done|]. by apply S1.
    + apply S2; [done|lia].
  - intros x Hx Hx2. destruct (marked_dec h1 x) as [Hx1|Hx1].
    + destruct (R1 x Hx Hx1) as (s & Hs & Hp). exists s. split; [|done].
      apply elem_of_app; auto.
    + destruct (R2 x Hx1 Hx2) as (s & Hs & Hp). exists s. split.
      * apply elem_of_app; auto.
      * eapply same_refs_path; [|done]. by apply same_refs_sym, only_marks_same_refs.
  - intros x o r Hx Hl Hst Hr Hlt. destruct (marked_dec h1 x) as [Hx1|Hx1].
    + destruct (only_marks_lookup_r _ _ _ _ O2 Hl) as (o1 & Hl1 & Hrefs & _ & Hs).
      assert (state o1 = MARKED) as Hst1.
      { unfold marked, read_state in Hx1. rewrite Hl1 in Hx1. by simplify_eq/=. }
      eapply only_marks_marked; [done|].
      eapply (C1 x o1 r); eauto. congruence.
    + eapply (C2 x o r); eauto. lia.
Qed.

Lemma for_each_mark_post (f : list (ManagedObject Any) → nat → option (list (ManagedObject Any))) :
  (∀ h obj h', f h obj = Some h' → mark_post [obj] h h') →
  ∀ ls h h', for_each f h ls = Some h' → mark_post ls h h'.
Proof.
  intros Hf. induction ls as [|l ls IH]; intros h h' Hrun; simpl in Hrun.
  - simplify_eq. apply mark_post_skip. by intros s Hs%elem_of_nil.
  - destruct (f h l) as [h1|] eqn:Hl; [|done].
    apply (mark_post_app [l] ls h h1 h'); eauto.
Qed.

Lemma mark_correct fuel h obj h' :
  mark fuel h obj = Some h' → mark_post [obj] h h'.
Proof.
  revert h obj h'. induction fuel as [|fuel IH]; intros h obj h' Hm; [done|].
  simpl in Hm. destruct (h !! obj) as [o|] eqn:Hobj.
  2:{ simplify_eq. apply mark_post_skip. intros s ->%list_elem_of_singleton Hlt.
      apply lookup_ge_None in Hobj. lia. }
  case_decide as Hst.
  { simplify_eq. apply mark_post_skip. intros s ->%list_elem_of_singleton _.
    unfold marked, read_state. by rewrite Hobj; simpl; f_equal. }
  set (h1 := write_state MARKED h obj) in *.
  pose proof (for_each_mark_post (mark fuel) (IH) _ _ _ Hm) as [O S R C].
  pose proof (only_marks_write _ _ _ Hobj Hst) as O1. fold h1 in O1.
  assert (length h1 = length h) as Hlen by apply length_write_state.
  assert (h1 !! obj = Some (set_state MARKED o)) as Hobj1.
  { unfold h1. rewrite lookup_write_state, decide_True, Hobj by done. done. }
  assert (marked h' obj) as Hmo.
  { eapply only_marks_marked; [done|]. unfold marked, read_state. by rewrite Hobj1. }
  assert (∀ x, x ≠ obj → ¬ marked h x → ¬ marked h1 x) as Hother.
  { intros x Hne Hx. unfold marked, h1. by rewrite read_write_state, decide_False. }
  split.
  - by eapply only_marks_trans.
  - by intros s ->%list_elem_of_singleton _.
  - intros x Hx Hx'. exists obj. split; [by apply list_elem_of_singleton|].
    destruct (decide (x = obj)) as [->|Hne]; [done|].
    destruct (R x (Hother x Hne Hx) Hx') as (s & Hs & Hp).
    eapply rtc_l; [by exists o|].
    eapply same_refs_path; [|done]. by apply same_refs_sym, only_marks_same_refs.
  - intros x o' r Hx Hl Hst' Hr Hlt.
    destruct (decide (x = obj)) as [->|Hne].
    + destruct (only_marks_lookup_r _ _ _ _ O Hl) as (o1 & Hl1 & Hrefs & _).
      rewrite Hobj1 in Hl1. simplify_eq. apply S; [|lia].
      by rewrite Hrefs in Hr.
    + eapply (C x o' r); eauto. lia.
Qed.

(** ** Termination: a stack deeper than the number of unmarked objects is
    enough *)

Lemma for_each_mark_total (f : list (ManagedObject Any) → nat → option (list (ManagedObject Any))) n :
  (∀ h obj, unmarked_count h < n → ∃ h', f h obj = Some h' ∧ only_marks h h') →
  ∀ ls h, unmarked_count h < n → ∃ h', for_each f h ls = Some h' ∧ only_marks h h'.
Proof.
  intros Hf. induction ls as [|l ls IH]; intros h Hn; simpl.
  - exists h. split; [done|apply only_marks_refl].
  - destruct (Hf h l Hn) as (h1 & -> & O1).
    destruct (IH h1) as (h2 & -> & O2).
    { pose proof (only_marks_unmarked_count _ _ O1). lia. }
    exists h2. split; [done|]. by eapply only_marks_trans.
Qed.

Lemma mark_total fuel h obj :
  unmarked_count h < fuel → ∃ h', mark fuel h obj = Some h' ∧ only_marks h h'.
Proof.
  revert h obj. induction fuel as [|fuel IH]; intros h obj Hn; [lia|].
  simpl. destruct (h !! obj) as [o|] eqn:Hobj.
  2:{ exists h. split; [done|apply only_marks_refl]. }
  case_decide as Hst.
  { exists h. split; [done|apply only_marks_refl]. }
  pose proof (write_marked_unmarked_count _ _ _ Hobj Hst) as Hlt.
  destruct (for_each_mark_total (mark fuel) fuel IH (references o)
              (write_state MARKED h obj)) as (h' & Hrun & O); [lia|].
  exists h'. split; [done|].
  eapply only_marks_trans; [|done]. by eapply only_marks_write.
Qed.

Lemma for_each_mono {S A} (f f' : S → A → option S) :
  (∀ (s : S) (a : A) s', f s a = Some s' → f' s a = Some s') →
  ∀ (t : list A) (s s' : S), for_each f s t = Some s' → for_each f' s t = Some s'.
Proof.
  intros Hf. induction t as [|a t IH]; intros s s' Hrun; simpl in *; [done|].
  destruct (f s a) as [s1|] eqn:Ha; [|done].
  rewrite (Hf _ _ _ Ha). by apply IH.
Qed.

Lemma mark_fuel_mono fuel fuel' h obj h' :
  mark fuel h obj = Some h' → fuel ≤ fuel' → mark fuel' h obj = Some h'.
Proof.
  revert fuel' h obj h'. induction fuel as [|fuel IH]; intros fuel' h obj h' Hm Hle; [done|].
  destruct fuel' as [|fuel']; [lia|]. simpl in *.
  destruct (h !! obj) as [o|]; [|done]. case_decide; [done|].
  eapply for_each_mono; [|done]. intros ????. eapply IH; [done|lia].
Qed.

(** ** The loops of [mark_phase] and [sweep_phase] in closed form *)

Lemma foldl_count (P : nat → Prop) `{!∀ a, Decision (P a)} ls (n : nat) :
  foldl (λ n obj, if decide (P obj) then n + 1 else n) n ls = n + length (filter P ls).
Proof.
  revert n. induction ls as [|l ls IH]; intros n; simpl; [lia|].
  rewrite IH, filter_cons. case_decide; simpl; lia.
Qed.

Lemma filter_ext_in (P Q : nat → Prop) `{!∀ a, Decision (P a), !∀ a, Decision (Q a)} ls :
  (∀ a, a ∈ ls → P a ↔ Q a) → filter P ls = filter Q ls.
Proof.
  induction ls as [|l ls IH]; intros HPQ; [done|].
  rewrite !filter_cons, IH by (intros a Ha; apply HPQ, elem_of_cons; auto).
  pose proof (HPQ l ltac:(apply elem_of_cons; auto)).
  repeat case_decide; tauto.
Qed.

Lemma foldl_sweep_step h (acc : list nat) ls :
  NoDup ls →
  foldl sweep_step (h, acc) ls
  = (foldl (write_state COLLECTED) h (filter (λ obj, read_state h obj = Some UNMARKED) ls),
     acc ++ filter (λ obj, read_state h obj = Some UNMARKED) ls).
Proof.
  intros Hnd. revert h acc. induction Hnd as [|l ls Hl Hnd IH]; intros h acc; simpl.
  - by rewrite app_nil_r.
  - rewrite filter_cons. unfold sweep_step at 2. simpl.
    case_decide as Hst.
    + rewrite IH. simpl.
      assert (filter (λ obj, read_state (write_state COLLECTED h l) obj = Some UNMARKED) ls
              = filter (λ obj, read_state h obj = Some UNMARKED) ls) as ->.
      { apply filter_ext_in. intros x Hx.
        rewrite read_write_state, decide_False; [done|]. by intros ->. }
      by rewrite <- app_assoc.
    + by rewrite IH.
Qed.

Lemma foldl_difference (X : gset nat) ls :
  foldl (λ s obj, s ∖ {[obj]}) X ls = X ∖ list_to_set ls.
Proof.
  revert X. induction ls as [|l ls IH]; intros X; simpl.
  - set_solver.
  - rewrite IH. set_solver.
Qed.

Lemma mark_phase_eq fuel h g :
  mark_phase fuel h g
  = (λ h2, (h2, length (filter (marked h2) (iter (all_objects g)))))
      <$> for_each (mark fuel) (reset h g) (iter (roots g)).
Proof.
  unfold mark_phase. fold (reset h g).
  destruct (for_each _ _ _) as [h2|]; [|done]. simpl.
  by rewrite foldl_count.
Qed.

Lemma sweep_phase_eq h g :
  sweep_phase h g
  = (foldl (write_state COLLECTED) h (garbage h g),
     mkGC (all_objects g ∖ list_to_set (garbage h g)) (roots g)
          (collected_count g + length (garbage h g)) (collection_history g),
     length (garbage h g)).
Proof.
  unfold sweep_phase. rewrite foldl_sweep_step by apply NoDup_iter.
  simpl. by rewrite foldl_difference.
Qed.

Lemma collect_eq fuel w g :
  collect fuel w g
  = match for_each (mark fuel) (reset (heap w) g) (iter (roots g)) with
    | None => None
    | Some h2 =>
        let stats :=
          mkStats (size (all_objects g))
                  (length (filter (marked h2) (iter (all_objects g))))
                  (length (garbage h2 g))
                  (size (all_objects g ∖ list_to_set (garbage h2 g)))
                  (size (roots g)) in
        Some (mkWorld (_id_counter w) (foldl (write_state COLLECTED) h2 (garbage h2 g)),
              mkGC (all_objects g ∖ list_to_set (garbage h2 g)) (roots g)
                   (collected_count g + length (garbage h2 g))
                   (collection_history g ++ [stats]),
              stats)
    end.
Proof.
  unfold collect. rewrite mark_phase_eq.
  destruct (for_each _ _ _) as [h2|]; [|done]. simpl.
  by rewrite sweep_phase_eq.
Qed.

(** ** The store and the live set around one cycle *)

Lemma lookup_reset h g x :
  reset h g !! x
  = if decide (x ∈ all_objects g) then set_state UNMARKED <$> h !! x else h !! x.
Proof.
  unfold reset. rewrite lookup_foldl_write_state.
  destruct (decide (x ∈ all_objects g)) as [Hx|Hx].
  - by rewrite decide_True by (by apply elem_of_iter).
  - by rewrite decide_False by (by rewrite elem_of_iter).
Qed.

Lemma length_reset h g : length (reset h g) = length h.
Proof. apply length_foldl_write_state. Qed.

Lemma same_refs_reset h g : same_refs h (reset h g).
Proof. apply same_refs_foldl_write_state. Qed.

Lemma reset_member_unmarked h g x :
  x ∈ all_objects g → x < length h → read_state (reset h g) x = Some UNMARKED.
Proof.
  intros Hx Hlt. unfold read_state. rewrite lookup_reset, decide_True by done.
  apply lookup_lt_is_Some in Hlt as [o ->]. done.
Qed.

Lemma reset_member_not_marked h g x : x ∈ all_objects g → ¬ marked (reset h g) x.
Proof.
  intros Hx. unfold marked, read_state. rewrite lookup_reset, decide_True by done.
  by destruct (h !! x).
Qed.

Lemma elem_of_garbage h g x :
  x ∈ garbage h g ↔ x ∈ all_objects g ∧ read_state h x = Some UNMARKED.
Proof.
  unfold garbage. rewrite list_elem_of_filter, elem_of_iter. tauto.
Qed.

Lemma NoDup_garbage h g : NoDup (garbage h g).
Proof. apply NoDup_filter, NoDup_iter. Qed.

Lemma elem_of_survivors h g x :
  x ∈ all_objects g ∖ list_to_set (garbage h g)
  ↔ x ∈ all_objects g ∧ read_state h x ≠ Some UNMARKED.
Proof.
  rewrite elem_of_difference, elem_of_list_to_set, elem_of_garbage. tauto.
Qed.

Lemma size_survivors h g :
  size (all_objects g ∖ list_to_set (garbage h g))
  = size (all_objects g) - length (garbage h g).
Proof.
  rewrite size_difference.
  - by rewrite size_list_to_set by apply NoDup_garbage.
  - intros x Hx%elem_of_list_to_set%elem_of_garbage. tauto.
Qed.

Lemma length_garbage_le h g : length (garbage h g) ≤ size (all_objects g).
Proof. rewrite <- length_iter. apply length_filter. Qed.

Lemma filter_partition_length (P Q : nat → Prop)
    `{!∀ a, Decision (P a), !∀ a, Decision (Q a)} ls :
  (∀ a, a ∈ ls → (P a ∨ Q a) ∧ ¬ (P a ∧ Q a)) →
  length (filter P ls) + length (filter Q ls) = length ls.
Proof.
  induction ls as [|l ls IH]; intros HPQ; [done|].
  rewrite !filter_cons.
  pose proof (HPQ l ltac:(apply elem_of_cons; auto)).
  specialize (IH (λ a Ha, HPQ a ltac:(apply elem_of_cons; auto))).
  repeat case_decide; simpl; try lia; tauto.
Qed.

(** After the mark phase a live object is [MARKED] or [UNMARKED]. *)
Lemma member_state_after_mark h g h2 x :
  only_marks (reset h g) h2 → x ∈ all_objects g → x < length h →
  read_state h2 x = Some UNMARKED ∨ read_state h2 x = Some MARKED.
Proof.
  intros O Hx Hlt. pose proof (reset_member_unmarked h g x Hx Hlt) as Hr.
  unfold read_state in *. destruct (reset h g !! x) as [o|] eqn:Ho; simplify_eq/=.
  destruct (only_marks_lookup _ _ _ _ O Ho) as [->|[_ ->]]; simpl; [left|right]; congruence.
Qed.

Lemma mark_roots_total fuel h ls :
  length h < fuel →
  ∃ h2, for_each (mark fuel) h ls = Some h2 ∧ mark_post ls h h2.
Proof.
  intros Hlt.
  destruct (for_each_mark_total (mark fuel) fuel (mark_total fuel) ls h) as (h2 & Hrun & _).
  { pose proof (unmarked_count_le_length h). lia. }
  exists h2. split; [done|].
  eapply for_each_mark_post; [|done]. apply mark_correct.
Qed.

Lemma collect_total fuel w g :
  length (heap w) < fuel → is_Some (collect fuel w g).
Proof.
  intros Hlt. rewrite collect_eq.
  destruct (mark_roots_total fuel (reset (heap w) g) (iter (roots g))) as (h2 & -> & _).
  { by rewrite length_reset. }
  by eexists.
Qed.

(** What [collect] returns, with the store [h2] that its mark phase left. *)
Lemma collect_inv fuel w g w' g' st :
  collect fuel w g = Some (w', g', st) →
  ∃ h2,
    mark_phase fuel (heap w) g
      = Some (h2, length (filter (marked h2) (iter (all_objects g)))) ∧
    mark_post (iter (roots g)) (reset (heap w) g) h2 ∧
    _id_counter w' = _id_counter w ∧
    heap w' = foldl (write_state COLLECTED) h2 (garbage h2 g) ∧
    all_objects g' = all_objects g ∖ list_to_set (garbage h2 g) ∧
    roots g' = roots g ∧
    collected_count g' = collected_count g + length (garbage h2 g) ∧
    collection_history g' = collection_history g ++ [st] ∧
    st = mkStats (size (all_objects g))
                 (length (filter (marked h2) (iter (all_objects g))))
                 (length (garbage h2 g))
                 (size (all_objects g'))
                 (size (roots g)).
Proof.
  rewrite collect_eq, mark_phase_eq.
  destruct (for_each _ _ _) as [h2|] eqn:Hrun; [|done].
  intros [= <- <- <-]. exists h2. simpl. split; [done|]. split.
  { eapply for_each_mark_post; [|done]. apply mark_correct. }
  repeat split; done.
Qed.

Lemma collect_length fuel w g w' g' st :
  collect fuel w g = Some (w', g', st) → length (heap w') = length (heap w).
Proof.
  intros (h2 & _ & [O _ _ _] & _ & -> & _)%collect_inv.
  by rewrite length_foldl_write_state, (only_marks_length _ _ O), length_reset.
Qed.

Lemma collect_same_refs fuel w g w' g' st :
  collect fuel w g = Some (w', g', st) → same_refs (heap w) (heap w').
Proof.
  intros (h2 & _ & [O _ _ _] & _ & -> & _)%collect_inv.
  eapply same_refs_trans; [apply same_refs_reset|].
  eapply same_refs_trans; [by apply only_marks_same_refs|].
  apply same_refs_foldl_write_state.
Qed.

(** ** Reachability: what a cycle keeps when the live set is closed *)

Lemma closed_path w g r x :
  closed (w, g) → r ∈ all_objects g → path (heap w) r x → x ∈ all_objects g.
Proof.
  intros [_ Hc] Hr Hp. induction Hp as [|a b c (o & Ha & Hb) _ IH]; [done|].
  apply IH. eapply Hc; eauto.
Qed.

Lemma marked_lookup h x : marked h x ↔ ∃ o, h !! x = Some o ∧ state o = MARKED.
Proof.
  unfold marked, read_state. destruct (h !! x) as [o|]; simpl; split.
  - intros [= ?]. eauto.
  - intros (? & [= <-] & ->). done.
  - done.
  - by intros (? & ? & _).
Qed.

Lemma lookup_swept h2 g x :
  foldl (write_state COLLECTED) h2 (garbage h2 g) !! x
  = if decide (x ∈ all_objects g ∧ read_state h2 x = Some UNMARKED)
    then set_state COLLECTED <$> h2 !! x else h2 !! x.
Proof.
  rewrite lookup_foldl_write_state.
  destruct (decide (x ∈ garbage h2 g)) as [Hx|Hx]; rewrite elem_of_garbage in Hx.
  - by rewrite decide_True.
  - by rewrite decide_False.
Qed.

Lemma collect_reachability fuel w g w' g' st :
  (∀ l, l ∈ all_objects g → l < length (heap w)) →
  closed (w, g) →
  collect fuel w g = Some (w', g', st) →
  ∃ h2 n,
    mark_phase fuel (heap w) g = Some (h2, n) ∧
    (∀ x, x ∈ all_objects g' ↔ reachable_from_roots (heap w) g x) ∧
    (∀ x, x ∈ all_objects g' → read_state (heap w') x = Some MARKED) ∧
    (∀ x, x ∈ all_objects g → x ∉ all_objects g' →
          read_state h2 x = Some UNMARKED ∧ read_state (heap w') x = Some COLLECTED) ∧
    (∀ x, x ∉ all_objects g → heap w' !! x = heap w !! x).
Proof.
  intros Hvalid Hclosed Hc.
  destruct (collect_inv _ _ _ _ _ _ Hc)
    as (h2 & Hmp & [O S R C] & _ & Hheap & Hall & _).
  set (h1 := reset (heap w) g) in *.
  assert (length h1 = length (heap w)) as Hlen1 by apply length_reset.
  assert (same_refs (heap w) h2) as Hrefs.
  { eapply same_refs_trans; [apply same_refs_reset|]. by apply only_marks_same_refs. }
  assert (∀ x, x ∈ all_objects g → marked h2 x ∨ read_state h2 x = Some UNMARKED) as Hmember.
  { intros x Hx. destruct (member_state_after_mark (heap w) g h2 x); auto. }
  assert (∀ x, x ∈ all_objects g' ↔ x ∈ all_objects g ∧ marked h2 x) as Hsurv.
  { intros x. rewrite Hall, elem_of_survivors. split.
    - intros [Hx Hne]. split; [done|]. by destruct (Hmember x Hx).
    - intros [Hx Hm]. split; [done|]. unfold marked in Hm. congruence. }
  exists h2. eexists. split; [exact Hmp|].
  split; [intros x; split|split; [|split; [intros x Hx Hnx; split|]]].
  - intros (Hx & Hm)%Hsurv.
    destruct (R x (reset_member_not_marked _ _ _ Hx) Hm) as (r & Hr%elem_of_iter & Hp).
    exists r. split; [done|].
    eapply same_refs_path; [|done]. apply same_refs_sym, same_refs_reset.
  - intros (r & Hr & Hp). apply Hsurv. revert x Hp.
    apply (rtc_ind_r (λ x, x ∈ all_objects g ∧ marked h2 x)).
    + assert (r ∈ all_objects g) as Hra by (by apply Hclosed).
      split; [done|]. apply S; [by apply elem_of_iter|].
      rewrite Hlen1. by apply Hvalid.
    + intros a b _ (o & Ha & Hb) [Haa Hma].
      assert (b ∈ all_objects g) as Hba by (eapply (proj2 Hclosed); eauto).
      split; [done|].
      apply marked_lookup in Hma as (o2 & Ha2 & Hst2).
      pose proof (Hrefs a) as Hra. rewrite Ha, Ha2 in Hra. simplify_eq/=.
      eapply (C a o2 b); eauto.
      * by apply reset_member_not_marked.
      * congruence.
      * rewrite Hlen1. by apply Hvalid.
  - intros x (Hx & Hm)%Hsurv. unfold read_state.
    rewrite Hheap, lookup_swept, decide_False; [done|].
    unfold marked in Hm. intros [_ ?]. congruence.
  - destruct (Hmember x Hx) as [Hm|Hu]; [|done].
    destruct Hnx. by apply Hsurv.
  - destruct (Hmember x Hx) as [Hm|Hu]; [destruct Hnx; by apply Hsurv|].
    unfold read_state in *. rewrite Hheap, lookup_swept, decide_True by done.
    by destruct (h2 !! x).
  - intros x Hx. rewrite Hheap, lookup_swept, decide_False by tauto.
    assert (heap w !! x = h1 !! x) as ->.
    { unfold h1. by rewrite lookup_reset, decide_False. }
    destruct (h1 !! x) as [o|] eqn:Ho.
    + destruct (only_marks_lookup _ _ _ _ O Ho) as [->|[Hst Ho2]]; [done|].
      destruct (R x) as (r & Hr%elem_of_iter & Hp).
      { rewrite marked_lookup. intros (? & ? & ?). congruence. }
      { rewrite marked_lookup. eauto. }
      destruct Hx. eapply closed_path; [done|by apply Hclosed|].
      eapply same_refs_path; [|done]. apply same_refs_sym, same_refs_reset.
    + apply lookup_ge_None. rewrite (only_marks_length _ _ O). by apply lookup_ge_None.
Qed.

(** ** Reference lists under [add_reference] and [remove_reference] *)

Lemma elem_of_list_remove r obj ls : r ∈ list_remove obj ls → r ∈ ls.
Proof.
  induction ls as [|l ls IH]; simpl; [done|].
  case_decide; rewrite !elem_of_cons; [auto|]. intros [?|?]; auto.
Qed.

Lemma NoDup_list_remove obj ls : NoDup ls → NoDup (list_remove obj ls).
Proof.
  induction 1 as [|l ls Hl Hnd IH]; simpl; [constructor|].
  case_decide; [done|]. constructor; [|done].
  intros ?%elem_of_list_remove. done.
Qed.

Lemma elem_of_add_reference o obj r :
  r ∈ references (add_reference o obj) ↔ r ∈ references o ∨ r = obj.
Proof.
  unfold add_reference. case_decide as Hin; simpl.
  - rewrite elem_of_app, list_elem_of_singleton. tauto.
  - split; [auto|]. by intros [?| ->].
Qed.

Lemma elem_of_remove_reference o obj r :
  r ∈ references (remove_reference o obj) → r ∈ references o.
Proof.
  unfold remove_reference. case_decide; simpl; [|done]. apply elem_of_list_remove.
Qed.

Lemma lookup_heap_add_reference h self obj x :
  heap_add_reference h self obj !! x
  = if decide (self = x) then (λ o, add_reference o obj) <$> h !! x else h !! x.
Proof.
  unfold heap_add_reference. rewrite list_lookup_alter. by case_decide; subst.
Qed.

Lemma lookup_heap_remove_reference h self obj x :
  heap_remove_reference h self obj !! x
  = if decide (self = x) then (λ o, remove_reference o obj) <$> h !! x else h !! x.
Proof.
  unfold heap_remove_reference. rewrite list_lookup_alter. by case_decide; subst.
Qed.

(** ** Invariants of the public operations *)

(** What one call does, operation by operation. *)
Lemma exec_cases fuel w g op w' g' :
  exec fuel (w, g) op = Some (w', g') →
  match op with
  | Allocate nm d =>
      w' = mkWorld (S (_id_counter w))
                   (heap w ++ [mkObject (S (_id_counter w)) nm d [] UNMARKED]) ∧
      g' = mkGC (all_objects g ∪ {[length (heap w)]}) (roots g)
                (collected_count g) (collection_history g)
  | AddReference self obj =>
      self < length (heap w) ∧ obj < length (heap w) ∧
      w' = mkWorld (_id_counter w) (heap_add_reference (heap w) self obj) ∧ g' = g
  | RemoveReference self obj =>
      self < length (heap w) ∧ obj < length (heap w) ∧
      w' = mkWorld (_id_counter w) (heap_remove_reference (heap w) self obj) ∧ g' = g
  | AddRoot obj => obj < length (heap w) ∧ w' = w ∧ g' = add_root g obj
  | RemoveRoot obj => obj < length (heap w) ∧ w' = w ∧ g' = remove_root g obj
  | Collect => ∃ st, collect fuel w g = Some (w', g', st)
  | GetStats => w' = w ∧ g' = g
  end.
Proof.
  destruct op; simpl; unfold denotes.
  - by intros [= <- <-].
  - case_decide as Hd; [|done]. intros [= <- <-]. tauto.
  - case_decide as Hd; [|done]. intros [= <- <-]. tauto.
  - case_decide as Hd; [|done]. by intros [= <- <-].
  - case_decide as Hd; [|done]. by intros [= <- <-].
  - destruct (collect fuel w g) as [[[w1 g1] st]|]; [|done]. intros [= <- <-]. eauto.
  - by intros [= <- <-].
Qed.

Lemma run_inv (P : World Any * MarkAndSweepGC → Prop) fuel :
  (∀ ws op ws', P ws → exec fuel ws op = Some ws' → P ws') →
  ∀ ops ws ws', P ws → run fuel ws ops = Some ws' → P ws'.
Proof.
  intros Hstep. induction ops as [|op ops IH]; intros ws ws' HP Hrun; simpl in Hrun.
  - by simplify_eq.
  - destruct (exec fuel ws op) as [ws1|] eqn:Hop; [|done]. eauto.
Qed.

Lemma exec_handles_valid fuel ws op ws' :
  handles_valid ws → exec fuel ws op = Some ws' → handles_valid ws'.
Proof.
  destruct ws as [w g], ws' as [w' g']. intros (Ha & Hr & Hrefs) Hop.
  apply exec_cases in Hop. simpl in *. destruct op.
  - destruct Hop as [-> ->]. unfold handles_valid. simpl. rewrite length_app. simpl.
    split; [|split].
    + intros l [Hl| ->%elem_of_singleton]%elem_of_union; [apply Ha in Hl|]; lia.
    + intros l Hl%Hr. lia.
    + intros l o r [[_ Hl]|[_ <-]]%lookup_snoc_Some Hin.
      * pose proof (Hrefs _ _ _ Hl Hin). lia.
      * by apply elem_of_nil in Hin.
  - destruct Hop as (Hs & Ho & -> & ->). unfold handles_valid, heap_add_reference. simpl.
    rewrite length_alter. split; [done|]. split; [done|].
    intros l o r Hl Hin. fold (heap_add_reference (heap w) self obj) in Hl.
    rewrite lookup_heap_add_reference in Hl. case_decide; [|by eauto].
    destruct (heap w !! l) as [o0|] eqn:Hl0; simplify_eq/=.
    apply elem_of_add_reference in Hin as [Hin| ->]; eauto.
  - destruct Hop as (Hs & Ho & -> & ->). unfold handles_valid, heap_remove_reference. simpl.
    rewrite length_alter. split; [done|]. split; [done|].
    intros l o r Hl Hin. fold (heap_remove_reference (heap w) self obj) in Hl.
    rewrite lookup_heap_remove_reference in Hl. case_decide; [|by eauto].
    destruct (heap w !! l) as [o0|] eqn:Hl0; simplify_eq/=.
    apply elem_of_remove_reference in Hin. eauto.
  - destruct Hop as (Ho & -> & ->). unfold handles_valid. simpl.
    split; [done|]. split; [|done].
    intros l [Hl| ->%elem_of_singleton]%elem_of_union; auto.
  - destruct Hop as (Ho & -> & ->). unfold handles_valid, remove_root.
    case_decide; simpl; [|done]. split; [done|]. split; [|done].
    intros l [Hl _]%elem_of_difference. auto.
  - destruct Hop as [st Hc].
    pose proof (collect_length _ _ _ _ _ _ Hc) as Hlen.
    pose proof (collect_same_refs _ _ _ _ _ _ Hc) as Hsame.
    destruct (collect_inv _ _ _ _ _ _ Hc) as (h2 & _ & _ & _ & _ & Hall & Hroots & _).
    unfold handles_valid. simpl. rewrite Hlen, Hall, Hroots.
    split; [|split; [done|]].
    + intros l [Hl _]%elem_of_difference. auto.
    + intros l o r Hl Hin. specialize (Hsame l). rewrite Hl in Hsame.
      destruct (heap w !! l) as [o0|] eqn:Hl0; simplify_eq/=.
      eapply Hrefs; [done|]. congruence.
  - by destruct Hop as [-> ->].
Qed.

Lemma exec_closed fuel ws op ws' :
  handles_valid ws → closed ws → live_op ws op →
  exec fuel ws op = Some ws' → closed ws'.
Proof.
  destruct ws as [w g], ws' as [w' g']. intros (Ha & _ & _) Hclosed Hlive Hop.
  pose proof Hclosed as [Hroots Hrefs].
  apply exec_cases in Hop. simpl in *. destruct op.
  - destruct Hop as [-> ->]. split; simpl.
    + intros r Hr. apply elem_of_union. auto.
    + intros l o r Hl [[Hlt Hlook]|[_ <-]]%lookup_snoc_Some Hin.
      * apply elem_of_union. left. eapply Hrefs; [|done..].
        apply elem_of_union in Hl as [Hl| ->%elem_of_singleton]; [done|lia].
      * by apply elem_of_nil in Hin.
  - destruct Hop as (Hs & Ho & -> & ->). split; simpl; [done|].
    intros l o r Hl Hlook Hin. rewrite lookup_heap_add_reference in Hlook.
    case_decide; [|by eauto]. subst l.
    destruct (heap w !! self) as [o0|] eqn:Hl0; simplify_eq/=.
    apply elem_of_add_reference in Hin as [Hin| ->]; eauto.
  - destruct Hop as (Hs & Ho & -> & ->). split; simpl; [done|].
    intros l o r Hl Hlook Hin. rewrite lookup_heap_remove_reference in Hlook.
    case_decide; [|by eauto]. subst l.
    destruct (heap w !! self) as [o0|] eqn:Hl0; simplify_eq/=.
    apply elem_of_remove_reference in Hin. eauto.
  - destruct Hop as (Ho & -> & ->). split; simpl; [|done].
    intros r [Hr| ->%elem_of_singleton]%elem_of_union; auto.
  - destruct Hop as (Ho & -> & ->). unfold remove_root.
    case_decide; [|done]. split; simpl; [|done].
    intros r [Hr _]%elem_of_difference. auto.
  - destruct Hop as [st Hc].
    pose proof (collect_same_refs _ _ _ _ _ _ Hc) as Hsame.
    destruct (collect_inv _ _ _ _ _ _ Hc) as (_ & _ & _ & _ & _ & _ & Hr & _).
    destruct (collect_reachability _ _ _ _ _ _ Ha Hclosed Hc) as (h2 & n & _ & Hiff & _).
    split; simpl.
    + rewrite Hr. intros r Hin. apply Hiff. exists r. split; [done|]. apply rtc_refl.
    + intros l o r (r0 & Hr0 & Hp)%Hiff Hlook Hin. apply Hiff.
      exists r0. split; [done|]. eapply rtc_r; [done|].
      eapply same_refs_edge; [by apply same_refs_sym|]. by exists o.
  - by destruct Hop as [-> ->].
Qed.

Lemma exec_all_live fuel ws op ws' :
  builds op = true → all_live ws → exec fuel ws op = Some ws' → all_live ws'.
Proof.
  destruct ws as [w g], ws' as [w' g']. unfold all_live. intros Hb Hall Hop.
  apply exec_cases in Hop. simpl in *. destruct op; try done.
  - destruct Hop as [-> ->]. simpl. rewrite length_app. simpl. intros l Hl.
    apply elem_of_union. destruct (decide (l = length (heap w))) as [->|];
      [right; by apply elem_of_singleton|left; apply Hall; lia].
  - destruct Hop as (_ & _ & -> & ->). simpl. unfold heap_add_reference.
    by rewrite length_alter.
  - destruct Hop as (_ & _ & -> & ->). simpl. unfold heap_remove_reference.
    by rewrite length_alter.
  - destruct Hop as (_ & -> & ->). simpl. done.
  - destruct Hop as (_ & -> & ->). unfold remove_root. by case_decide.
Qed.

Lemma init_handles_valid : handles_valid (init (Any := Any)).
Proof.
  unfold handles_valid, init. simpl. repeat split.
  - by intros l ?%not_elem_of_empty.
  - by intros l ?%not_elem_of_empty.
  - by intros l o r ?.
Qed.

Lemma init_closed : closed (init (Any := Any)).
Proof.
  split; simpl; [done|]. by intros l o r ?%not_elem_of_empty.
Qed.

Lemma all_live_closed ws : handles_valid ws → all_live ws → closed ws.
Proof.
  intros (_ & Hr & Hrefs) Hall. split.
  - intros r Hin. apply Hall. auto.
  - intros l o r _ Hl Hin. apply Hall. eauto.
Qed.

(** A graph built by the build calls alone: nothing swept, every handle
    valid. *)
Lemma built_state fuel ops ws :
  forallb builds ops = true → run fuel init ops = Some ws →
  handles_valid ws ∧ all_live ws.
Proof.
  intros Hb Hrun.
  cut (∀ ws0, handles_valid ws0 ∧ all_live ws0 → run fuel ws0 ops = Some ws →
              handles_valid ws ∧ all_live ws).
  { intros Hcut. apply (Hcut init); [|done]. split; [apply init_handles_valid|].
    intros l Hl. simpl in Hl. lia. }
  clear Hrun. induction ops as [|op ops IH]; intros ws0 [Hv Hl] Hrun; simpl in *.
  - by simplify_eq.
  - apply andb_prop in Hb as [Hop Hb].
    destruct (exec fuel ws0 op) as [ws1|] eqn:Hexec; [|done].
    apply (IH Hb ws1); [|done]. split.
    + by eapply exec_handles_valid.
    + by eapply exec_all_live.
Qed.

(** ** The collection cycle *)

(** C1: on a state whose roots are members of [all_objects] and whose live
    objects refer to members of [all_objects] only, before the first cycle or
    after any number of them, [collect] returns, and afterwards an object is
    in [all_objects] exactly when a reference path (possibly empty) leads to
    it from a root; every survivor is [MARKED], and every object that was
    removed was [UNMARKED] when the mark phase ended. *)
Theorem collect_keeps_exactly_the_reachable fuel w g :
  handles_valid (w, g) →
  closed (w, g) →
  length (heap w) < fuel →
  ∃ w' g' st h2 n,
    collect fuel w g = Some (w', g', st) ∧
    mark_phase fuel (heap w) g = Some (h2, n) ∧
    (∀ x, x ∈ all_objects g' ↔ reachable_from_roots (heap w') g' x) ∧
    (∀ x, x ∈ all_objects g' → read_state (heap w') x = Some MARKED) ∧
    (∀ x, x ∈ all_objects g → x ∉ all_objects g' → read_state h2 x = Some UNMARKED).
Proof.
  intros Hv Hclosed Hfuel.
  destruct (collect_total fuel w g Hfuel) as [[[w' g'] st] Hc].
  destruct (collect_reachability _ _ _ _ _ _ (proj1 Hv) Hclosed Hc)
    as (h2 & n & Hmp & Hiff & Hm & Hu & _).
  pose proof (collect_same_refs _ _ _ _ _ _ Hc) as Hsame.
  destruct (collect_inv _ _ _ _ _ _ Hc) as (_ & _ & _ & _ & _ & _ & Hr & _).
  exists w', g', st, h2, n. repeat split; try done.
  - intros (r & Hin & Hp)%Hiff. exists r. rewrite Hr. split; [done|].
    by eapply same_refs_path.
  - intros (r & Hin & Hp). apply Hiff. exists r. rewrite Hr in Hin. split; [done|].
    eapply same_refs_path; [|done]. by apply same_refs_sym.
  - intros x Hx Hnx. by destruct (Hu x Hx Hnx).
Qed.

(** C2: the statistics of a cycle add up: the marked and the collected
    objects together are the initial ones, and the final size is the initial
    size less the collected objects; [initial_objects] and [final_objects] are
    the sizes of [all_objects] before and after. *)
Theorem collect_conservation fuel w g :
  (∀ l, l ∈ all_objects g → l < length (heap w)) →
  length (heap w) < fuel →
  ∃ w' g' st,
    collect fuel w g = Some (w', g', st) ∧
    initial_objects st = size (all_objects g) ∧
    final_objects st = size (all_objects g') ∧
    marked_objects st + collected_objects st = initial_objects st ∧
    collected_objects st ≤ initial_objects st ∧
    final_objects st = initial_objects st - collected_objects st.
Proof.
  intros Hvalid Hfuel.
  destruct (collect_total fuel w g Hfuel) as [[[w' g'] st] Hc].
  destruct (collect_inv _ _ _ _ _ _ Hc)
    as (h2 & _ & [O _ _ _] & _ & _ & Hall & _ & _ & _ & ->).
  exists w', g'. eexists. split; [exact Hc|]. simpl.
  split; [done|]. split; [done|]. split; [|split].
  - unfold garbage. rewrite <- length_iter.
    apply filter_partition_length. intros x Hx%elem_of_iter.
    unfold marked.
    destruct (member_state_after_mark (heap w) g h2 x O Hx (Hvalid x Hx)) as [->| ->].
    + split; [auto|]. by intros [? _].
    + split; [auto|]. by intros [_ ?].
  - apply length_garbage_le.
  - rewrite Hall. apply size_survivors.
Qed.

(** C10: a cycle leaves [roots] as it was; the sweep phase on its own does
    too, whatever the store it runs on. *)
Theorem collect_preserves_roots fuel w g :
  length (heap w) < fuel →
  ∃ w' g' st,
    collect fuel w g = Some (w', g', st) ∧
    roots g' = roots g ∧
    ∀ h, roots (sweep_phase h g).1.2 = roots g.
Proof.
  intros Hfuel.
  destruct (collect_total fuel w g Hfuel) as [[[w' g'] st] Hc].
  destruct (collect_inv _ _ _ _ _ _ Hc) as (_ & _ & _ & _ & _ & _ & Hr & _).
  exists w', g', st. split; [done|]. split; [done|].
  intros h. by rewrite sweep_phase_eq.
Qed.

(** ** Termination of the traversal *)

Lemma log_post_refl h out : log_post h out h out.
Proof.
  split; [apply only_marks_refl|]. exists []. rewrite app_nil_r.
  split; [done|]. split; [constructor|]. split; [|simpl; lia].
  by intros x ?%elem_of_nil.
Qed.

Lemma log_post_trans h out h1 out1 h2 out2 :
  log_post h out h1 out1 → log_post h1 out1 h2 out2 → log_post h out h2 out2.
Proof.
  intros (O1 & new1 & -> & Hnd1 & Hnew1 & Hc1) (O2 & new2 & -> & Hnd2 & Hnew2 & Hc2).
  split; [by eapply only_marks_trans|].
  exists (new1 ++ new2). rewrite app_assoc. split; [done|]. split; [|split].
  - apply NoDup_app. split; [done|]. split; [|done].
    intros x Hx1 Hx2. destruct (Hnew2 x Hx2) as [Hn _]. apply Hn.
    by apply Hnew1.
  - intros x [Hx|Hx]%elem_of_app.
    + destruct (Hnew1 x Hx). split; [done|]. by eapply only_marks_marked.
    + destruct (Hnew2 x Hx) as [Hn Hm]. split; [|done].
      intros Hm0. apply Hn. by eapply only_marks_marked.
  - rewrite length_app. lia.
Qed.

Lemma for_each_log
    (f : list (ManagedObject Any) → nat → option (list (ManagedObject Any)))
    (fl : list (ManagedObject Any) * list nat → nat
          → option (list (ManagedObject Any) * list nat)) :
  (∀ h out obj,
     match fl (h, out) obj with
     | Some (h', out') => f h obj = Some h' ∧ log_post h out h' out'
     | None => f h obj = None
     end) →
  ∀ ls h out,
    match for_each fl (h, out) ls with
    | Some (h', out') => for_each f h ls = Some h' ∧ log_post h out h' out'
    | None => for_each f h ls = None
    end.
Proof.
  intros Hf. induction ls as [|l ls IH]; intros h out; simpl.
  - split; [done|apply log_post_refl].
  - specialize (Hf h out l). destruct (fl (h, out) l) as [[h1 out1]|].
    + destruct Hf as [-> Hp1]. specialize (IH h1 out1).
      destruct (for_each fl (h1, out1) ls) as [[h2 out2]|]; [|done].
      destruct IH as [-> Hp2]. split; [done|]. by eapply log_post_trans.
    + by rewrite Hf.
Qed.

Lemma mark_log_spec fuel h out obj :
  match mark_log fuel (h, out) obj with
  | Some (h', out') => mark fuel h obj = Some h' ∧ log_post h out h' out'
  | None => mark fuel h obj = None
  end.
Proof.
  revert h out obj. induction fuel as [|fuel IH]; intros h out obj; [done|].
  simpl. destruct (h !! obj) as [o|] eqn:Hobj.
  2:{ split; [done|apply log_post_refl]. }
  case_decide as Hst.
  { split; [done|apply log_post_refl]. }
  pose proof (for_each_log (mark fuel) (mark_log fuel) IH (references o)
                (write_state MARKED h obj) (out ++ [obj])) as Hrun.
  destruct (for_each (mark_log fuel) _ _) as [[h' out']|]; [|done].
  destruct Hrun as [-> Hp]. split; [done|].
  eapply log_post_trans; [|done].
  split; [by eapply only_marks_write|]. exists [obj].
  split; [done|]. split; [apply NoDup_singleton|]. split.
  - intros x ->%list_elem_of_singleton. rewrite !marked_lookup. split.
    + intros (? & ? & ?). congruence.
    + exists (set_state MARKED o).
      rewrite lookup_write_state, decide_True, Hobj by done. done.
  - pose proof (write_marked_unmarked_count _ _ _ Hobj Hst). simpl. lia.
Qed.

(** C6: the recursive traversal returns on every store, cycles and
    self-loops included: a call stack deeper than the number of objects that
    are not yet [MARKED] is enough, and the result does not depend on the
    depth available.  No object is marked twice.  Hence [mark_phase] returns
    on every collector state. *)
Theorem mark_terminates h g obj :
  (∃ h', ∀ fuel, unmarked_count h < fuel → mark fuel h obj = Some h') ∧
  (∀ fuel, unmarked_count h < fuel →
     ∃ h' log, mark_log fuel (h, []) obj = Some (h', log) ∧
               mark fuel h obj = Some h' ∧ NoDup log ∧
               length log ≤ unmarked_count h) ∧
  (∃ res, ∀ fuel, length h < fuel → mark_phase fuel h g = Some res).
Proof.
  split; [|split].
  - destruct (mark_total (S (unmarked_count h)) h obj) as (h' & Hm & _); [lia|].
    exists h'. intros fuel Hfuel. eapply mark_fuel_mono; [done|lia].
  - intros fuel Hfuel. destruct (mark_total fuel h obj Hfuel) as (h' & Hm & O).
    pose proof (mark_log_spec fuel h [] obj) as Hlog.
    destruct (mark_log fuel (h, []) obj) as [[h1 log]|]; [|congruence].
    destruct Hlog as (Hm1 & _ & new & Heq & Hnd & Hnew & Hcount).
    simpl in Heq. subst new.
    assert (h1 = h') as -> by congruence.
    exists h', log. repeat split; try done. lia.
  - destruct (mark_roots_total (S (length h)) (reset h g) (iter (roots g)))
      as (h2 & Hrun & _).
    { rewrite length_reset. lia. }
    eexists. intros fuel Hfuel. rewrite mark_phase_eq.
    erewrite for_each_mono; [done| |exact Hrun].
    intros ????. eapply mark_fuel_mono; [done|lia].
Qed.

(** ** Accounting *)

Lemma history_collected_snoc hist (st : Stats) :
  history_collected (hist ++ [st]) = history_collected hist + collected_objects st.
Proof. unfold history_collected. rewrite sum_list_with_app. simpl. lia. Qed.

Lemma completed_cycles_single (op : Op Any) :
  completed_cycles [op] = if is_collect op then 1 else 0.
Proof. by destruct op. Qed.

Lemma exec_accounting fuel ws op ws' :
  exec fuel ws op = Some ws' →
  (collected_count ws.2 = history_collected (collection_history ws.2) →
   collected_count ws'.2 = history_collected (collection_history ws'.2)) ∧
  length (collection_history ws'.2)
  = length (collection_history ws.2) + completed_cycles [op] ∧
  collected_count ws.2 ≤ collected_count ws'.2.
Proof.
  destruct ws as [w g], ws' as [w' g']. intros Hop.
  apply exec_cases in Hop. rewrite completed_cycles_single. simpl in *.
  destruct op; simpl.
  - destruct Hop as [-> ->]. simpl. split; [done|]. split; lia.
  - destruct Hop as (_ & _ & -> & ->). split; [done|]. split; lia.
  - destruct Hop as (_ & _ & -> & ->). split; [done|]. split; lia.
  - destruct Hop as (_ & -> & ->). simpl. split; [done|]. split; lia.
  - destruct Hop as (_ & -> & ->). unfold remove_root.
    case_decide; simpl; (split; [done|]; split; lia).
  - destruct Hop as [st Hc].
    destruct (collect_inv _ _ _ _ _ _ Hc)
      as (h2 & _ & _ & _ & _ & _ & _ & Hcc & Hhist & Hst).
    rewrite Hcc, Hhist, history_collected_snoc, length_app. simpl.
    assert (collected_objects st = length (garbage h2 g)) as -> by (by rewrite Hst).
    split; [|split]; lia.
  - destruct Hop as [-> ->]. split; [done|]. split; lia.
Qed.

Lemma completed_cycles_cons (op : Op Any) ops :
  completed_cycles (op :: ops) = completed_cycles [op] + completed_cycles ops.
Proof.
  unfold completed_cycles. rewrite !filter_cons, filter_nil.
  case_decide; simpl; lia.
Qed.

Lemma run_accounting fuel ops ws ws' :
  run fuel ws ops = Some ws' →
  (collected_count ws.2 = history_collected (collection_history ws.2) →
   collected_count ws'.2 = history_collected (collection_history ws'.2)) ∧
  length (collection_history ws'.2)
  = length (collection_history ws.2) + completed_cycles ops ∧
  collected_count ws.2 ≤ collected_count ws'.2.
Proof.
  revert ws. induction ops as [|op ops IH]; intros ws Hrun; simpl in Hrun.
  - simplify_eq. unfold completed_cycles. simpl. split; [done|]. split; lia.
  - destruct (exec fuel ws op) as [ws1|] eqn:Hop; [|done].
    destruct (exec_accounting _ _ _ _ Hop) as (Hs1 & Hl1 & Hc1).
    destruct (IH _ Hrun) as (Hs2 & Hl2 & Hc2).
    rewrite completed_cycles_cons. split; [auto|]. split; lia.
Qed.

(** C7: in a state reached by public operations, [collected_count] is the sum
    of the [collected_objects] entries of [collection_history], whose length
    is the number of [collect] calls made; neither decreases afterwards. *)
Theorem accounting_invariant fuel (ops1 ops2 : list (Op Any)) ws ws' :
  run fuel init ops1 = Some ws →
  run fuel ws ops2 = Some ws' →
  collected_count ws.2 = history_collected (collection_history ws.2) ∧
  length (collection_history ws.2) = completed_cycles ops1 ∧
  collected_count ws.2 ≤ collected_count ws'.2 ∧
  length (collection_history ws.2) ≤ length (collection_history ws'.2).
Proof.
  intros Hrun1 Hrun2.
  destruct (run_accounting _ _ _ _ Hrun1) as (Hs1 & Hl1 & _).
  destruct (run_accounting _ _ _ _ Hrun2) as (_ & Hl2 & Hc2).
  simpl in *. split; [by apply Hs1|]. split; [done|]. split; lia.
Qed.

(** ** Reference lists *)

Lemma exec_refs_nodup fuel ws op ws' :
  (∀ l o, heap ws.1 !! l = Some o → NoDup (references o)) →
  exec fuel ws op = Some ws' →
  ∀ l o, heap ws'.1 !! l = Some o → NoDup (references o).
Proof.
  destruct ws as [w g], ws' as [w' g']. intros Hnd Hop.
  apply exec_cases in Hop. simpl in *. destruct op.
  - destruct Hop as [-> ->]. simpl.
    intros l o [[_ Hl]|[_ <-]]%lookup_snoc_Some; [eauto|constructor].
  - destruct Hop as (_ & _ & -> & ->). simpl. intros l o Hl.
    rewrite lookup_heap_add_reference in Hl. case_decide; [|by eauto].
    destruct (heap w !! l) as [o0|] eqn:Hl0; simplify_eq/=.
    unfold add_reference. case_decide as Hin; simpl; [|by eauto].
    apply NoDup_app. split; [by eauto|]. split; [|apply NoDup_singleton].
    by intros x Hx ->%list_elem_of_singleton.
  - destruct Hop as (_ & _ & -> & ->). simpl. intros l o Hl.
    rewrite lookup_heap_remove_reference in Hl. case_decide; [|by eauto].
    destruct (heap w !! l) as [o0|] eqn:Hl0; simplify_eq/=.
    unfold remove_reference. case_decide; simpl; [|by eauto].
    apply NoDup_list_remove. eauto.
  - by destruct Hop as (_ & -> & ->).
  - by destruct Hop as (_ & -> & ->).
  - destruct Hop as [st Hc]. pose proof (collect_same_refs _ _ _ _ _ _ Hc) as Hsame.
    intros l o Hl. specialize (Hsame l). rewrite Hl in Hsame.
    destruct (heap w !! l) as [o0|] eqn:Hl0; simplify_eq/=.
    rewrite <- Hsame. eauto.
  - by destruct Hop as [-> ->].
Qed.

(** C8: [add_reference] of a target already in the list changes nothing,
    [remove_reference] of an absent target changes nothing, both keep a list
    free of duplicates, and no reference list of a reachable state holds a
    target twice. *)
Theorem references_duplicate_free (o : ManagedObject Any) (obj : nat) :
  (obj ∈ references o → add_reference o obj = o) ∧
  add_reference (add_reference o obj) obj = add_reference o obj ∧
  (obj ∉ references o → remove_reference o obj = o) ∧
  (NoDup (references o) →
   NoDup (references (add_reference o obj)) ∧
   NoDup (references (remove_reference o obj))) ∧
  (∀ fuel (ops : list (Op Any)) ws l o',
     run fuel init ops = Some ws → heap ws.1 !! l = Some o' → NoDup (references o')).
Proof.
  split; [|split; [|split; [|split]]].
  - intros Hin. unfold add_reference. by rewrite decide_False by auto.
  - unfold add_reference at 1. rewrite decide_False; [done|].
    intros Hn. apply Hn, elem_of_add_reference. auto.
  - intros Hn. unfold remove_reference. by rewrite decide_False.
  - intros Hnd. split.
    + unfold add_reference. case_decide; simpl; [|done].
      apply NoDup_app. split; [done|]. split; [|apply NoDup_singleton].
      by intros x Hx ->%list_elem_of_singleton.
    + unfold remove_reference. case_decide; simpl; [|done].
      by apply NoDup_list_remove.
  - intros fuel ops ws l o' Hrun. revert l o'.
    eapply (run_inv (λ ws, ∀ l o, heap ws.1 !! l = Some o → NoDup (references o)));
      [|..|exact Hrun].
    + intros ws0 op ws1 Hnd Hop. by eapply exec_refs_nodup.
    + intros l o0 Hl. simpl in Hl. by rewrite lookup_nil in Hl.
Qed.

(** ** Identities *)

Lemma ids_alter (f : ManagedObject Any → ManagedObject Any) h l :
  (∀ o, id (f o) = id o) → id <$> alter f l h = id <$> h.
Proof.
  intros Hf. rewrite (list_fmap_alter id f (λ n, n)).
  - by apply list_alter_id.
  - apply Forall_forall. intros o _. apply Hf.
Qed.

Lemma ids_foldl_write_state st ls h : id <$> foldl (write_state st) h ls = id <$> h.
Proof.
  revert h. induction ls as [|l ls IH]; intros h; simpl; [done|].
  rewrite IH. by apply ids_alter.
Qed.

Lemma only_marks_ids h h' : only_marks h h' → id <$> h' = id <$> h.
Proof.
  induction 1 as [|o o' t t' Ho _ IH]; [done|].
  rewrite !fmap_cons, IH. by destruct Ho as [->|[_ ->]].
Qed.

Lemma add_reference_id o obj : id (add_reference o obj) = id o.
Proof. unfold add_reference. by case_decide. Qed.

Lemma remove_reference_id o obj : id (remove_reference o obj) = id o.
Proof. unfold remove_reference. by case_decide. Qed.

Lemma world_step_ids w w' :
  world_step w w' →
  (ids w' = ids w ∧ _id_counter w' = _id_counter w) ∨
  (ids w' = ids w ++ [S (_id_counter w)] ∧ _id_counter w' = S (_id_counter w)).
Proof.
  unfold ids. intros [(nm & d & ->)|(fuel & g & op & g' & Hop)].
  { right. simpl. by rewrite fmap_app. }
  apply exec_cases in Hop. destruct op.
  - destruct Hop as [-> _]. right. simpl. by rewrite fmap_app.
  - destruct Hop as (_ & _ & -> & _). left. simpl. split; [|done].
    apply ids_alter. intros o. apply add_reference_id.
  - destruct Hop as (_ & _ & -> & _). left. simpl. split; [|done].
    apply ids_alter. intros o. apply remove_reference_id.
  - destruct Hop as (_ & -> & _). by left.
  - destruct Hop as (_ & -> & _). by left.
  - destruct Hop as [st Hc].
    destruct (collect_inv _ _ _ _ _ _ Hc) as (h2 & _ & [O _ _ _] & Hcnt & -> & _).
    left. split; [|done].
    rewrite ids_foldl_write_state, (only_marks_ids _ _ O). apply ids_foldl_write_state.
  - destruct Hop as [-> _]. by left.
Qed.

Lemma world_step_ids_inv w w' : ids_inv w → world_step w w' → ids_inv w'.
Proof.
  intros [Hb Hs] Hstep. unfold ids_inv.
  destruct (world_step_ids _ _ Hstep) as [[-> ->]|[-> ->]]; [done|]. split.
  - intros a [Ha| ->%list_elem_of_singleton]%elem_of_app; [|lia].
    apply Hb in Ha. lia.
  - intros i j a b [[Hi Ha]|[-> <-]]%lookup_snoc_Some
                   [[Hj Hb']|[-> <-]]%lookup_snoc_Some Hlt.
    + eauto.
    + assert (a ∈ ids w) as Hin by (by eapply list_elem_of_lookup_2).
      apply Hb in Hin. lia.
    + lia.
    + lia.
Qed.

Lemma world_steps_ids_inv w : rtc world_step fresh_world w → ids_inv w.
Proof.
  revert w. apply (rtc_ind_r (λ w, ids_inv w)).
  - split.
    + by intros a ?%elem_of_nil.
    + intros i j a b Hi. by destruct i.
  - intros w1 w2 _ Hstep IH. by eapply world_step_ids_inv.
Qed.

(** C9: along every sequence of object creations and collector operations,
    through whatever collector, ids are strictly increasing in creation
    order, so no two objects share an id; a new object gets an id greater
    than every id assigned before; and the ids assigned so far stay as they
    are, collected or not. *)
Theorem ids_strictly_increasing w :
  rtc world_step fresh_world w →
  (∀ i j a b, ids w !! i = Some a → ids w !! j = Some b → i < j → a < b) ∧
  NoDup (ids w) ∧
  (∀ g nm d, ∃ new, ids (allocate w g nm d).1.1 = ids w ++ [new] ∧
                    ∀ a, a ∈ ids w → a < new) ∧
  (∀ w', rtc world_step w w' → ids w `prefix_of` ids w').
Proof.
  intros Hsteps. destruct (world_steps_ids_inv w Hsteps) as [Hb Hs].
  split; [done|]. split; [|split].
  - apply NoDup_alt. intros i j a Hi Hj.
    destruct (decide (i < j)); [pose proof (Hs i j a a Hi Hj); lia|].
    destruct (decide (j < i)); [pose proof (Hs j i a a Hj Hi); lia|]. lia.
  - intros g nm d. exists (S (_id_counter w)). split.
    + unfold ids. simpl. by rewrite fmap_app.
    + intros a Ha%Hb. lia.
  - apply (rtc_ind_r (λ w', ids w `prefix_of` ids w')); [done|].
    intros w1 w2 _ Hstep IH.
    destruct (world_step_ids _ _ Hstep) as [[-> _]|[-> _]]; [done|].
    by apply prefix_app_r.
Qed.

(** ** Swept objects and roots across operations *)

Lemma guarded_run_inv (guard : World Any * MarkAndSweepGC → Op Any → Prop)
    (P : World Any * MarkAndSweepGC → Prop) fuel :
  (∀ ws op ws', P ws → guard ws op → exec fuel ws op = Some ws' → P ws') →
  ∀ ops ws ws', P ws → guarded_run guard fuel ws ops ws' → P ws'.
Proof.
  intros Hstep. induction ops as [|op ops IH]; intros ws ws' HP Hrun; simpl in Hrun.
  - by subst.
  - destruct Hrun as (Hg & ws1 & Hop & Hrun). eauto.
Qed.

Lemma read_state_heap_add_reference h self obj x :
  read_state (heap_add_reference h self obj) x = read_state h x.
Proof.
  unfold read_state. rewrite lookup_heap_add_reference. case_decide; [|done].
  destruct (h !! x) as [o|]; [|done]. simpl. unfold add_reference. by case_decide.
Qed.

Lemma read_state_heap_remove_reference h self obj x :
  read_state (heap_remove_reference h self obj) x = read_state h x.
Proof.
  unfold read_state. rewrite lookup_heap_remove_reference. case_decide; [|done].
  destruct (h !! x) as [o|]; [|done]. simpl. unfold remove_reference. by case_decide.
Qed.

(** Whatever the roots and references are, a survivor is [MARKED] and a root
    that is live survives. *)
Lemma collect_survivors fuel w g w' g' st :
  (∀ l, l ∈ all_objects g → l < length (heap w)) →
  collect fuel w g = Some (w', g', st) →
  (∀ x, x ∈ all_objects g' → x ∈ all_objects g ∧ read_state (heap w') x = Some MARKED) ∧
  (∀ r, r ∈ roots g → r ∈ all_objects g → r ∈ all_objects g').
Proof.
  intros Hvalid Hc.
  destruct (collect_inv _ _ _ _ _ _ Hc) as (h2 & _ & [O S _ _] & _ & Hheap & Hall & _).
  split.
  - intros x [Hx Hne]%(proj1 (eq_ind_r (λ X, x ∈ X ↔ _) (elem_of_survivors h2 g x) Hall)).
    split; [done|]. unfold read_state in *.
    rewrite Hheap, lookup_swept, decide_False by tauto.
    by destruct (member_state_after_mark (heap w) g h2 x O Hx (Hvalid x Hx)).
  - intros r Hr Hin. rewrite Hall. apply elem_of_survivors. split; [done|].
    assert (marked h2 r) as Hm.
    { apply S; [by apply elem_of_iter|]. rewrite length_reset. auto. }
    unfold marked in Hm. congruence.
Qed.

Lemma exec_members_not_collected fuel ws op ws' :
  handles_valid ws →
  (∀ x, x ∈ all_objects ws.2 → read_state (heap ws.1) x ≠ Some COLLECTED) →
  exec fuel ws op = Some ws' →
  ∀ x, x ∈ all_objects ws'.2 → read_state (heap ws'.1) x ≠ Some COLLECTED.
Proof.
  destruct ws as [w g], ws' as [w' g']. intros (Ha & _ & _) Hnc Hop.
  apply exec_cases in Hop. simpl in *. destruct op.
  - destruct Hop as [-> ->]. simpl. unfold read_state.
    intros x [Hx| ->%elem_of_singleton]%elem_of_union.
    + rewrite lookup_app_l by auto. by apply Hnc.
    + by rewrite list_lookup_middle.
  - destruct Hop as (_ & _ & -> & ->). simpl. intros x Hx.
    rewrite read_state_heap_add_reference. auto.
  - destruct Hop as (_ & _ & -> & ->). simpl. intros x Hx.
    rewrite read_state_heap_remove_reference. auto.
  - by destruct Hop as (_ & -> & ->).
  - destruct Hop as (_ & -> & ->). unfold remove_root. by case_decide.
  - destruct Hop as [st Hc]. intros x Hx.
    destruct (collect_survivors _ _ _ _ _ _ Ha Hc) as [Hs _].
    destruct (Hs x Hx) as [_ ->]. done.
  - by destruct Hop as [-> ->].
Qed.

Lemma exec_swept_stays fuel ws op ws' x :
  x < length (heap ws.1) → x ∉ all_objects (ws.2) →
  exec fuel ws op = Some ws' →
  x < length (heap ws'.1) ∧ (x ∉ all_objects (ws'.2)) ∧
  ((∀ l, l ∈ all_objects ws.2 → l < length (heap ws.1)) → closed ws →
   read_state (heap ws'.1) x = read_state (heap ws.1) x).
Proof.
  destruct ws as [w g], ws' as [w' g']. intros Hlt Hx Hop.
  apply exec_cases in Hop. simpl in *. destruct op.
  - destruct Hop as [-> ->]. simpl. rewrite length_app. simpl. split; [lia|]. split.
    + intros [?| ->%elem_of_singleton]%elem_of_union; [done|lia].
    + intros _ _. unfold read_state. by rewrite lookup_app_l.
  - destruct Hop as (_ & _ & -> & ->). simpl. unfold heap_add_reference at 1.
    rewrite length_alter. split; [done|]. split; [done|]. intros _ _.
    apply read_state_heap_add_reference.
  - destruct Hop as (_ & _ & -> & ->). simpl. unfold heap_remove_reference at 1.
    rewrite length_alter. split; [done|]. split; [done|]. intros _ _.
    apply read_state_heap_remove_reference.
  - by destruct Hop as (_ & -> & ->).
  - destruct Hop as (_ & -> & ->). unfold remove_root. by case_decide.
  - destruct Hop as [st Hc].
    rewrite (collect_length _ _ _ _ _ _ Hc). split; [done|].
    destruct (collect_inv _ _ _ _ _ _ Hc) as (h2 & _ & _ & _ & _ & Hall & _).
    split.
    + rewrite Hall. intros [? _]%elem_of_difference. done.
    + intros Ha Hclosed.
      destruct (collect_reachability _ _ _ _ _ _ Ha Hclosed Hc)
        as (? & ? & _ & _ & _ & _ & Hsame).
      unfold read_state. by rewrite Hsame.
  - by destruct Hop as [-> ->].
Qed.

Lemma init_members_not_collected x :
  x ∈ all_objects (init (Any := Any)).2 →
  read_state (heap (init (Any := Any)).1) x ≠ Some COLLECTED.
Proof. by intros ?%not_elem_of_empty. Qed.


(** C4 (as amended): in every state reached by public operations in which
    add_root is only given members of [all_objects], every root is a member of
    [all_objects]. *)
Theorem roots_are_live fuel (ops : list (Op Any)) ws :
  guarded_run live_root_op fuel init ops ws →
  roots ws.2 ⊆ all_objects ws.2.
Proof.
  intros Hrun.
  eapply (guarded_run_inv live_root_op
            (λ ws, handles_valid ws ∧ roots ws.2 ⊆ all_objects ws.2));
    [|split; [apply init_handles_valid|done]|exact Hrun].
  clear. intros [w g] op [w' g'] [Hv Hsub] Hg Hop.
  split; [by eapply exec_handles_valid|].
  pose proof Hop as Hcases. apply exec_cases in Hcases. clear Hop.
  simpl in *. destruct op.
  - destruct Hcases as [-> ->]. simpl. intros r Hr. apply elem_of_union. auto.
  - by destruct Hcases as (_ & _ & -> & ->).
  - by destruct Hcases as (_ & _ & -> & ->).
  - destruct Hcases as (_ & -> & ->). simpl.
    intros r [Hr| ->%elem_of_singleton]%elem_of_union; auto.
  - destruct Hcases as (_ & -> & ->). unfold remove_root. case_decide; [|done].
    simpl. intros r [Hr _]%elem_of_difference. auto.
  - destruct Hcases as [st Hc].
    destruct (collect_survivors _ _ _ _ _ _ (proj1 Hv) Hc) as [_ Hs].
    destruct (collect_inv _ _ _ _ _ _ Hc) as (_ & _ & _ & _ & _ & _ & Hr & _).
    rewrite Hr. intros r Hin. apply Hs; auto.
  - by destruct Hcases as [-> ->].
Qed.

(** C5 (as amended): when every root is live and live objects refer to live
    objects only, a second [collect] right after a first one collects nothing
    and leaves [all_objects] as it is. *)
Theorem collect_twice_collects_nothing fuel w g :
  handles_valid (w, g) → closed (w, g) → length (heap w) < fuel →
  ∃ w1 g1 st1 w2 g2 st2,
    collect fuel w g = Some (w1, g1, st1) ∧
    collect fuel w1 g1 = Some (w2, g2, st2) ∧
    collected_objects st2 = 0 ∧
    all_objects g2 = all_objects g1.
Proof.
  intros Hv Hclosed Hfuel.
  destruct (collect_total fuel w g Hfuel) as [[[w1 g1] st1] Hc1].
  assert (exec fuel (w, g) Collect = Some (w1, g1)) as Hop1 by (simpl; by rewrite Hc1).
  pose proof (exec_handles_valid _ _ _ _ Hv Hop1) as Hv1.
  pose proof (exec_closed fuel (w, g) Collect (w1, g1) Hv Hclosed I Hop1) as Hclosed1.
  pose proof (collect_length _ _ _ _ _ _ Hc1) as Hlen.
  destruct (collect_total fuel w1 g1) as [[[w2 g2] st2] Hc2]; [lia|].
  destruct (collect_reachability _ _ _ _ _ _ (proj1 Hv) Hclosed Hc1)
    as (_ & _ & _ & Hiff1 & _).
  destruct (collect_reachability _ _ _ _ _ _ (proj1 Hv1) Hclosed1 Hc2)
    as (_ & _ & _ & Hiff2 & _).
  pose proof (collect_same_refs _ _ _ _ _ _ Hc1) as Hsame.
  destruct (collect_inv _ _ _ _ _ _ Hc1) as (_ & _ & _ & _ & _ & _ & Hr1 & _).
  destruct (collect_inv _ _ _ _ _ _ Hc2)
    as (h2 & _ & _ & _ & _ & Hall2 & _ & _ & _ & Hst2).
  assert (all_objects g2 = all_objects g1) as Heq.
  { apply set_eq. intros x. rewrite Hiff1, Hiff2. unfold reachable_from_roots.
    simpl. rewrite Hr1. split; intros (r & Hr & Hp); exists r; (split; [done|]).
    - eapply same_refs_path; [|done]. by apply same_refs_sym.
    - by eapply same_refs_path. }
  exists w1, g1, st1, w2, g2, st2. repeat split; try done.
  rewrite Hst2. simpl.
  pose proof (size_survivors h2 g1) as Hsize. rewrite <- Hall2, Heq in Hsize.
  pose proof (length_garbage_le h2 g1). lia.
Qed.

Lemma live_run_closed fuel (ops : list (Op Any)) ws :
  guarded_run live_op fuel init ops ws → handles_valid ws ∧ closed ws.
Proof.
  apply (guarded_run_inv live_op (λ ws, handles_valid ws ∧ closed ws)).
  - intros ws0 op ws1 [Hv Hc] Hg Hop. split.
    + by eapply exec_handles_valid.
    + by eapply exec_closed.
  - split; [apply init_handles_valid|apply init_closed].
Qed.

Lemma run_world_steps fuel (ops : list (Op Any)) ws ws' :
  run fuel ws ops = Some ws' → rtc world_step ws.1 ws'.1.
Proof.
  revert ws. induction ops as [|op ops IH]; intros ws Hrun; simpl in Hrun.
  - by simplify_eq.
  - destruct (exec fuel ws op) as [ws1|] eqn:Hop; [|done].
    eapply rtc_l; [|by apply IH]. right.
    destruct ws as [w g], ws1 as [w1 g1]. by exists fuel, g, op, g1.
Qed.

(** * Further properties of the collector *)

(** ** A cycle on an arbitrary state *)

(** What a cycle does to the live set and the store, with no assumption on
    the roots or on the references. *)
Lemma collect_general fuel w g w' g' st :
  (∀ l, l ∈ all_objects g → l < length (heap w)) →
  collect fuel w g = Some (w', g', st) →
  ∃ h2,
    mark_post (iter (roots g)) (reset (heap w) g) h2 ∧
    (∀ x, x ∈ all_objects g' ↔ x ∈ all_objects g ∧ marked h2 x) ∧
    (∀ x, x ∈ all_objects g → x ∉ all_objects g' →
          read_state h2 x = Some UNMARKED ∧ read_state (heap w') x = Some COLLECTED) ∧
    (∀ x, x ∈ all_objects g' → heap w' !! x = h2 !! x) ∧
    (∀ x, x ∉ all_objects g → heap w' !! x = h2 !! x).
Proof.
  intros Hvalid Hc.
  destruct (collect_inv _ _ _ _ _ _ Hc) as (h2 & _ & Hpost & _ & Hheap & Hall & _).
  pose proof (mp_only _ _ _ Hpost) as O.
  assert (∀ x, x ∈ all_objects g → marked h2 x ∨ read_state h2 x = Some UNMARKED) as Hmember.
  { intros x Hx. destruct (member_state_after_mark (heap w) g h2 x); auto. }
  assert (∀ x, x ∈ all_objects g' ↔ x ∈ all_objects g ∧ marked h2 x) as Hsurv.
  { intros x. rewrite Hall, elem_of_survivors. split.
    - intros [Hx Hne]. split; [done|]. by destruct (Hmember x Hx).
    - intros [Hx Hm]. split; [done|]. unfold marked in Hm. congruence. }
  exists h2. split; [done|]. split; [done|]. split; [|split].
  - intros x Hx Hnx. destruct (Hmember x Hx) as [Hm|Hu]; [destruct Hnx; by apply Hsurv|].
    split; [done|]. unfold read_state in *.
    rewrite Hheap, lookup_swept, decide_True by done. by destruct (h2 !! x).
  - intros x (Hx & Hm)%Hsurv. rewrite Hheap, lookup_swept, decide_False; [done|].
    unfold marked in Hm. intros [_ ?]. congruence.
  - intros x Hx. rewrite Hheap, lookup_swept, decide_False; [done|]. tauto.
Qed.

Lemma marked_member_reachable w g h2 x :
  mark_post (iter (roots g)) (reset (heap w) g) h2 →
  x ∈ all_objects g → marked h2 x → reachable_from_roots (heap w) g x.
Proof.
  intros [_ _ R _] Hx Hm.
  destruct (R x (reset_member_not_marked _ _ _ Hx) Hm) as (r & Hr%elem_of_iter & Hp).
  exists r. split; [done|].
  eapply same_refs_path; [|done]. apply same_refs_sym, same_refs_reset.
Qed.

Lemma marked_plus_garbage w g h2 :
  (∀ l, l ∈ all_objects g → l < length (heap w)) →
  only_marks (reset (heap w) g) h2 →
  length (filter (marked h2) (iter (all_objects g))) + length (garbage h2 g)
  = size (all_objects g).
Proof.
  intros Hvalid O. unfold garbage. rewrite <- length_iter.
  apply filter_partition_length. intros x Hx%elem_of_iter. unfold marked.
  destruct (member_state_after_mark (heap w) g h2 x O Hx (Hvalid x Hx)) as [->| ->].
  - split; [auto|]. by intros [? _].
  - split; [auto|]. by intros [_ ?].
Qed.

(** X1: on any state whose live handles denote objects, whatever its roots and
    references are, [collect] keeps every object reached from a live root
    along live objects, keeps nothing that no root reaches, and every object
    it removes ends [COLLECTED]. *)
Theorem collect_keeps_between fuel w g :
  (∀ l, l ∈ all_objects g → l < length (heap w)) →
  length (heap w) < fuel →
  ∃ w' g' st,
    collect fuel w g = Some (w', g', st) ∧
    (∀ x, reachable_through_live (heap w) g x → x ∈ all_objects g') ∧
    (∀ x, x ∈ all_objects g' → x ∈ all_objects g ∧ reachable_from_roots (heap w) g x) ∧
    (∀ x, x ∈ all_objects g → ¬ reachable_from_roots (heap w) g x → x ∉ all_objects g') ∧
    (∀ x, x ∈ all_objects g → x ∉ all_objects g' →
          read_state (heap w') x = Some COLLECTED).
Proof.
  intros Hvalid Hfuel.
  destruct (collect_total fuel w g Hfuel) as [[[w' g'] st] Hc].
  destruct (collect_general _ _ _ _ _ _ Hvalid Hc)
    as (h2 & [O S R C] & Hsurv & Hgone & _).
  assert (length (reset (heap w) g) = length (heap w)) as Hlen by apply length_reset.
  assert (∀ x, x ∈ all_objects g' → reachable_from_roots (heap w) g x) as Hreach.
  { intros x (Hx & Hm)%Hsurv. eapply marked_member_reachable; [|done..]. by split. }
  exists w', g', st. split; [done|]. split; [|split; [|split]].
  - intros x (r & Hr & Hra & Hp). apply Hsurv. revert x Hp.
    apply (rtc_ind_r (λ x, x ∈ all_objects g ∧ marked h2 x)).
    + split; [done|]. apply S; [by apply elem_of_iter|]. rewrite Hlen. auto.
    + intros a b _ [(o & Ha & Hb) Hlive] [Haa Hma]. split; [done|].
      apply marked_lookup in Hma as (o2 & Ha2 & Hst2).
      assert (references o2 = references o) as Hrefs.
      { pose proof (only_marks_same_refs _ _ O a) as Hsame.
        pose proof (same_refs_reset (heap w) g a) as Hsame0.
        rewrite Ha in Hsame0. rewrite <- Hsame0, Ha2 in Hsame. by simplify_eq/=. }
      eapply (C a o2 b); eauto.
      * by apply reset_member_not_marked.
      * by rewrite Hrefs.
      * rewrite Hlen. auto.
  - intros x Hx. split; [by apply Hsurv in Hx as [? _]|auto].
  - intros x Hx Hnr Hin. auto.
  - intros x Hx Hnx. by destruct (Hgone x Hx Hnx).
Qed.

(** ** Which states live and swept objects can be in *)

Lemma exec_unmarked_are_live fuel ws op ws' :
  handles_valid ws →
  (∀ x, read_state (heap ws.1) x = Some UNMARKED → x ∈ all_objects ws.2) →
  exec fuel ws op = Some ws' →
  ∀ x, read_state (heap ws'.1) x = Some UNMARKED → x ∈ all_objects ws'.2.
Proof.
  destruct ws as [w g], ws' as [w' g']. intros (Ha & _ & _) Hun Hop.
  apply exec_cases in Hop. simpl in *. destruct op.
  - destruct Hop as [-> ->]. simpl. unfold read_state. intros x Hx.
    apply elem_of_union.
    destruct (decide (x < length (heap w))) as [Hlt|Hge].
    + left. apply Hun. by rewrite lookup_app_l in Hx.
    + right. apply elem_of_singleton.
      destruct ((heap w ++ [mkObject (S (_id_counter w)) nm d [] UNMARKED]) !! x)
        as [o|] eqn:Hl; [|done].
      apply lookup_lt_Some in Hl. rewrite length_app in Hl. simpl in Hl. lia.
  - destruct Hop as (_ & _ & -> & ->). simpl. intros x.
    rewrite read_state_heap_add_reference. auto.
  - destruct Hop as (_ & _ & -> & ->). simpl. intros x.
    rewrite read_state_heap_remove_reference. auto.
  - by destruct Hop as (_ & -> & ->).
  - destruct Hop as (_ & -> & ->). unfold remove_root. by case_decide.
  - destruct Hop as [st Hc]. intros x Hx.
    destruct (collect_general _ _ _ _ _ _ Ha Hc) as (h2 & [O _ _ _] & Hsurv & Hgone & Hin & Hout).
    destruct (decide (x ∈ all_objects g)) as [Hm|Hnm].
    + destruct (decide (x ∈ all_objects g')) as [|Hnx]; [done|].
      destruct (Hgone x Hm Hnx) as [_ Hcol]. congruence.
    + exfalso. apply Hnm, Hun. unfold read_state in *. rewrite Hout in Hx by done.
      assert (heap w !! x = reset (heap w) g !! x) as ->
          by (by rewrite lookup_reset, decide_False).
      destruct (h2 !! x) as [o2|] eqn:Hx2; [|done].
      destruct (only_marks_lookup_r _ _ _ _ O Hx2) as (o1 & -> & _ & _ & [Hs|[_ Hs]]);
        simplify_eq/=; congruence.
  - by destruct Hop as [-> ->].
Qed.

(** X2: in every state reached by public operations, swept roots and stale
    references included, a [COLLECTED] object is never in [all_objects] and an
    [UNMARKED] object is always in it. *)
Theorem states_of_live_and_swept fuel (ops : list (Op Any)) ws x :
  run fuel init ops = Some ws →
  (read_state (heap ws.1) x = Some COLLECTED → x ∉ all_objects ws.2) ∧
  (read_state (heap ws.1) x = Some UNMARKED → x ∈ all_objects ws.2) ∧
  (x ∈ all_objects ws.2 →
   read_state (heap ws.1) x = Some UNMARKED ∨ read_state (heap ws.1) x = Some MARKED).
Proof.
  intros Hrun.
  assert (handles_valid ws ∧
          (∀ y, y ∈ all_objects ws.2 → read_state (heap ws.1) y ≠ Some COLLECTED) ∧
          (∀ y, read_state (heap ws.1) y = Some UNMARKED → y ∈ all_objects ws.2))
    as (Hv & Hnc & Hun).
  { eapply (run_inv (λ ws, handles_valid ws ∧
              (∀ y, y ∈ all_objects ws.2 → read_state (heap ws.1) y ≠ Some COLLECTED) ∧
              (∀ y, read_state (heap ws.1) y = Some UNMARKED → y ∈ all_objects ws.2)));
      [| |exact Hrun].
    - intros ws0 op ws1 (Hv0 & Hnc0 & Hun0) Hop. split; [|split].
      + by eapply exec_handles_valid.
      + by eapply exec_members_not_collected.
      + by eapply exec_unmarked_are_live.
    - split; [apply init_handles_valid|]. split; [apply init_members_not_collected|].
      intros y Hy. by destruct y. }
  split; [|split; [auto|]].
  - intros Hc Hin. by apply (Hnc x Hin).
  - intros Hin. pose proof (Hnc x Hin) as Hne.
    destruct Hv as (Ha & _). apply Ha, lookup_lt_is_Some in Hin as [o Ho].
    unfold read_state in *. rewrite Ho in *. simpl in *.
    destruct (state o); auto. done.
Qed.

(** ** The sweep phase on its own *)

Lemma garbage_after_sweep h g :
  garbage (foldl (write_state COLLECTED) h (garbage h g))
          (mkGC (all_objects g ∖ list_to_set (garbage h g)) (roots g)
                (collected_count g + length (garbage h g)) (collection_history g))
  = [].
Proof.
  apply elem_of_nil_inv. intros x [[Hx Hng]%elem_of_survivors Hu]%elem_of_garbage.
  simpl in *. unfold read_state in Hu. rewrite lookup_swept, decide_False in Hu by tauto.
  done.
Qed.

(** X3: [sweep_phase], called on any store, removes exactly the members that
    are [UNMARKED], roots or not, sets them [COLLECTED], touches nothing else,
    returns their number and adds it to [collected_count]; called again at
    once it removes nothing. *)
Theorem sweep_phase_removes_unmarked h g :
  ∃ h' g' n,
    sweep_phase h g = (h', g', n) ∧
    (∀ x, x ∈ all_objects g' ↔ x ∈ all_objects g ∧ read_state h x ≠ Some UNMARKED) ∧
    (∀ x, x ∈ all_objects g → read_state h x = Some UNMARKED →
          read_state h' x = Some COLLECTED) ∧
    (∀ x, ¬ (x ∈ all_objects g ∧ read_state h x = Some UNMARKED) → h' !! x = h !! x) ∧
    n = size (all_objects g) - size (all_objects g') ∧ n ≤ size (all_objects g) ∧
    collected_count g' = collected_count g + n ∧
    sweep_phase h' g' = (h', g', 0).
Proof.
  rewrite sweep_phase_eq. do 3 eexists. split; [done|]. simpl.
  split; [|split; [|split; [|split; [|split; [|split]]]]].
  - intros x. apply elem_of_survivors.
  - intros x Hx Hu. unfold read_state in *. rewrite lookup_swept, decide_True by done.
    by destruct (h !! x).
  - intros x Hx. by rewrite lookup_swept, decide_False.
  - rewrite size_survivors. pose proof (length_garbage_le h g). lia.
  - apply length_garbage_le.
  - done.
  - rewrite sweep_phase_eq, garbage_after_sweep. simpl.
    rewrite Nat.add_0_r, difference_empty_L. done.
Qed.

(** ** The mark phase on its own *)

Lemma reset_after_marks w g h2 :
  only_marks (reset (heap w) g) h2 →
  (∀ x, x ∉ all_objects g → h2 !! x = heap w !! x) →
  reset h2 g = reset (heap w) g.
Proof.
  intros O Hout. apply list_eq. intros x. rewrite !lookup_reset.
  case_decide as Hx; [|by apply Hout].
  destruct (reset (heap w) g !! x) as [o1|] eqn:H1.
  - pose proof H1 as H1'. rewrite lookup_reset, decide_True in H1' by done.
    rewrite H1'. destruct (only_marks_lookup _ _ _ _ O H1) as [->|[_ ->]]; simpl.
    + destruct (heap w !! x) as [o|]; simplify_eq/=. done.
    + destruct (heap w !! x) as [o|]; simplify_eq/=. done.
  - pose proof H1 as H1'. rewrite lookup_reset, decide_True in H1' by done.
    rewrite H1'. apply lookup_ge_None in H1.
    rewrite <- (only_marks_length _ _ O) in H1. apply lookup_ge_None in H1.
    by rewrite H1.
Qed.

(** X4: when every root is live and live objects refer to live objects only,
    [mark_phase] leaves [MARKED] exactly the live objects some root reaches
    and [UNMARKED] the other live ones, returns the number of the former, does
    not touch the objects outside [all_objects], and, called again, returns
    the same store and the same count. *)
Theorem mark_phase_marks_reachable fuel w g :
  (∀ l, l ∈ all_objects g → l < length (heap w)) →
  closed (w, g) →
  length (heap w) < fuel →
  ∃ h2 n,
    mark_phase fuel (heap w) g = Some (h2, n) ∧
    (∀ x, x ∈ all_objects g →
          (read_state h2 x = Some MARKED ↔ reachable_from_roots (heap w) g x) ∧
          (read_state h2 x = Some MARKED ∨ read_state h2 x = Some UNMARKED)) ∧
    (∀ x, x ∉ all_objects g → h2 !! x = heap w !! x) ∧
    (∃ X : gset nat,
        (∀ x, x ∈ X ↔ x ∈ all_objects g ∧ reachable_from_roots (heap w) g x) ∧
        n = size X) ∧
    mark_phase fuel h2 g = Some (h2, n).
Proof.
  intros Hvalid Hclosed Hfuel.
  destruct (mark_roots_total fuel (reset (heap w) g) (iter (roots g)))
    as (h2 & Hrun & Hpost); [by rewrite length_reset|].
  pose proof Hpost as [O S R C].
  assert (length (reset (heap w) g) = length (heap w)) as Hlen by apply length_reset.
  assert (∀ x, reachable_from_roots (heap w) g x → x ∈ all_objects g ∧ marked h2 x)
    as Hcomplete.
  { intros x (r & Hr & Hp). revert x Hp.
    apply (rtc_ind_r (λ x, x ∈ all_objects g ∧ marked h2 x)).
    - assert (r ∈ all_objects g) as Hra by (by apply Hclosed).
      split; [done|]. apply S; [by apply elem_of_iter|]. rewrite Hlen. auto.
    - intros a b _ (o & Ha & Hb) [Haa Hma].
      assert (b ∈ all_objects g) as Hba by (eapply (proj2 Hclosed); eauto).
      split; [done|].
      apply marked_lookup in Hma as (o2 & Ha2 & Hst2).
      assert (references o2 = references o) as Hrefs.
      { pose proof (only_marks_same_refs _ _ O a) as Hsame.
        pose proof (same_refs_reset (heap w) g a) as Hsame0.
        rewrite Ha in Hsame0. rewrite <- Hsame0, Ha2 in Hsame. by simplify_eq/=. }
      eapply (C a o2 b); eauto.
      + by apply reset_member_not_marked.
      + by rewrite Hrefs.
      + rewrite Hlen. auto. }
  assert (∀ x, x ∉ all_objects g → h2 !! x = heap w !! x) as Hout.
  { intros x Hx.
    assert (heap w !! x = reset (heap w) g !! x) as ->
        by (by rewrite lookup_reset, decide_False).
    destruct (reset (heap w) g !! x) as [o|] eqn:Ho.
    - destruct (only_marks_lookup _ _ _ _ O Ho) as [->|[Hst Ho2]]; [done|].
      destruct (R x) as (r & Hr%elem_of_iter & Hp).
      { rewrite marked_lookup. intros (? & ? & ?). congruence. }
      { rewrite marked_lookup. eauto. }
      destruct Hx. eapply closed_path; [done|by apply Hclosed|].
      eapply same_refs_path; [|done]. apply same_refs_sym, same_refs_reset.
    - apply lookup_ge_None. rewrite (only_marks_length _ _ O). by apply lookup_ge_None. }
  exists h2. eexists. split; [by rewrite mark_phase_eq, Hrun|].
  split; [|split; [done|split]].
  - intros x Hx. split.
    + split; [by apply marked_member_reachable|]. intros Hr. by apply Hcomplete.
    + destruct (member_state_after_mark (heap w) g h2 x O Hx (Hvalid x Hx)); auto.
  - exists (all_objects g ∖ list_to_set (garbage h2 g)). split.
    + intros x. rewrite elem_of_survivors. split.
      * intros [Hx Hne]. split; [done|]. apply (marked_member_reachable w g h2); [done..|].
        destruct (member_state_after_mark (heap w) g h2 x O Hx (Hvalid x Hx)); done.
      * intros [Hx Hr]. split; [done|]. apply Hcomplete in Hr as [_ Hm].
        unfold marked in Hm. congruence.
    + rewrite size_survivors. pose proof (marked_plus_garbage w g h2 Hvalid O). lia.
  - rewrite mark_phase_eq, (reset_after_marks w g h2 O Hout), Hrun. simpl.
    done.
Qed.

(** ** References and roots: round trips *)

Lemma list_remove_snoc t ls : t ∉ ls → list_remove t (ls ++ [t]) = ls.
Proof.
  induction ls as [|l ls IH]; simpl.
  - intros _. by rewrite decide_True.
  - intros [Hne Hn]%not_elem_of_cons. rewrite decide_False by done. by rewrite IH.
Qed.

Lemma not_elem_of_list_remove t ls : NoDup ls → t ∉ list_remove t ls.
Proof.
  induction 1 as [|l ls Hl Hnd IH]; simpl; [by intros ?%elem_of_nil|].
  case_decide as Heq; [by subst|].
  intros [?|?]%elem_of_cons; [done|]. by apply IH.
Qed.

Lemma elem_of_list_remove_ne r t ls : r ≠ t → r ∈ list_remove t ls ↔ r ∈ ls.
Proof.
  intros Hne. induction ls as [|l ls IH]; simpl; [done|].
  case_decide as Heq.
  - subst l. rewrite elem_of_cons. naive_solver.
  - rewrite !elem_of_cons, IH. done.
Qed.

(** X5: a reference that is added can be found; removing one that was just
    added to a list that did not hold it gives the object back; adding appends
    at the end and keeps the order of the others; removing from a list without
    duplicates leaves no occurrence, and never touches another target. *)
Theorem reference_round_trip (o : ManagedObject Any) (t : nat) :
  t ∈ references (add_reference o t) ∧
  (t ∉ references o → references (add_reference o t) = references o ++ [t]) ∧
  (t ∉ references o → remove_reference (add_reference o t) t = o) ∧
  (NoDup (references o) → t ∉ references (remove_reference o t)) ∧
  (∀ r, r ≠ t → r ∈ references (remove_reference o t) ↔ r ∈ references o).
Proof.
  split; [|split; [|split; [|split]]].
  - apply elem_of_add_reference. auto.
  - intros Hn. unfold add_reference. by rewrite decide_True.
  - intros Hn. unfold add_reference. rewrite decide_True by done.
    unfold remove_reference. simpl.
    rewrite decide_True by (apply elem_of_app; right; by apply list_elem_of_singleton).
    unfold set_references. simpl. rewrite list_remove_snoc by done. by destruct o.
  - intros Hnd. unfold remove_reference. case_decide; simpl; [|done].
    by apply not_elem_of_list_remove.
  - intros r Hne. unfold remove_reference. case_decide; simpl; [|done].
    by apply elem_of_list_remove_ne.
Qed.

(** X6: in a state reached by public operations, once [remove_reference] has
    run there is no edge left from the object to the target, the other edges
    are as before, and once [add_reference] has run the edge is there. *)
Theorem reference_edges fuel (ops : list (Op Any)) ws self t :
  run fuel init ops = Some ws →
  self < length (heap ws.1) → t < length (heap ws.1) →
  ∃ wa wr,
    exec fuel ws (AddReference self t) = Some wa ∧
    exec fuel ws (RemoveReference self t) = Some wr ∧
    edge (heap wa.1) self t ∧
    ¬ edge (heap wr.1) self t ∧
    (∀ a b, (a, b) ≠ (self, t) →
            (edge (heap wa.1) a b ↔ edge (heap ws.1) a b) ∧
            (edge (heap wr.1) a b ↔ edge (heap ws.1) a b)).
Proof.
  intros Hrun Hs Ht. destruct ws as [w g]. simpl in *.
  assert (∀ l o, heap w !! l = Some o → NoDup (references o)) as Hnd.
  { apply (run_inv (λ ws, ∀ l o, heap ws.1 !! l = Some o → NoDup (references o))
             fuel (λ ws0 op ws1 Hn Hop, exec_refs_nodup fuel ws0 op ws1 Hn Hop)
             ops init (w, g)); [|done].
    intros l o Hl. simpl in Hl. by rewrite lookup_nil in Hl. }
  destruct (lookup_lt_is_Some_2 _ _ Hs) as [o Ho].
  unfold denotes. rewrite !decide_True by done. do 2 eexists.
  split; [done|]. split; [done|]. simpl. split; [|split].
  - exists (add_reference o t). rewrite lookup_heap_add_reference, decide_True, Ho by done.
    split; [done|]. apply elem_of_add_reference. auto.
  - intros (o' & Hl & Hin).
    rewrite lookup_heap_remove_reference, decide_True, Ho in Hl by done.
    simplify_eq/=. revert Hin. unfold remove_reference. case_decide; simpl; [|done].
    apply not_elem_of_list_remove. eauto.
  - intros a b Hne. unfold edge.
    rewrite lookup_heap_add_reference, lookup_heap_remove_reference.
    case_decide as Ha; [|done]. subst a. rewrite Ho. simpl.
    assert (b ≠ t) as Hb by congruence.
    split; split.
    + intros (? & [= <-] & Hin). exists o. split; [done|].
      apply elem_of_add_reference in Hin as [|]; done.
    + intros (? & [= <-] & Hin). eexists. split; [done|].
      apply elem_of_add_reference. auto.
    + intros (? & [= <-] & Hin). exists o. split; [done|].
      by apply elem_of_remove_reference in Hin.
    + intros (? & [= <-] & Hin). eexists. split; [done|].
      unfold remove_reference. case_decide; simpl; [|done].
      by apply elem_of_list_remove_ne.
Qed.

(** X7: [add_root] then [remove_root] of an object that was not a root gives
    the collector back; each is idempotent, a no-op when redundant, and
    neither touches [all_objects]. *)
Theorem root_round_trip g obj :
  obj ∈ roots (add_root g obj) ∧
  (obj ∉ roots (remove_root g obj)) ∧
  add_root (add_root g obj) obj = add_root g obj ∧
  remove_root (remove_root g obj) obj = remove_root g obj ∧
  (obj ∉ roots g → remove_root (add_root g obj) obj = g) ∧
  (obj ∈ roots g → add_root (remove_root g obj) obj = g) ∧
  (obj ∈ roots g → add_root g obj = g) ∧
  (obj ∉ roots g → remove_root g obj = g) ∧
  all_objects (add_root g obj) = all_objects g ∧
  all_objects (remove_root g obj) = all_objects g.
Proof.
  destruct g as [all rts cc hist]. unfold add_root, remove_root. simpl.
  assert (∀ X : gset nat, obj ∉ X → (X ∪ {[obj]}) ∖ {[obj]} = X) as Hadd_rem
      by set_solver.
  assert (∀ X : gset nat, obj ∈ X → X ∖ {[obj]} ∪ {[obj]} = X) as Hrem_add.
  { intros X Hin. apply set_eq. intros x.
    rewrite elem_of_union, elem_of_difference, elem_of_singleton.
    destruct (decide (x = obj)); naive_solver. }
  assert (∀ X : gset nat, obj ∈ X → X ∪ {[obj]} = X) as Hadd_in by set_solver.
  assert (∀ X : gset nat, X ∪ {[obj]} ∪ {[obj]} = X ∪ {[obj]}) as Hadd_add by set_solver.
  rewrite (decide_True (P := obj ∈ rts ∪ {[obj]})) by set_solver.
  destruct (decide (obj ∈ rts)) as [Hin|Hn]; simpl.
  - rewrite (decide_False (P := obj ∈ rts ∖ {[obj]})) by set_solver.
    rewrite ?Hrem_add, ?Hadd_in by done.
    repeat split; try done; set_solver.
  - rewrite (decide_False (P := obj ∈ rts)) by done.
    rewrite ?Hadd_rem, ?Hadd_add by done.
    repeat split; try done; set_solver.
Qed.

(** ** A new object *)

(** X8: an object that has just been allocated is new to [all_objects], is
    [UNMARKED], and, when nothing roots it or refers to it before the next
    [collect], is swept by it. *)
Theorem fresh_object_is_garbage fuel w g nm (d : Any) :
  handles_valid (w, g) →
  S (length (heap w)) < fuel →
  ∃ w1 g1 obj w2 g2 st,
    allocate w g nm d = (w1, g1, obj) ∧
    (obj ∉ all_objects g) ∧ obj ∈ all_objects g1 ∧
    size (all_objects g1) = S (size (all_objects g)) ∧
    read_state (heap w1) obj = Some UNMARKED ∧
    collect fuel w1 g1 = Some (w2, g2, st) ∧
    (obj ∉ all_objects g2) ∧
    read_state (heap w2) obj = Some COLLECTED.
Proof.
  intros (Ha & Hr & Hrefs) Hfuel. simpl in *.
  set (new := mkObject (S (_id_counter w)) nm d [] UNMARKED).
  set (w1 := mkWorld (S (_id_counter w)) (heap w ++ [new])).
  set (g1 := mkGC (all_objects g ∪ {[length (heap w)]}) (roots g)
                  (collected_count g) (collection_history g)).
  assert (length (heap w) ∉ all_objects g) as Hfresh.
  { intros Hin%Ha. lia. }
  assert (∀ l, l ∈ all_objects g1 → l < length (heap w1)) as Ha1.
  { simpl. rewrite length_app. simpl.
    intros l [Hl| ->%elem_of_singleton]%elem_of_union; [apply Ha in Hl|]; lia. }
  destruct (collect_total fuel w1 g1) as [[[w2 g2] st] Hc].
  { simpl. rewrite length_app. simpl. lia. }
  destruct (collect_general _ _ _ _ _ _ Ha1 Hc) as (h2 & Hpost & Hsurv & Hgone & _).
  assert (¬ reachable_from_roots (heap w1) g1 (length (heap w))) as Hunreach.
  { intros (r & Hin & Hp). simpl in Hin.
    apply rtc_inv_r in Hp as [->|(y & _ & o & Hy & Hin')].
    - apply Hr in Hin. lia.
    - simpl in Hy. apply lookup_snoc_Some in Hy as [[_ Hy]|[_ <-]].
      + pose proof (Hrefs _ _ _ Hy Hin'). lia.
      + by apply elem_of_nil in Hin'. }
  assert (length (heap w) ∈ all_objects g1) as Hin1.
  { simpl. apply elem_of_union. right. by apply elem_of_singleton. }
  assert (length (heap w) ∉ all_objects g2) as Hout.
  { intros (_ & Hm)%Hsurv. apply Hunreach.
    by apply (marked_member_reachable w1 g1 h2). }
  exists w1, g1, (length (heap w)), w2, g2, st.
  split; [done|]. split; [done|]. split; [done|]. split; [|split; [|split; [done|split]]].
  - simpl. rewrite size_union by set_solver. rewrite size_singleton. lia.
  - unfold read_state. simpl. by rewrite list_lookup_middle.
  - done.
  - by destruct (Hgone _ Hin1 Hout).
Qed.

(** ** Statistics *)

(** X9: what [get_stats] reports after a cycle agrees with the statistics the
    cycle returned: the objects left, the roots, one more cycle, the collected
    objects added to the total; and the cycle's marked objects are the ones
    left. *)
Theorem stats_agree fuel w g :
  (∀ l, l ∈ all_objects g → l < length (heap w)) →
  length (heap w) < fuel →
  ∃ w' g' st,
    collect fuel w g = Some (w', g', st) ∧
    total_objects (get_stats g') = final_objects st ∧
    marked_objects st = final_objects st ∧
    total_objects (get_stats g') = total_objects (get_stats g) - collected_objects st ∧
    root_objects (get_stats g') = stats_roots st ∧
    root_objects (get_stats g') = root_objects (get_stats g) ∧
    total_collected (get_stats g') = total_collected (get_stats g) + collected_objects st ∧
    collection_cycles (get_stats g') = S (collection_cycles (get_stats g)).
Proof.
  intros Hvalid Hfuel.
  destruct (collect_total fuel w g Hfuel) as [[[w' g'] st] Hc].
  destruct (collect_inv _ _ _ _ _ _ Hc)
    as (h2 & _ & [O _ _ _] & _ & _ & Hall & Hr & Hcc & Hhist & ->).
  pose proof (marked_plus_garbage w g h2 Hvalid O) as Hsum.
  pose proof (size_survivors h2 g) as Hsize. rewrite <- Hall in Hsize.
  exists w', g'. eexists. split; [exact Hc|]. simpl.
  rewrite Hr, Hcc, Hhist, length_app. simpl.
  repeat split; lia.
Qed.

(** ** The visualizer's cycle *)

(** X10: with graphviz available, [visualize_gc_cycle] sweeps what [collect]
    would sweep and leaves the same store, live set, roots and
    [collected_count], but appends nothing to [collection_history]: on a state
    reached by public operations, [collected_count] then exceeds the sum of
    the history by the number of objects swept.  Without graphviz it changes
    nothing. *)
Theorem visualizer_cycle_skips_history fuel0 (ops : list (Op Any)) w g fuel :
  run fuel0 init ops = Some (w, g) →
  length (heap w) < fuel →
  visualize_gc_cycle false fuel w g = Some (w, g) ∧
  ∃ w' g' st gv,
    collect fuel w g = Some (w', g', st) ∧
    visualize_gc_cycle true fuel w g = Some (w', gv) ∧
    all_objects gv = all_objects g' ∧ roots gv = roots g' ∧
    collected_count gv = collected_count g' ∧
    collection_history gv = collection_history g ∧
    collection_cycles (get_stats gv) = collection_cycles (get_stats g) ∧
    collected_count gv
    = history_collected (collection_history gv) + collected_objects st.
Proof.
  intros Hrun Hfuel. split; [done|].
  destruct (run_accounting _ _ _ _ Hrun) as (Hacc & _). simpl in Hacc.
  specialize (Hacc eq_refl).
  destruct (collect_total fuel w g Hfuel) as [[[w' g'] st] Hc].
  pose proof Hc as Hc'. rewrite collect_eq in Hc'.
  unfold visualize_gc_cycle. simpl. rewrite mark_phase_eq.
  destruct (for_each (mark fuel) (reset (heap w) g) (iter (roots g))) as [h2|]; [|done].
  simpl in *. rewrite sweep_phase_eq. injection Hc' as <- <- <-.
  do 4 eexists. split; [done|]. split; [done|]. simpl.
  repeat split; try done. lia.
Qed.

(** ** What one traversal reaches *)

Lemma white_not_marked h x : white h x → ¬ marked h x.
Proof. intros (o & Ho & Hst). rewrite marked_lookup. intros (? & ? & ?). congruence. Qed.

Lemma not_marked_white h x : x < length h → ¬ marked h x → white h x.
Proof.
  intros [o Ho]%lookup_lt_is_Some Hn. exists o. split; [done|].
  intros Hst. apply Hn, marked_lookup. eauto.
Qed.

Lemma only_marks_white h h' x : only_marks h h' → white h' x → white h x.
Proof.
  intros O (o' & Ho' & Hst).
  destruct (only_marks_lookup_r _ _ _ _ O Ho') as (o & Ho & _ & _ & [Hs|[_ Hs]]).
  - exists o. split; [done|]. congruence.
  - congruence.
Qed.

Lemma only_marks_white_reachable h h' a x :
  only_marks h h' → white_reachable h' a x → white_reachable h a x.
Proof.
  intros O [Ha Hp]. split; [by eapply only_marks_white|].
  eapply rtc_subrel; [|done]. intros b c [He Hc]. split.
  - eapply same_refs_edge; [|done]. by apply same_refs_sym, only_marks_same_refs.
  - by eapply only_marks_white.
Qed.

Lemma for_each_sound_white
    (f : list (ManagedObject Any) → nat → option (list (ManagedObject Any))) :
  (∀ h obj h', f h obj = Some h' →
     only_marks h h' ∧ ∀ x, ¬ marked h x → marked h' x → white_reachable h obj x) →
  ∀ ls h h', for_each f h ls = Some h' →
    only_marks h h' ∧
    ∀ x, ¬ marked h x → marked h' x → ∃ a, a ∈ ls ∧ white_reachable h a x.
Proof.
  intros Hf. induction ls as [|l ls IH]; intros h h' Hrun; simpl in Hrun.
  - simplify_eq. split; [apply only_marks_refl|]. by intros x ??.
  - destruct (f h l) as [h1|] eqn:Hl; [|done].
    destruct (Hf _ _ _ Hl) as [O1 S1]. destruct (IH _ _ Hrun) as [O2 S2].
    split; [by eapply only_marks_trans|].
    intros x Hx Hx'. destruct (decide (marked h1 x)) as [Hm|Hn].
    + exists l. split; [apply elem_of_cons; auto|]. auto.
    + destruct (S2 x Hn Hx') as (a & Ha & Hw). exists a.
      split; [apply elem_of_cons; auto|]. by eapply only_marks_white_reachable.
Qed.

Lemma mark_sound_white fuel h obj h' :
  mark fuel h obj = Some h' →
  only_marks h h' ∧ ∀ x, ¬ marked h x → marked h' x → white_reachable h obj x.
Proof.
  revert h obj h'. induction fuel as [|fuel IH]; intros h obj h' Hm; [done|].
  simpl in Hm. destruct (h !! obj) as [o|] eqn:Hobj.
  2:{ simplify_eq. split; [apply only_marks_refl|]. by intros x ??. }
  case_decide as Hst.
  { simplify_eq. split; [apply only_marks_refl|]. by intros x ??. }
  destruct (for_each_sound_white (mark fuel) IH _ _ _ Hm) as [O S].
  pose proof (only_marks_write _ _ _ Hobj Hst) as O1.
  assert (white h obj) as Hwo by (by exists o).
  split; [by eapply only_marks_trans|].
  intros x Hx Hx'. split; [done|].
  destruct (decide (x = obj)) as [->|Hne]; [done|].
  destruct (S x) as (a & Ha & Hwa & Hp); [|done|].
  { unfold marked. by rewrite read_write_state, decide_False. }
  eapply rtc_l.
  - split; [by exists o|]. by eapply only_marks_white.
  - eapply rtc_subrel; [|done]. intros b c [He Hc]. split.
    + eapply same_refs_edge; [|done]. by apply same_refs_sym, only_marks_same_refs.
    + by eapply only_marks_white.
Qed.

(** X16: [mark], called on any store with a deep enough stack, returns a store
    in which the [MARKED] objects are those that were [MARKED] already and
    those reached from [obj] through objects that were not [MARKED]; it stops
    at every object that was already [MARKED], and it changes nothing but
    states, and those only to [MARKED]. *)
Theorem mark_reaches_through_unmarked fuel h obj :
  unmarked_count h < fuel →
  ∃ h',
    mark fuel h obj = Some h' ∧
    (∀ x, marked h' x ↔ marked h x ∨ white_reachable h obj x) ∧
    length h' = length h ∧
    (∀ x o, h !! x = Some o →
            h' !! x = Some o ∨ (state o ≠ MARKED ∧ h' !! x = Some (set_state MARKED o))).
Proof.
  intros Hfuel. destruct (mark_total fuel h obj Hfuel) as (h' & Hm & O).
  pose proof (mark_correct _ _ _ _ Hm) as [_ S _ C].
  destruct (mark_sound_white _ _ _ _ Hm) as [_ Hsound].
  exists h'. split; [done|]. split; [|split].
  - intros x. split.
    + intros Hx'. destruct (decide (marked h x)); auto.
    + intros [Hx|[Hwo Hp]]; [by eapply only_marks_marked|]. revert x Hp.
      assert (∀ x, white h x → x < length h) as Hlt.
      { intros x (o & Ho & _). by eapply lookup_lt_Some. }
      apply (rtc_ind_r (λ x, white h x ∧ marked h' x)).
      * split; [done|]. apply S; [by apply list_elem_of_singleton|auto].
      * intros a b _ [(o & Ha & Hb) Hwb] [Hwa Hma]. split; [done|].
        apply marked_lookup in Hma as (o' & Ha' & Hst').
        pose proof (only_marks_same_refs _ _ O a) as Hrefs. rewrite Ha, Ha' in Hrefs.
        simplify_eq/=. eapply (C a o' b); eauto.
        -- by apply white_not_marked.
        -- congruence.
  - by apply (only_marks_length h h').
  - intros x o Ho. by apply (only_marks_lookup h h').
Qed.

(** ** What a cycle never changes *)

(** X17: a cycle changes states and nothing else: the store keeps its length,
    every object keeps its id, name, payload and references, the id counter
    and the roots stay, and no object enters [all_objects]. *)
Theorem collect_only_changes_states fuel w g :
  length (heap w) < fuel →
  ∃ w' g' st,
    collect fuel w g = Some (w', g', st) ∧
    _id_counter w' = _id_counter w ∧
    length (heap w') = length (heap w) ∧
    (∀ l o, heap w !! l = Some o → ∃ s, heap w' !! l = Some (set_state s o)) ∧
    all_objects g' ⊆ all_objects g ∧
    roots g' = roots g.
Proof.
  intros Hfuel. destruct (collect_total fuel w g Hfuel) as [[[w' g'] st] Hc].
  pose proof (collect_length _ _ _ _ _ _ Hc) as Hlen.
  destruct (collect_inv _ _ _ _ _ _ Hc)
    as (h2 & _ & [O _ _ _] & Hcnt & Hheap & Hall & Hr & _).
  exists w', g', st. split; [done|]. split; [done|]. split; [done|].
  split; [|split; [|done]].
  - intros l o Ho. rewrite Hheap, lookup_foldl_write_state.
    assert (∃ s1, reset (heap w) g !! l = Some (set_state s1 o)) as [s1 H1].
    { rewrite lookup_reset, Ho. case_decide; simpl; [by eexists|].
      exists (state o). by destruct o. }
    assert (∃ s2, h2 !! l = Some (set_state s2 o)) as [s2 H2].
    { destruct (only_marks_lookup _ _ _ _ O H1) as [->|[_ ->]]; by eexists. }
    rewrite H2. case_decide; simpl; by eexists.
  - rewrite Hall. intros x [? _]%elem_of_difference. done.
Qed.

(** ** Printing the object graph *)

Lemma insert_by_id_perm h x ls : insert_by_id h x ls ≡ₚ x :: ls.
Proof.
  induction ls as [|y ls IH]; simpl; [done|].
  case_decide; [done|]. rewrite IH. apply Permutation_swap.
Qed.

Lemma sorted_by_id_perm h ls : sorted_by_id h ls ≡ₚ ls.
Proof.
  induction ls as [|x ls IH]; simpl; [done|].
  by rewrite insert_by_id_perm, IH.
Qed.

Lemma insert_by_id_sorted h x ls :
  StronglySorted (λ a b, id_of h a ≤ id_of h b) ls →
  StronglySorted (λ a b, id_of h a ≤ id_of h b) (insert_by_id h x ls).
Proof.
  induction 1 as [|y ls Hs IH Hy]; simpl.
  - repeat constructor.
  - case_decide as Hle.
    + constructor; [by constructor|]. constructor; [done|].
      eapply Forall_impl; [exact Hy|]. intros b Hb. simpl in Hb. lia.
    + constructor; [done|]. rewrite insert_by_id_perm. constructor; [lia|done].
Qed.

Lemma sorted_by_id_sorted h ls :
  StronglySorted (λ a b, id_of h a ≤ id_of h b) (sorted_by_id h ls).
Proof.
  induction ls as [|x ls IH]; simpl; [constructor|]. by apply insert_by_id_sorted.
Qed.

Lemma StronglySorted_impl_elem_of (R R' : nat → nat → Prop) ls :
  (∀ a b, a ∈ ls → b ∈ ls → R a b → R' a b) →
  StronglySorted R ls → StronglySorted R' ls.
Proof.
  intros Himpl Hs. induction Hs as [|y ls Hs IH Hy]; [constructor|].
  constructor.
  - apply IH. intros a b Ha Hb. apply Himpl; apply elem_of_cons; auto.
  - apply Forall_forall. intros b Hb. apply Himpl; try (apply elem_of_cons; auto).
    by eapply Forall_forall in Hy.
Qed.

(** In a world where ids grow with the handles, sorting a duplicate-free
    list of handles by id sorts it by handle. *)
Lemma sorted_by_id_increasing w ls :
  ids_inv w → NoDup ls → (∀ l, l ∈ ls → l < length (heap w)) →
  StronglySorted (λ a b, a < b ∧ id_of (heap w) a < id_of (heap w) b)
                 (sorted_by_id (heap w) ls).
Proof.
  intros [_ Hinc] Hnd Hvalid.
  assert (∀ a b, a < length (heap w) → b < length (heap w) → a < b →
                 id_of (heap w) a < id_of (heap w) b) as Hmono.
  { intros a b Ha Hb Hlt.
    apply lookup_lt_is_Some in Ha as [oa Hoa]. apply lookup_lt_is_Some in Hb as [ob Hob].
    unfold id_of. rewrite Hoa, Hob. simpl.
    apply (Hinc a b); [| |done]; unfold ids; rewrite list_lookup_fmap.
    - by rewrite Hoa.
    - by rewrite Hob. }
  pose proof (sorted_by_id_perm (heap w) ls) as Hperm.
  assert (NoDup (sorted_by_id (heap w) ls)) as Hnd' by (by rewrite Hperm).
  assert (∀ l, l ∈ sorted_by_id (heap w) ls → l < length (heap w)) as Hvalid'.
  { intros l Hl. apply Hvalid. by rewrite <- Hperm. }
  pose proof (sorted_by_id_sorted (heap w) ls) as Hs.
  revert Hnd' Hvalid' Hs. generalize (sorted_by_id (heap w) ls). clear Hperm.
  intros srt Hnd' Hvalid' Hs. induction Hs as [|y srt Hs IH Hy]; [constructor|].
  apply NoDup_cons in Hnd' as [Hy' Hnd'].
  constructor.
  - apply IH; [done|]. intros l Hl. apply Hvalid', elem_of_cons. auto.
  - apply Forall_forall. intros b Hb.
    assert (id_of (heap w) y ≤ id_of (heap w) b) as Hle
        by (by eapply Forall_forall in Hy).
    assert (y < length (heap w)) as Hyv by (apply Hvalid', elem_of_cons; auto).
    assert (b < length (heap w)) as Hbv by (apply Hvalid', elem_of_cons; auto).
    assert (y ≠ b) as Hne by (intros ->; done).
    destruct (decide (y < b)) as [Hlt|Hge]; [split; [done|by apply Hmono]|].
    assert (b < y) as Hlt by lia. pose proof (Hmono b y Hbv Hyv Hlt). lia.
Qed.

#[local] Instance lt_and_antisymm (f : nat → nat) :
  AntiSymm (=) (λ a b, a < b ∧ f a < f b).
Proof. intros a b [? _] [? _]. lia. Qed.

Lemma run_ids_inv fuel (ops : list (Op Any)) ws :
  run fuel init ops = Some ws → handles_valid ws ∧ ids_inv ws.1.
Proof.
  intros Hrun. split.
  - eapply (run_inv handles_valid); [|apply init_handles_valid|exact Hrun].
    intros ws0 op ws1. apply exec_handles_valid.
  - apply world_steps_ids_inv. apply (run_world_steps _ _ _ _ Hrun).
Qed.

(** X15: in a state reached by public operations, the objects the two
    printers list are the live objects, each once, in increasing id order,
    which is the order of allocation; so what [print_object_graph] and
    [print_ascii_visualization] print does not depend on the order in which
    the set [all_objects] happens to be visited. *)
Theorem listing_in_allocation_order (order' : IterationOrder) fuel
    (ops : list (Op Any)) w g phase :
  run (order := order) fuel init ops = Some (w, g) →
  listing (order := order) (heap w) g ≡ₚ elements (all_objects g) ∧
  StronglySorted (λ a b, a < b ∧ id_of (heap w) a < id_of (heap w) b)
                 (listing (order := order) (heap w) g) ∧
  listing (order := order') (heap w) g = listing (order := order) (heap w) g ∧
  print_object_graph (order := order') (heap w) g
  = print_object_graph (order := order) (heap w) g ∧
  print_ascii_visualization (order := order') (heap w) g phase
  = print_ascii_visualization (order := order) (heap w) g phase.
Proof.
  intros [(Ha & _) Hids]%run_ids_inv. simpl in *.
  assert (∀ o : IterationOrder,
    StronglySorted (λ a b, a < b ∧ id_of (heap w) a < id_of (heap w) b)
                   (listing (order := o) (heap w) g)) as Hsorted.
  { intros o. apply sorted_by_id_increasing; [done| |].
    - rewrite (iter_perm (IterationOrder := o)). apply NoDup_elements.
    - intros l Hl. apply Ha. rewrite (iter_perm (IterationOrder := o)) in Hl.
      by apply elem_of_elements in Hl. }
  assert (∀ o : IterationOrder,
    listing (order := o) (heap w) g ≡ₚ elements (all_objects g)) as Hperm.
  { intros o. unfold listing. rewrite sorted_by_id_perm. apply iter_perm. }
  assert (listing (order := order') (heap w) g = listing (order := order) (heap w) g)
    as Heq.
  { eapply StronglySorted_unique; [apply lt_and_antisymm|apply Hsorted..|].
    by rewrite !Hperm. }
  split; [apply Hperm|]. split; [apply Hsorted|]. split; [done|].
  unfold print_object_graph, print_ascii_visualization. by rewrite Heq.
Qed.

(** ** Names are never changed *)

Lemma collect_same_names fuel w g w' g' st l :
  collect fuel w g = Some (w', g', st) → name <$> heap w' !! l = name <$> heap w !! l.
Proof.
  intros (h2 & _ & [O _ _ _] & _ & -> & _)%collect_inv.
  rewrite lookup_foldl_write_state.
  assert (name <$> h2 !! l = name <$> heap w !! l) as <-.
  { destruct (reset (heap w) g !! l) as [o|] eqn:Ho.
    - pose proof Ho as Ho'. rewrite lookup_reset in Ho'.
      assert (name <$> heap w !! l = Some (name o)) as ->.
      { case_decide; destruct (heap w !! l); by simplify_eq/=. }
      by destruct (only_marks_lookup _ _ _ _ O Ho) as [->|[_ ->]].
    - pose proof Ho as Ho'. rewrite lookup_reset in Ho'.
      assert (heap w !! l = None) as ->.
      { case_decide; destruct (heap w !! l); by simplify_eq/=. }
      apply lookup_ge_None in Ho. rewrite <- (only_marks_length _ _ O) in Ho.
      apply lookup_ge_None in Ho. by rewrite Ho. }
  case_decide; [|done]. by destruct (h2 !! l).
Qed.

(** A second cycle right after a first one, on a closed state. *)
Lemma collect_again fuel w g w1 g1 st1 :
  handles_valid (w, g) → closed (w, g) → length (heap w) < fuel →
  collect fuel w g = Some (w1, g1, st1) →
  ∃ w2 g2 st2,
    collect fuel w1 g1 = Some (w2, g2, st2) ∧
    collected_objects st2 = 0 ∧ all_objects g2 = all_objects g1.
Proof.
  intros Hv Hclosed Hfuel Hc1.
  assert (exec fuel (w, g) Collect = Some (w1, g1)) as Hop1 by (simpl; by rewrite Hc1).
  pose proof (exec_handles_valid _ _ _ _ Hv Hop1) as Hv1.
  pose proof (exec_closed fuel (w, g) Collect (w1, g1) Hv Hclosed I Hop1) as Hclosed1.
  pose proof (collect_length _ _ _ _ _ _ Hc1) as Hlen.
  destruct (collect_total fuel w1 g1) as [[[w2 g2] st2] Hc2]; [lia|].
  destruct (collect_reachability _ _ _ _ _ _ (proj1 Hv) Hclosed Hc1)
    as (_ & _ & _ & Hiff1 & _).
  destruct (collect_reachability _ _ _ _ _ _ (proj1 Hv1) Hclosed1 Hc2)
    as (_ & _ & _ & Hiff2 & _).
  pose proof (collect_same_refs _ _ _ _ _ _ Hc1) as Hsame.
  destruct (collect_inv _ _ _ _ _ _ Hc1) as (_ & _ & _ & _ & _ & _ & Hr1 & _).
  destruct (collect_inv _ _ _ _ _ _ Hc2)
    as (h2 & _ & _ & _ & _ & Hall2 & _ & _ & _ & Hst2).
  assert (all_objects g2 = all_objects g1) as Heq.
  { apply set_eq. intros x. rewrite Hiff1, Hiff2. unfold reachable_from_roots.
    simpl. rewrite Hr1. split; intros (r & Hr & Hp); exists r; (split; [done|]).
    - eapply same_refs_path; [|done]. by apply same_refs_sym.
    - by eapply same_refs_path. }
  exists w2, g2, st2. repeat split; try done.
  rewrite Hst2. simpl.
  pose proof (size_survivors h2 g1) as Hsize. rewrite <- Hall2, Heq in Hsize.
  pose proof (length_garbage_le h2 g1). lia.
Qed.

End Proofs.

(** * The interactive shell *)

Section ShellProofs.

Context {order : IterationOrder}.

Implicit Types (w : World (option string)) (sh : GCShell) (g : MarkAndSweepGC).
Implicit Types (table : gmap string nat) (nm : string).

(** ** The table after [do_collect] *)

Lemma lookup_foldl_delete table (nms : list string) nm :
  foldl (λ m k, delete k m) table nms !! nm
  = if decide (nm ∈ nms) then None else table !! nm.
Proof.
  revert table. induction nms as [|k nms IH]; intros table.
  - case_decide as Hin; [by apply elem_of_nil in Hin|done].
  - change (foldl (λ m k0, delete k0 m) table (k :: nms))
      with (foldl (λ m k0, delete k0 m) (delete k table) nms).
    rewrite IH. destruct (decide (nm ∈ nms)) as [Hin|Hn].
    + by rewrite decide_True by (apply elem_of_cons; auto).
    + destruct (decide (k = nm)) as [->|Hne].
      * rewrite decide_True by (apply elem_of_cons; auto). apply lookup_delete_eq.
      * rewrite decide_False by (by intros [?|?]%elem_of_cons).
        by apply lookup_delete_ne.
Qed.

Lemma elem_of_collected_names g table nm :
  nm ∈ collected_names g table ↔ ∃ l, table !! nm = Some l ∧ l ∉ all_objects g.
Proof.
  unfold collected_names. rewrite list_elem_of_fmap. split.
  - intros ([k l] & -> & [Hn Hin%elem_of_map_to_list]%list_elem_of_filter). eauto.
  - intros (l & Hl & Hn). exists (nm, l). split; [done|].
    apply list_elem_of_filter. split; [done|]. by apply elem_of_map_to_list.
Qed.

Lemma lookup_after_collect g table nm l :
  foldl (λ m k, delete k m) table (collected_names g table) !! nm = Some l
  ↔ table !! nm = Some l ∧ l ∈ all_objects g.
Proof.
  rewrite lookup_foldl_delete. case_decide as Hin.
  - apply elem_of_collected_names in Hin as (l' & Hl & Hn). split; [done|].
    intros [Hl' Hin]. congruence.
  - split; [|tauto]. intros Hl. split; [done|].
    destruct (decide (l ∈ all_objects g)); [done|].
    destruct Hin. apply elem_of_collected_names. eauto.
Qed.

(** ** Every command is a guarded operation of the collector, or a reset *)

Lemma do_cmd_exec fuel w sh c w' sh' :
  shell_ok (w, sh) → do_cmd fuel (w, sh) c = Some (w', sh') →
  (∃ op, live_op (w, gc sh) op ∧ exec fuel (w, gc sh) op = Some (w', gc sh')) ∨
  (w' = w ∧ gc sh' = GC_init).
Proof.
  intros [Hv Hclosed Hlive _ _ _] Hc. simpl in *.
  assert (∀ nm l, objects sh !! nm = Some l → l < length (heap w)) as Hden.
  { intros nm l Hl. apply (proj1 Hv). eauto. }
  destruct c; simpl in Hc.
  - unfold do_alloc in Hc. destruct args as [|nm rest]; simplify_eq/=.
    { left. by exists GetStats. }
    case_decide; simplify_eq/=.
    { left. by exists GetStats. }
    left. by exists (Allocate nm (head rest)).
  - unfold do_ref in Hc.
    destruct args as [|a [|b [|? ?]]]; simplify_eq/=; try (left; by exists GetStats).
    destruct (objects sh !! a) as [la|] eqn:Ha; simplify_eq/=;
      [|left; by exists GetStats].
    destruct (objects sh !! b) as [lb|] eqn:Hb; simplify_eq/=;
      [|left; by exists GetStats].
    left. exists (AddReference la lb). split; [simpl; eauto|].
    simpl. unfold denotes. rewrite decide_True by eauto. done.
  - unfold do_unref in Hc.
    destruct args as [|a [|b [|? ?]]]; simplify_eq/=; try (left; by exists GetStats).
    destruct (objects sh !! a) as [la|] eqn:Ha; simplify_eq/=;
      [|left; by exists GetStats].
    destruct (objects sh !! b) as [lb|] eqn:Hb; simplify_eq/=;
      [|left; by exists GetStats].
    left. exists (RemoveReference la lb). split; [done|].
    simpl. unfold denotes. rewrite decide_True by eauto. done.
  - unfold do_root in Hc. case_decide; simplify_eq/=; [left; by exists GetStats|].
    destruct (objects sh !! arg) as [l|] eqn:Hl; simplify_eq/=;
      [|left; by exists GetStats].
    left. exists (AddRoot l). split; [simpl; eauto|].
    simpl. unfold denotes. rewrite decide_True by eauto. done.
  - unfold do_unroot in Hc. case_decide; simplify_eq/=; [left; by exists GetStats|].
    destruct (objects sh !! arg) as [l|] eqn:Hl; simplify_eq/=;
      [|left; by exists GetStats].
    left. exists (RemoveRoot l). split; [done|].
    simpl. unfold denotes. rewrite decide_True by eauto. done.
  - unfold do_collect in Hc.
    destruct (collect fuel w (gc sh)) as [[[w1 g1] st]|] eqn:Hcol; [|done].
    injection Hc as <- <-. left. exists Collect. split; [done|].
    unfold exec. rewrite ?Hcol. done.
  - simplify_eq. left. by exists GetStats.
  - simplify_eq. left. by exists GetStats.
  - simplify_eq. left. by exists GetStats.
  - simplify_eq. by right.
Qed.

(** ** The shell's invariant *)

Lemma shell_ok_same_table w sh w' g' :
  shell_ok (w, sh) →
  handles_valid (w', g') → closed (w', g') →
  all_objects g' = all_objects (gc sh) →
  (∀ l, name <$> heap w' !! l = name <$> heap w !! l) →
  shell_ok (w', mkShell g' (objects sh)).
Proof.
  intros [_ _ Hlive Hnamed Hinj Hname] Hv Hc Hall Hnm. simpl in *.
  split; simpl; try done; rewrite ?Hall; try done.
  intros nm l o Hl Ho. specialize (Hnm l). rewrite Ho in Hnm.
  destruct (heap w !! l) as [o0|] eqn:Ho0; simplify_eq/=.
  rewrite Hnm. eauto.
Qed.

Lemma add_reference_name (o : ManagedObject (option string)) t :
  name (add_reference o t) = name o.
Proof. unfold add_reference. by case_decide. Qed.

Lemma remove_reference_name (o : ManagedObject (option string)) t :
  name (remove_reference o t) = name o.
Proof. unfold remove_reference. by case_decide. Qed.

Lemma do_cmd_ok fuel s c s' :
  shell_ok s → do_cmd fuel s c = Some s' → shell_ok s'.
Proof.
  destruct s as [w sh], s' as [w' sh']. intros Hok Hc.
  assert (handles_valid (w', gc sh') ∧ closed (w', gc sh')) as [Hv' Hc'].
  { destruct (do_cmd_exec _ _ _ _ _ _ Hok Hc) as [(op & Hg & Hop)|[-> ->]].
    - destruct Hok as [Hv Hcl _ _ _ _]. simpl in *. split.
      + by eapply exec_handles_valid.
      + by eapply exec_closed.
    - destruct Hok as [(_ & _ & Hrefs) _ _ _ _ _]. simpl in *. split.
      + split; [|split; [|done]]; simpl; by intros l ?%not_elem_of_empty.
      + split; simpl; [done|]. by intros l o r ?%not_elem_of_empty. }
  pose proof Hok as [Hv Hcl Hlive Hnamed Hinj Hname]. simpl in *.
  assert (∀ nm l, objects sh !! nm = Some l → l < length (heap w)) as Hden.
  { intros nm l Hl. apply (proj1 Hv). eauto. }
  destruct c; simpl in Hc.
  - unfold do_alloc in Hc. destruct args as [|nm rest]; simplify_eq/=; [done|].
    case_decide as Hex; simplify_eq/=; [done|].
    assert (objects sh !! nm = None) as Hnone.
    { destruct (objects sh !! nm); [|done]. destruct Hex. by eexists. }
    split; simpl; try done.
    + intros n l [[-> <-]|[_ Hl]]%lookup_insert_Some; apply elem_of_union.
      * right. by apply elem_of_singleton.
      * left. eauto.
    + intros l [Hl| ->%elem_of_singleton]%elem_of_union.
      * destruct (Hnamed l Hl) as (n & Hn). exists n.
        rewrite lookup_insert_ne; [done|]. intros ->. congruence.
      * exists nm. apply lookup_insert_eq.
    + intros n1 n2 l [[-> <-]|[Hne1 Hl1]]%lookup_insert_Some
                     [[-> Heq]|[Hne2 Hl2]]%lookup_insert_Some; try done.
      * apply Hden in Hl2. lia.
      * subst l. apply Hden in Hl1. lia.
      * eauto.
    + intros n l o [[-> <-]|[_ Hl]]%lookup_insert_Some Ho.
      * rewrite list_lookup_middle in Ho by done. by simplify_eq/=.
      * rewrite lookup_app_l in Ho by eauto. eauto.
  - unfold do_ref in Hc.
    destruct args as [|a [|b [|? ?]]]; simplify_eq/=; try done.
    destruct (objects sh !! a) as [la|] eqn:Ha; simplify_eq/=; [|done].
    destruct (objects sh !! b) as [lb|] eqn:Hb; simplify_eq/=; [|done].
    destruct sh' as [g' t']. simpl in *.
    apply (shell_ok_same_table w (mkShell g' t')); try done. intros l. simpl.
    rewrite lookup_heap_add_reference. case_decide; [|done].
    destruct (heap w !! l); [|done]. simpl. by rewrite add_reference_name.
  - unfold do_unref in Hc.
    destruct args as [|a [|b [|? ?]]]; simplify_eq/=; try done.
    destruct (objects sh !! a) as [la|] eqn:Ha; simplify_eq/=; [|done].
    destruct (objects sh !! b) as [lb|] eqn:Hb; simplify_eq/=; [|done].
    destruct sh' as [g' t']. simpl in *.
    apply (shell_ok_same_table w (mkShell g' t')); try done. intros l. simpl.
    rewrite lookup_heap_remove_reference. case_decide; [|done].
    destruct (heap w !! l); [|done]. simpl. by rewrite remove_reference_name.
  - unfold do_root in Hc. case_decide; simplify_eq/=; [done|].
    destruct (objects sh !! arg) as [l|] eqn:Hl; simplify_eq/=; [|done].
    by apply (shell_ok_same_table w' sh).
  - unfold do_unroot in Hc. case_decide; simplify_eq/=; [done|].
    destruct (objects sh !! arg) as [l|] eqn:Hl; simplify_eq/=; [|done].
    apply (shell_ok_same_table w' sh); try done.
    unfold remove_root. by case_decide.
  - unfold do_collect in Hc.
    destruct (collect fuel w (gc sh)) as [[[w1 g1] st]|] eqn:Hcol; [|done].
    injection Hc as <- <-. simpl in *.
    destruct (collect_inv _ _ _ _ _ _ Hcol) as (h2 & _ & _ & _ & _ & Hall & _).
    split; simpl; try done.
    + intros nm l [_ ?]%lookup_after_collect. done.
    + intros l Hl. pose proof Hl as Hl'. rewrite Hall in Hl'.
      apply elem_of_difference in Hl' as [Hl' _].
      destruct (Hnamed l Hl') as (nm & Hnm). exists nm.
      by apply lookup_after_collect.
    + intros n1 n2 l [H1 _]%lookup_after_collect [H2 _]%lookup_after_collect. eauto.
    + intros nm l o [Hl _]%lookup_after_collect Ho.
      pose proof (collect_same_names _ _ _ _ _ _ l Hcol) as Hnm. rewrite Ho in Hnm.
      destruct (heap w !! l) as [o0|] eqn:Ho0; simplify_eq/=.
      rewrite Hnm. eauto.
  - by simplify_eq.
  - by simplify_eq.
  - by simplify_eq.
  - simplify_eq. split; simpl; done.
Qed.

Lemma do_cmds_ok fuel cs s s' :
  shell_ok s → do_cmds fuel s cs = Some s' → shell_ok s'.
Proof.
  revert s. induction cs as [|c cs IH]; intros s Hok Hrun; simpl in Hrun.
  - by simplify_eq.
  - destruct (do_cmd fuel s c) as [s1|] eqn:Hc; [|done].
    eapply IH; [|done]. by eapply do_cmd_ok.
Qed.

Lemma onecmd_ok fuel s ln s' :
  shell_ok s → onecmd fuel s ln = Some s' → shell_ok s'.
Proof.
  intros Hok Hl. destruct ln as [c|arg|]; simpl in Hl.
  - by eapply do_cmd_ok.
  - unfold do_example in Hl. destruct (examples arg) as [cs|]; [|by simplify_eq].
    eapply do_cmds_ok; [|done].
    apply (do_cmd_ok fuel s CmdClear); [done|]. by destruct s.
  - by eapply do_cmds_ok.
Qed.

Lemma session_inv (P : World (option string) * GCShell → Prop) fuel :
  (∀ s ln s', shell_ok s → P s → onecmd fuel s ln = Some s' → P s') →
  ∀ lns s s', shell_ok s → P s → session fuel s lns = Some s' → shell_ok s' ∧ P s'.
Proof.
  intros Hstep. induction lns as [|ln lns IH]; intros s s' Hok HP Hrun; simpl in Hrun.
  - by simplify_eq.
  - destruct (onecmd fuel s ln) as [s1|] eqn:Hl; [|done].
    eapply IH; [| |done]; [by eapply onecmd_ok|eauto].
Qed.

Lemma shell_start_ok : shell_ok shell_start.
Proof.
  split; simpl; done.
Qed.

Lemma session_ok fuel lns s :
  session fuel shell_start lns = Some s → shell_ok s.
Proof.
  intros Hrun.
  by destruct (session_inv (λ _, True) fuel (λ _ _ _ _ _ _, I)
                 lns shell_start s shell_start_ok I Hrun).
Qed.

(** X11: throughout a session of the shell the table [objects] names exactly
    the live objects, one name each, each under the name it was allocated
    with; every root is live and live objects refer to live objects only. *)
Theorem shell_table_names_live_objects fuel lns w sh :
  session fuel shell_start lns = Some (w, sh) →
  (∀ l, l ∈ all_objects (gc sh) ↔ ∃ nm, objects sh !! nm = Some l) ∧
  (∀ n1 n2 l, objects sh !! n1 = Some l → objects sh !! n2 = Some l → n1 = n2) ∧
  (∀ nm l, objects sh !! nm = Some l → ∃ o, heap w !! l = Some o ∧ name o = nm) ∧
  roots (gc sh) ⊆ all_objects (gc sh) ∧
  (∀ l o r, l ∈ all_objects (gc sh) → heap w !! l = Some o → r ∈ references o →
            r ∈ all_objects (gc sh)).
Proof.
  intros [Hv Hcl Hlive Hnamed Hinj Hname]%session_ok. simpl in *.
  split; [|split; [done|split; [|split]]].
  - intros l. split; [auto|]. intros (nm & Hl). eauto.
  - intros nm l Hl. assert (l < length (heap w)) as Hlt by (apply (proj1 Hv); eauto).
    apply lookup_lt_is_Some in Hlt as [o Ho]. eauto.
  - apply Hcl.
  - apply Hcl.
Qed.

(** ** A cycle run from the shell *)

(** X12: in a session, [do_collect] returns and leaves in the table exactly
    the names whose object some root reaches, which are then the live
    objects; typed again at once, it collects nothing and leaves the table
    and the live set as they are. *)
Theorem shell_collect_keeps_reachable fuel0 lns w sh fuel :
  session fuel0 shell_start lns = Some (w, sh) →
  length (heap w) < fuel →
  ∃ w1 sh1 st1 w2 sh2 st2,
    do_collect fuel w sh = Some (w1, sh1, st1) ∧
    (∀ nm l, objects sh1 !! nm = Some l
             ↔ objects sh !! nm = Some l ∧ reachable_from_roots (heap w) (gc sh) l) ∧
    (∀ l, l ∈ all_objects (gc sh1) ↔ reachable_from_roots (heap w) (gc sh) l) ∧
    do_collect fuel w1 sh1 = Some (w2, sh2, st2) ∧
    collected_objects st2 = 0 ∧
    objects sh2 = objects sh1 ∧
    all_objects (gc sh2) = all_objects (gc sh1).
Proof.
  intros Hok%session_ok Hfuel. pose proof Hok as [Hv Hcl Hlive _ _ _]. simpl in *.
  destruct (collect_total fuel w (gc sh) Hfuel) as [[[w1 g1] st1] Hc1].
  destruct (collect_reachability _ _ _ _ _ _ (proj1 Hv) Hcl Hc1)
    as (_ & _ & _ & Hiff & _).
  destruct (collect_again _ _ _ _ _ _ Hv Hcl Hfuel Hc1) as (w2 & g2 & st2 & Hc2 & Hz & Hall).
  unfold do_collect. rewrite Hc1. do 6 eexists. split; [done|]. simpl.
  rewrite Hc2.
  assert (∀ nm l,
    foldl (λ m k, delete k m) (objects sh) (collected_names g1 (objects sh)) !! nm = Some l
    ↔ objects sh !! nm = Some l ∧ reachable_from_roots (heap w) (gc sh) l) as Htable.
  { intros nm l. rewrite lookup_after_collect, Hiff. done. }
  split; [done|]. split; [done|]. split; [done|]. simpl. split; [done|]. split; [|done].
  assert (collected_names g2
            (foldl (λ m k, delete k m) (objects sh) (collected_names g1 (objects sh)))
          = []) as ->; [|done].
  apply elem_of_nil_inv. intros nm (l & [_ Hl]%lookup_after_collect & Hn)%elem_of_collected_names.
  apply Hn. by rewrite Hall.
Qed.

(** ** Complaints *)

Lemma table_names_carried s nm :
  shell_ok s → is_Some (objects s.2 !! nm) ↔ carries_name s nm.
Proof.
  intros [Hv Hcl Hlive Hnamed Hinj Hname]. split.
  - intros [l Hl]. pose proof (Hlive nm l Hl) as Hin.
    pose proof (proj1 Hv l Hin) as Hlt. simpl in Hlt.
    apply lookup_lt_is_Some in Hlt as [o Ho].
    exists l, o. split; [done|]. split; [done|]. by eapply Hname.
  - intros (l & o & Hin & Ho & <-). destruct (Hnamed l Hin) as [nm' Hl].
    rewrite (Hname nm' l o Hl Ho). by eexists.
Qed.

(** X13: in a session of the shell the answer to a command follows the live
    set of the collector.  With [args] what [shlex.split] returned, [alloc]
    answers that the name exists exactly when a member of [all_objects]
    carries it, and confirms exactly when none does; [ref] and [unref]
    confirm exactly when both names are carried by members of [all_objects];
    [root] and [unroot] with a name confirm exactly when a member carries it.
    No two members of [all_objects] carry the same name. *)
Theorem shell_replies_follow_live_names fuel lns s :
  session fuel shell_start lns = Some s →
  (∀ nm rest, (do_alloc s.1 s.2 (nm :: rest)).2 = AlreadyExists nm ↔ carries_name s nm) ∧
  (∀ nm rest, (do_alloc s.1 s.2 (nm :: rest)).2 = Confirmed ↔ ¬ carries_name s nm) ∧
  (∀ a b, (do_ref s.1 s.2 [a; b]).2 = Confirmed ↔ carries_name s a ∧ carries_name s b) ∧
  (∀ a b, (do_unref s.1 s.2 [a; b]).2 = Confirmed ↔ carries_name s a ∧ carries_name s b) ∧
  (∀ nm, nm ≠ "" → (do_root s.1 s.2 nm).2 = Confirmed ↔ carries_name s nm) ∧
  (∀ nm, nm ≠ "" → (do_unroot s.1 s.2 nm).2 = Confirmed ↔ carries_name s nm) ∧
  (∀ l1 l2 o1 o2, l1 ∈ all_objects (gc s.2) → l2 ∈ all_objects (gc s.2) →
                  heap s.1 !! l1 = Some o1 → heap s.1 !! l2 = Some o2 →
                  name o1 = name o2 → l1 = l2).
Proof.
  intros Hok%session_ok.
  pose proof (λ nm, table_names_carried s nm Hok) as Hkey.
  assert (∀ nm, objects s.2 !! nm = None ↔ ¬ carries_name s nm) as Hfree.
  { intros nm. rewrite <- Hkey, eq_None_not_Some. done. }
  destruct s as [w sh]. simpl in *.
  split; [|split; [|split; [|split; [|split; [|split]]]]].
  - intros nm rest. rewrite <- Hkey. unfold do_alloc. case_decide; simpl; [done|].
    split; [done|]. by intros ?.
  - intros nm rest. rewrite <- Hfree, eq_None_not_Some. unfold do_alloc.
    case_decide; simpl; [|done]. split; [done|]. by intros ?.
  - intros a b. rewrite <- !Hkey. unfold do_ref.
    destruct (objects sh !! a) as [la|]; simpl.
    + destruct (objects sh !! b) as [lb|]; simpl.
      * split; [|done]. intros _. split; by eexists.
      * split; [done|]. by intros [_ [? ?]].
    + split; [done|]. by intros [[? ?] _].
  - intros a b. rewrite <- !Hkey. unfold do_unref.
    destruct (objects sh !! a) as [la|]; simpl.
    + destruct (objects sh !! b) as [lb|]; simpl.
      * split; [|done]. intros _. split; by eexists.
      * split; [done|]. by intros [_ [? ?]].
    + split; [done|]. by intros [[? ?] _].
  - intros nm Hnm. rewrite <- Hkey. unfold do_root. rewrite decide_False by done.
    destruct (objects sh !! nm) as [l|]; simpl.
    + split; [|done]. intros _. by eexists.
    + split; [done|]. by intros [? ?].
  - intros nm Hnm. rewrite <- Hkey. unfold do_unroot. rewrite decide_False by done.
    destruct (objects sh !! nm) as [l|]; simpl.
    + split; [|done]. intros _. by eexists.
    + split; [done|]. by intros [? ?].
  - destruct Hok as [Hv Hcl Hlive Hnamed Hinj Hname]. simpl in *.
    intros l1 l2 o1 o2 Hl1 Hl2 Ho1 Ho2 Heq.
    destruct (Hnamed l1 Hl1) as [n1 Hn1]. destruct (Hnamed l2 Hl2) as [n2 Hn2].
    pose proof (Hname n1 l1 o1 Hn1 Ho1). pose proof (Hname n2 l2 o2 Hn2 Ho2).
    congruence.
Qed.

(** ** Swept objects in a session *)

Lemma do_cmd_lift (P : World (option string) * MarkAndSweepGC → Prop) fuel :
  (∀ ws op ws', handles_valid ws → closed ws → P ws → live_op ws op →
                exec fuel ws op = Some ws' → P ws') →
  (∀ w g, P (w, g) → P (w, GC_init)) →
  ∀ s c s', shell_ok s → P (s.1, gc s.2) → do_cmd fuel s c = Some s' →
            P (s'.1, gc s'.2).
Proof.
  intros Hexec Hreset [w sh] c [w' sh'] Hok HP Hc. simpl in *.
  destruct (do_cmd_exec _ _ _ _ _ _ Hok Hc) as [(op & Hg & Hop)|[-> ->]].
  - destruct Hok as [Hv Hcl _ _ _ _]. eapply Hexec; eauto.
  - eauto.
Qed.

Lemma onecmd_lift (P : World (option string) * MarkAndSweepGC → Prop) fuel :
  (∀ ws op ws', handles_valid ws → closed ws → P ws → live_op ws op →
                exec fuel ws op = Some ws' → P ws') →
  (∀ w g, P (w, g) → P (w, GC_init)) →
  ∀ s ln s', shell_ok s → P (s.1, gc s.2) → onecmd fuel s ln = Some s' →
             P (s'.1, gc s'.2).
Proof.
  intros Hexec Hreset.
  assert (∀ cs s s', shell_ok s → P (s.1, gc s.2) → do_cmds fuel s cs = Some s' →
                     P (s'.1, gc s'.2)) as Hcmds.
  { induction cs as [|c cs IH]; intros s s' Hok HP Hrun; simpl in Hrun.
    - by simplify_eq.
    - destruct (do_cmd fuel s c) as [s1|] eqn:Hc; [|done].
      eapply IH; [| |done]; [by eapply do_cmd_ok|by eapply do_cmd_lift]. }
  intros s ln s' Hok HP Hl. destruct ln as [c|arg|]; simpl in Hl.
  - by eapply do_cmd_lift.
  - unfold do_example in Hl. destruct (examples arg) as [cs|]; [|by simplify_eq].
    eapply Hcmds; [| |done].
    + apply (do_cmd_ok fuel s CmdClear); [done|]. by destruct s.
    + destruct s as [w sh]. simpl in *. eauto.
  - by eapply Hcmds.
Qed.

(** X14: through the shell [COLLECTED] is final: in a session, an object whose
    state is [COLLECTED] is outside [all_objects], and whatever is typed
    afterwards, [clear] included, it stays [COLLECTED] and outside. *)
Theorem shell_collected_is_final fuel lns1 lns2 s s' x :
  session fuel shell_start lns1 = Some s →
  read_state (heap s.1) x = Some COLLECTED →
  session fuel s lns2 = Some s' →
  (x ∉ all_objects (gc s.2)) ∧ (x ∉ all_objects (gc s'.2)) ∧
  read_state (heap s'.1) x = Some COLLECTED.
Proof.
  intros Hrun1 Hx Hrun2.
  set (P1 := λ ws : World (option string) * MarkAndSweepGC,
               ∀ y, y ∈ all_objects ws.2 → read_state (heap ws.1) y ≠ Some COLLECTED).
  set (P2 := λ ws : World (option string) * MarkAndSweepGC,
               x < length (heap ws.1) ∧ (x ∉ all_objects ws.2) ∧
               read_state (heap ws.1) x = Some COLLECTED).
  assert (∀ s0 ln s1, shell_ok s0 → P1 (s0.1, gc s0.2) →
                      onecmd fuel s0 ln = Some s1 → P1 (s1.1, gc s1.2)) as Hstep1.
  { apply (onecmd_lift P1).
    - intros ws op ws' Hv _ HP _ Hop. unfold P1. by eapply exec_members_not_collected.
    - intros w g _ y Hy. by apply not_elem_of_empty in Hy. }
  assert (P1 (shell_start.1, gc shell_start.2)) as Hinit.
  { intros y Hy. by apply not_elem_of_empty in Hy. }
  destruct (session_inv (λ s, P1 (s.1, gc s.2)) fuel Hstep1 lns1 shell_start s
              shell_start_ok Hinit Hrun1) as [Hok Hnc].
  assert (P2 (s.1, gc s.2)) as HP2.
  { split; [|split; [|done]].
    - unfold read_state in Hx. simpl. apply lookup_lt_is_Some.
      destruct (heap s.1 !! x); [by eexists|done].
    - intros Hin. by apply (Hnc x Hin). }
  assert (∀ s0 ln s1, shell_ok s0 → P2 (s0.1, gc s0.2) →
                      onecmd fuel s0 ln = Some s1 → P2 (s1.1, gc s1.2)) as Hstep2.
  { apply (onecmd_lift P2).
    - intros ws op ws' Hv Hcl (Hlt & Hn & Hst) _ Hop.
      destruct (exec_swept_stays _ _ _ _ _ Hlt Hn Hop) as (Hlt' & Hn' & Hst').
      split; [done|]. split; [done|]. rewrite Hst'; [done|apply Hv|done].
    - intros w g (Hlt & _ & Hst). split; [done|]. split; [|done].
      simpl. apply not_elem_of_empty. }
  destruct (session_inv (λ s, P2 (s.1, gc s.2)) fuel Hstep2 lns2 s s' Hok HP2 Hrun2)
    as [_ (_ & Hout & Hst)].
  split; [apply HP2|]. split; done.
Qed.

End ShellProofs.

(** ** Instances on concrete runs *)

(** The scenarios of the specification and of the test suite. *)

Example scenario_A_outcome : cycle_outcome scenario_A = Some (1, list_to_set [0; 1; 2]).
Proof. vm_compute. reflexivity. Qed.

Example scenario_B_outcome : cycle_outcome scenario_B = Some (3, ∅).
Proof. vm_compute. reflexivity. Qed.

Example scenario_C_outcome : cycle_outcome scenario_C = Some (0, list_to_set [0; 1; 2]).
Proof. vm_compute. reflexivity. Qed.

Example scenario_C_unrooted_outcome :
  cycle_outcome (run_state (scenario_C_ops ++ [Collect; RemoveRoot 0])) = Some (3, ∅).
Proof. vm_compute. reflexivity. Qed.

Example web_request_outcome :
  cycle_outcome web_request = Some (2, list_to_set [0; 1; 4; 5]).
Proof. vm_compute. reflexivity. Qed.

Example web_request_done_outcome :
  cycle_outcome (run_state (web_request_ops ++ [Collect; RemoveRoot 4]))
  = Some (2, list_to_set [0; 1]).
Proof. vm_compute. reflexivity. Qed.

Lemma collect_keeps_exactly_the_reachable_witness :
  ∃ w' g' st h2 n,
    collect 5 scenario_C_unrooted.1 scenario_C_unrooted.2 = Some (w', g', st) ∧
    mark_phase 5 (heap scenario_C_unrooted.1) scenario_C_unrooted.2 = Some (h2, n) ∧
    (∀ x, x ∈ all_objects g' ↔ reachable_from_roots (heap w') g' x) ∧
    (∀ x, x ∈ all_objects g' → read_state (heap w') x = Some MARKED) ∧
    (∀ x, x ∈ all_objects scenario_C_unrooted.2 → x ∉ all_objects g' →
          read_state h2 x = Some UNMARKED).
Proof.
  assert (guarded_run live_op 16 init scenario_C_unrooted_ops scenario_C_unrooted)
    as Hlive.
  { unfold scenario_C_unrooted_ops, scenario_C_ops. simpl. do 9 guarded_step.
    vm_compute. reflexivity. }
  apply (collect_keeps_exactly_the_reachable 5 scenario_C_unrooted.1 scenario_C_unrooted.2).
  - apply (live_run_closed 16 scenario_C_unrooted_ops scenario_C_unrooted Hlive).
  - apply (live_run_closed 16 scenario_C_unrooted_ops scenario_C_unrooted Hlive).
  - vm_compute. lia.
Defined.

Lemma collect_conservation_witness :
  ∃ w' g' st,
    collect 5 scenario_A.1 scenario_A.2 = Some (w', g', st) ∧
    initial_objects st = size (all_objects scenario_A.2) ∧
    final_objects st = size (all_objects g') ∧
    marked_objects st + collected_objects st = initial_objects st ∧
    collected_objects st ≤ initial_objects st ∧
    final_objects st = initial_objects st - collected_objects st.
Proof.
  apply (collect_conservation 5 scenario_A.1 scenario_A.2).
  - change (set_Forall (λ l, l < length (heap scenario_A.1)) (all_objects scenario_A.2)).
    by_evaluation.
  - vm_compute. lia.
Defined.

Lemma collect_preserves_roots_witness :
  ∃ w' g' st,
    collect 5 scenario_A.1 scenario_A.2 = Some (w', g', st) ∧
    roots g' = roots scenario_A.2 ∧
    ∀ h : list (ManagedObject unit), roots (sweep_phase h scenario_A.2).1.2 = roots scenario_A.2.
Proof.
  apply (collect_preserves_roots 5 scenario_A.1 scenario_A.2).
  vm_compute. lia.
Defined.

Lemma mark_terminates_witness :
  ∃ h' log,
    mark_log 4 (heap scenario_C.1, []) 0 = Some (h', log) ∧
    mark 4 (heap scenario_C.1) 0 = Some h' ∧ NoDup log ∧
    length log ≤ unmarked_count (heap scenario_C.1).
Proof.
  apply (proj1 (proj2 (mark_terminates (heap scenario_C.1) scenario_C.2 0))).
  vm_compute. lia.
Defined.

Lemma accounting_invariant_witness :
  collected_count after_A.2 = history_collected (collection_history after_A.2) ∧
  length (collection_history after_A.2) = completed_cycles after_A_ops ∧
  collected_count after_A.2 ≤ collected_count after_unroot.2 ∧
  length (collection_history after_A.2) ≤ length (collection_history after_unroot.2).
Proof.
  apply (accounting_invariant 16 after_A_ops unroot_ops after_A after_unroot).
  - vm_compute. reflexivity.
  - vm_compute. reflexivity.
Defined.

Lemma references_duplicate_free_witness :
  add_reference one_reference 1 = one_reference ∧
  remove_reference one_reference 2 = one_reference ∧
  NoDup (references (add_reference one_reference 2)) ∧
  (∀ l o, heap after_A.1 !! l = Some o → NoDup (references o)).
Proof.
  split; [|split; [|split]].
  - apply (proj1 (references_duplicate_free one_reference 1)). by_evaluation.
  - apply (proj1 (proj2 (proj2 (references_duplicate_free one_reference 2)))).
    by_evaluation.
  - apply (proj1 (proj2 (proj2 (proj2 (references_duplicate_free one_reference 2))))).
    by_evaluation.
  - intros l o.
    apply (proj2 (proj2 (proj2 (proj2 (references_duplicate_free one_reference 1))))
             16 after_A_ops after_A).
    vm_compute. reflexivity.
Defined.

Lemma ids_strictly_increasing_witness :
  (∀ i j a b, ids scenario_A.1 !! i = Some a → ids scenario_A.1 !! j = Some b →
              i < j → a < b) ∧
  NoDup (ids scenario_A.1) ∧
  (∀ g nm d, ∃ new, ids (allocate scenario_A.1 g nm d).1.1 = ids scenario_A.1 ++ [new] ∧
                    ∀ a, a ∈ ids scenario_A.1 → a < new) ∧
  (∀ w', rtc world_step scenario_A.1 w' → ids scenario_A.1 `prefix_of` ids w').
Proof.
  apply (ids_strictly_increasing scenario_A.1).
  apply (run_world_steps 0 scenario_A_ops init scenario_A).
  vm_compute. reflexivity.
Defined.


Lemma roots_are_live_witness : roots after_A.2 ⊆ all_objects after_A.2.
Proof.
  apply (roots_are_live 16 after_A_ops after_A).
  unfold after_A_ops, scenario_A_ops. simpl. do 8 guarded_step.
  vm_compute. reflexivity.
Defined.

Lemma collect_twice_collects_nothing_witness :
  ∃ w1 g1 st1 w2 g2 st2,
    collect 5 scenario_A.1 scenario_A.2 = Some (w1, g1, st1) ∧
    collect 5 w1 g1 = Some (w2, g2, st2) ∧
    collected_objects st2 = 0 ∧
    all_objects g2 = all_objects g1.
Proof.
  assert (guarded_run live_op 0 init scenario_A_ops scenario_A) as Hlive.
  { unfold scenario_A_ops. simpl. do 7 guarded_step. vm_compute. reflexivity. }
  apply (collect_twice_collects_nothing 5 scenario_A.1 scenario_A.2).
  - apply (live_run_closed 0 scenario_A_ops scenario_A Hlive).
  - apply (live_run_closed 0 scenario_A_ops scenario_A Hlive).
  - vm_compute. lia.
Defined.

(** ** Where the collector departs from the specification *)

(** C1, counterexample: A is swept; R is allocated, made a root and given a
    reference to A.  After the next cycle the path R → A leads from a root to
    A, and A is not in [all_objects]. *)
Lemma reachable_object_not_kept :
  run 16 init stale_reference_ops = Some stale_reference ∧
  ∃ w' g' st,
    collect 16 stale_reference.1 stale_reference.2 = Some (w', g', st) ∧
    1 ∈ roots g' ∧ edge (heap w') 1 0 ∧
    reachable_from_roots (heap w') g' 0 ∧
    (0 ∉ all_objects g') ∧
    ¬ (∀ x, x ∈ all_objects g' ↔ reachable_from_roots (heap w') g' x).
Proof.
  split; [vm_compute; reflexivity|].
  do 3 eexists. split; [vm_compute; reflexivity|].
  match goal with
  | |- 1 ∈ roots ?g ∧ edge ?h 1 0 ∧ _ =>
      assert (1 ∈ roots g) as Hroot by by_evaluation;
      assert (edge h 1 0) as Hedge
        by (eexists; split; [vm_compute; reflexivity|by_evaluation]);
      assert (0 ∉ all_objects g) as Hout by by_evaluation
  end.
  assert (∀ h g, 1 ∈ roots g → edge h 1 0 → reachable_from_roots (Any := unit) h g 0)
    as Hreach.
  { intros h g Hr He. exists 1. split; [done|]. by apply rtc_once. }
  split; [done|]. split; [done|]. split; [by apply Hreach|]. split; [done|].
  intros Hiff. apply Hout, Hiff. by apply Hreach.
Qed.


(** C4, counterexample: A is swept and then made a root; it is in [roots] and
    not in [all_objects]. *)
Lemma swept_object_rooted :
  run 16 init swept_root_ops = Some swept_root ∧
  0 ∈ roots swept_root.2 ∧ (0 ∉ all_objects swept_root.2) ∧
  ¬ roots swept_root.2 ⊆ all_objects swept_root.2.
Proof.
  split; [vm_compute; reflexivity|].
  assert (0 ∈ roots swept_root.2) as Hin by by_evaluation.
  assert (0 ∉ all_objects swept_root.2) as Hnin by by_evaluation.
  split; [done|]. split; [done|]. intros Hsub. apply Hnin, Hsub, Hin.
Qed.

(** C5, counterexample: A is swept, made a root and given a reference to a
    new object L.  The first cycle keeps L, reached through A; the second one,
    with nothing called in between, finds A still [MARKED], stops there, and
    sweeps L. *)
Lemma second_collect_sweeps :
  run 16 init stale_root_ops = Some stale_root ∧
  ∃ w1 g1 st1 w2 g2 st2,
    collect 16 stale_root.1 stale_root.2 = Some (w1, g1, st1) ∧
    collect 16 w1 g1 = Some (w2, g2, st2) ∧
    collected_objects st1 = 0 ∧
    collected_objects st2 = 1 ∧
    1 ∈ all_objects g1 ∧ 1 ∉ all_objects g2.
Proof.
  split; [vm_compute; reflexivity|].
  do 6 eexists. split; [vm_compute; reflexivity|]. split; [vm_compute; reflexivity|].
  split; [reflexivity|]. split; [reflexivity|]. split; by_evaluation.
Qed.

(** ** Instances of the further properties *)

Lemma collect_keeps_between_witness :
  ∃ w' g' st,
    collect 16 stale_root.1 stale_root.2 = Some (w', g', st) ∧
    (∀ x, reachable_through_live (heap stale_root.1) stale_root.2 x → x ∈ all_objects g') ∧
    (∀ x, x ∈ all_objects g' →
          x ∈ all_objects stale_root.2 ∧
          reachable_from_roots (heap stale_root.1) stale_root.2 x) ∧
    (∀ x, x ∈ all_objects stale_root.2 →
          ¬ reachable_from_roots (heap stale_root.1) stale_root.2 x →
          x ∉ all_objects g') ∧
    (∀ x, x ∈ all_objects stale_root.2 → x ∉ all_objects g' →
          read_state (heap w') x = Some COLLECTED).
Proof.
  apply (collect_keeps_between 16 stale_root.1 stale_root.2).
  - change (set_Forall (λ l, l < length (heap stale_root.1)) (all_objects stale_root.2)).
    by_evaluation.
  - vm_compute. lia.
Defined.

Lemma states_of_live_and_swept_witness :
  (read_state (heap stale_root.1) 0 = Some COLLECTED → 0 ∉ all_objects stale_root.2) ∧
  (read_state (heap stale_root.1) 0 = Some UNMARKED → 0 ∈ all_objects stale_root.2) ∧
  (0 ∈ all_objects stale_root.2 →
   read_state (heap stale_root.1) 0 = Some UNMARKED ∨
   read_state (heap stale_root.1) 0 = Some MARKED).
Proof.
  apply (states_of_live_and_swept 16 stale_root_ops stale_root 0).
  vm_compute. reflexivity.
Defined.

Lemma scenario_A_live : guarded_run live_op 0 init scenario_A_ops scenario_A.
Proof. unfold scenario_A_ops. simpl. do 7 guarded_step. vm_compute. reflexivity. Qed.

Lemma mark_phase_marks_reachable_witness :
  ∃ h2 n,
    mark_phase 5 (heap scenario_A.1) scenario_A.2 = Some (h2, n) ∧
    (∀ x, x ∈ all_objects scenario_A.2 →
          (read_state h2 x = Some MARKED
           ↔ reachable_from_roots (heap scenario_A.1) scenario_A.2 x) ∧
          (read_state h2 x = Some MARKED ∨ read_state h2 x = Some UNMARKED)) ∧
    (∀ x, x ∉ all_objects scenario_A.2 → h2 !! x = heap scenario_A.1 !! x) ∧
    (∃ X : gset nat,
        (∀ x, x ∈ X ↔ x ∈ all_objects scenario_A.2 ∧
                      reachable_from_roots (heap scenario_A.1) scenario_A.2 x) ∧
        n = size X) ∧
    mark_phase 5 h2 scenario_A.2 = Some (h2, n).
Proof.
  apply (mark_phase_marks_reachable 5 scenario_A.1 scenario_A.2).
  - apply (live_run_closed 0 scenario_A_ops scenario_A scenario_A_live).
  - apply (live_run_closed 0 scenario_A_ops scenario_A scenario_A_live).
  - vm_compute. lia.
Defined.

Lemma reference_round_trip_witness :
  2 ∈ references (add_reference one_reference 2) ∧
  references (add_reference one_reference 2) = references one_reference ++ [2] ∧
  remove_reference (add_reference one_reference 2) 2 = one_reference ∧
  (2 ∉ references (remove_reference one_reference 2)) ∧
  (1 ∈ references (remove_reference one_reference 2) ↔ 1 ∈ references one_reference).
Proof.
  destruct (reference_round_trip one_reference 2) as (H1 & H2 & H3 & H4 & H5).
  split; [exact H1|]. split; [apply H2; by_evaluation|].
  split; [apply H3; by_evaluation|]. split; [apply H4; by_evaluation|].
  apply H5. lia.
Defined.

Lemma reference_edges_witness :
  ∃ wa wr,
    exec 16 scenario_A (AddReference 0 3) = Some wa ∧
    exec 16 scenario_A (RemoveReference 0 3) = Some wr ∧
    edge (heap wa.1) 0 3 ∧
    ¬ edge (heap wr.1) 0 3 ∧
    (∀ a b, (a, b) ≠ (0, 3) →
            (edge (heap wa.1) a b ↔ edge (heap scenario_A.1) a b) ∧
            (edge (heap wr.1) a b ↔ edge (heap scenario_A.1) a b)).
Proof.
  apply (reference_edges 16 scenario_A_ops scenario_A 0 3).
  - vm_compute. reflexivity.
  - vm_compute. lia.
  - vm_compute. lia.
Defined.

Lemma root_round_trip_witness :
  remove_root (add_root scenario_A.2 1) 1 = scenario_A.2 ∧
  add_root (remove_root scenario_A.2 0) 0 = scenario_A.2 ∧
  add_root scenario_A.2 0 = scenario_A.2 ∧
  remove_root scenario_A.2 1 = scenario_A.2.
Proof.
  destruct (root_round_trip scenario_A.2 1) as (_ & _ & _ & _ & H1 & _ & _ & H4 & _).
  destruct (root_round_trip scenario_A.2 0) as (_ & _ & _ & _ & _ & H2 & H3 & _).
  split; [apply H1; by_evaluation|]. split; [apply H2; by_evaluation|].
  split; [apply H3; by_evaluation|]. apply H4; by_evaluation.
Defined.

Lemma scenario_A_valid : handles_valid scenario_A.
Proof. apply (live_run_closed 0 scenario_A_ops scenario_A scenario_A_live). Qed.

Lemma fresh_object_is_garbage_witness :
  ∃ w1 g1 obj w2 g2 st,
    allocate scenario_A.1 scenario_A.2 "E" tt = (w1, g1, obj) ∧
    (obj ∉ all_objects scenario_A.2) ∧ obj ∈ all_objects g1 ∧
    size (all_objects g1) = S (size (all_objects scenario_A.2)) ∧
    read_state (heap w1) obj = Some UNMARKED ∧
    collect 16 w1 g1 = Some (w2, g2, st) ∧
    (obj ∉ all_objects g2) ∧
    read_state (heap w2) obj = Some COLLECTED.
Proof.
  apply (fresh_object_is_garbage 16 scenario_A.1 scenario_A.2 "E" tt).
  - apply scenario_A_valid.
  - vm_compute. lia.
Defined.

Lemma stats_agree_witness :
  ∃ w' g' st,
    collect 5 scenario_A.1 scenario_A.2 = Some (w', g', st) ∧
    total_objects (get_stats g') = final_objects st ∧
    marked_objects st = final_objects st ∧
    total_objects (get_stats g')
    = total_objects (get_stats scenario_A.2) - collected_objects st ∧
    root_objects (get_stats g') = stats_roots st ∧
    root_objects (get_stats g') = root_objects (get_stats scenario_A.2) ∧
    total_collected (get_stats g')
    = total_collected (get_stats scenario_A.2) + collected_objects st ∧
    collection_cycles (get_stats g') = S (collection_cycles (get_stats scenario_A.2)).
Proof.
  apply (stats_agree 5 scenario_A.1 scenario_A.2).
  - apply scenario_A_valid.
  - vm_compute. lia.
Defined.

Lemma visualizer_cycle_skips_history_witness :
  visualize_gc_cycle false 5 scenario_A.1 scenario_A.2 = Some (scenario_A.1, scenario_A.2) ∧
  ∃ w' g' st gv,
    collect 5 scenario_A.1 scenario_A.2 = Some (w', g', st) ∧
    visualize_gc_cycle true 5 scenario_A.1 scenario_A.2 = Some (w', gv) ∧
    all_objects gv = all_objects g' ∧ roots gv = roots g' ∧
    collected_count gv = collected_count g' ∧
    collection_history gv = collection_history scenario_A.2 ∧
    collection_cycles (get_stats gv) = collection_cycles (get_stats scenario_A.2) ∧
    collected_count gv
    = history_collected (collection_history gv) + collected_objects st.
Proof.
  apply (visualizer_cycle_skips_history 0 scenario_A_ops scenario_A.1 scenario_A.2 5).
  - vm_compute. reflexivity.
  - vm_compute. lia.
Defined.

Lemma mark_reaches_through_unmarked_witness :
  ∃ h',
    mark 4 (heap scenario_C.1) 0 = Some h' ∧
    (∀ x, marked h' x
          ↔ marked (heap scenario_C.1) x ∨ white_reachable (heap scenario_C.1) 0 x) ∧
    length h' = length (heap scenario_C.1) ∧
    (∀ x o, heap scenario_C.1 !! x = Some o →
            h' !! x = Some o ∨
            (state o ≠ MARKED ∧ h' !! x = Some (set_state MARKED o))).
Proof.
  apply (mark_reaches_through_unmarked 4 (heap scenario_C.1) 0).
  vm_compute. lia.
Defined.

Lemma collect_only_changes_states_witness :
  ∃ w' g' st,
    collect 16 stale_root.1 stale_root.2 = Some (w', g', st) ∧
    _id_counter w' = _id_counter stale_root.1 ∧
    length (heap w') = length (heap stale_root.1) ∧
    (∀ l o, heap stale_root.1 !! l = Some o → ∃ s, heap w' !! l = Some (set_state s o)) ∧
    all_objects g' ⊆ all_objects stale_root.2 ∧
    roots g' = roots stale_root.2.
Proof.
  apply (collect_only_changes_states 16 stale_root.1 stale_root.2).
  vm_compute. lia.
Defined.

Lemma listing_in_allocation_order_witness :
  listing (heap after_A.1) after_A.2 ≡ₚ elements (all_objects after_A.2) ∧
  StronglySorted (λ a b, a < b ∧ id_of (heap after_A.1) a < id_of (heap after_A.1) b)
                 (listing (heap after_A.1) after_A.2) ∧
  listing (order := reverse_order) (heap after_A.1) after_A.2
  = listing (heap after_A.1) after_A.2 ∧
  print_object_graph (order := reverse_order) (heap after_A.1) after_A.2
  = print_object_graph (heap after_A.1) after_A.2 ∧
  print_ascii_visualization (order := reverse_order) (heap after_A.1) after_A.2 "After GC"
  = print_ascii_visualization (heap after_A.1) after_A.2 "After GC".
Proof.
  apply (listing_in_allocation_order reverse_order 16 after_A_ops after_A.1 after_A.2).
  vm_compute. reflexivity.
Defined.

Lemma shell_table_names_live_objects_witness :
  (∀ l, l ∈ all_objects (gc web_shell.2) ↔ ∃ nm, objects web_shell.2 !! nm = Some l) ∧
  (∀ n1 n2 l, objects web_shell.2 !! n1 = Some l → objects web_shell.2 !! n2 = Some l →
              n1 = n2) ∧
  (∀ nm l, objects web_shell.2 !! nm = Some l →
           ∃ o, heap web_shell.1 !! l = Some o ∧ name o = nm) ∧
  roots (gc web_shell.2) ⊆ all_objects (gc web_shell.2) ∧
  (∀ l o r, l ∈ all_objects (gc web_shell.2) → heap web_shell.1 !! l = Some o →
            r ∈ references o → r ∈ all_objects (gc web_shell.2)).
Proof.
  apply (shell_table_names_live_objects 16 web_session web_shell.1 web_shell.2).
  vm_compute. reflexivity.
Defined.

Lemma shell_collect_keeps_reachable_witness :
  ∃ w1 sh1 st1 w2 sh2 st2,
    do_collect 16 web_shell.1 web_shell.2 = Some (w1, sh1, st1) ∧
    (∀ nm l, objects sh1 !! nm = Some l
             ↔ objects web_shell.2 !! nm = Some l ∧
               reachable_from_roots (heap web_shell.1) (gc web_shell.2) l) ∧
    (∀ l, l ∈ all_objects (gc sh1)
          ↔ reachable_from_roots (heap web_shell.1) (gc web_shell.2) l) ∧
    do_collect 16 w1 sh1 = Some (w2, sh2, st2) ∧
    collected_objects st2 = 0 ∧
    objects sh2 = objects sh1 ∧
    all_objects (gc sh2) = all_objects (gc sh1).
Proof.
  apply (shell_collect_keeps_reachable 16 web_session web_shell.1 web_shell.2 16).
  - vm_compute. reflexivity.
  - vm_compute. lia.
Defined.

Lemma shell_replies_follow_live_names_witness :
  (∀ nm rest, (do_alloc web_shell.1 web_shell.2 (nm :: rest)).2 = AlreadyExists nm
              ↔ carries_name web_shell nm) ∧
  (∀ nm rest, (do_alloc web_shell.1 web_shell.2 (nm :: rest)).2 = Confirmed
              ↔ ¬ carries_name web_shell nm) ∧
  (∀ a b, (do_ref web_shell.1 web_shell.2 [a; b]).2 = Confirmed
          ↔ carries_name web_shell a ∧ carries_name web_shell b) ∧
  (∀ a b, (do_unref web_shell.1 web_shell.2 [a; b]).2 = Confirmed
          ↔ carries_name web_shell a ∧ carries_name web_shell b) ∧
  (∀ nm, nm ≠ "" → (do_root web_shell.1 web_shell.2 nm).2 = Confirmed
                   ↔ carries_name web_shell nm) ∧
  (∀ nm, nm ≠ "" → (do_unroot web_shell.1 web_shell.2 nm).2 = Confirmed
                   ↔ carries_name web_shell nm) ∧
  (∀ l1 l2 o1 o2, l1 ∈ all_objects (gc web_shell.2) → l2 ∈ all_objects (gc web_shell.2) →
                  heap web_shell.1 !! l1 = Some o1 → heap web_shell.1 !! l2 = Some o2 →
                  name o1 = name o2 → l1 = l2).
Proof.
  apply (shell_replies_follow_live_names 16 web_session web_shell).
  vm_compute. reflexivity.
Defined.

Lemma shell_collected_is_final_witness :
  (2 ∉ all_objects (gc web_shell.2)) ∧ (2 ∉ all_objects (gc later_shell.2)) ∧
  read_state (heap later_shell.1) 2 = Some COLLECTED.
Proof.
  apply (shell_collected_is_final 16 web_session later_session web_shell later_shell 2).
  - vm_compute. reflexivity.
  - vm_compute. reflexivity.
  - vm_compute. reflexivity.
Defined.
